(** * Segment cleaning simulator: model of [segment_adv4.c] and its properties

    The development embeds the segment cleaning simulator of
    [src/segment_adv4.c]: the write path, the garbage collector, the
    workload generator and [main]; and, in the module [Adv2], the workload
    generator and the summary of [src/segment_adv2.c], whose segments and
    write path are the same.  It states the properties of the
    specification, and further properties of the code, over that
    embedding.

    Conventions of the embedding:
    - [uint64_t] and [int] values are integers of [Z]; every [uint64_t]
      operation of the source that can leave the range is written with
      [wrap64];
    - the arrays [data], [valid] and [segments] are lists, read with
      [!!] and written with [<[ _ := _ ]>];
    - a [Segment *] that points into [manager->segments] is the index of
      that segment, so that two pointers to the same segment alias in the
      model exactly as they do in the program;
    - [double] is IEEE 754 binary64, the primitive [float];
    - the messages printed by [garbageCollect] and [processWriteRequest]
      are returned as outcomes next to the new state; what the workload
      functions and [main] print is a list of lines, with one constructor
      for each [printf] of the source;
    - the values of [rand()] are an argument: a function from the number
      of the call to the value returned. *)

From Stdlib Require Import ZArith Lia Bool Floats QArith.
From stdpp Require Import base list strings.

Local Open Scope Z_scope.

(** ** Constants of the program *)

Definition SEGMENT_SIZE : Z := 1024.
Definition NUM_SEGMENTS : Z := 1024.
(** [#define GC_THRESHOLD 0.9]: the binary64 value closest to nine tenths. *)
Definition GC_THRESHOLD : float := 0x1.ccccccccccccdp-1%float.

(** [sizeof(int)] on the ABIs the program is written for (its [%lu] for
    [uint64_t] is LP64): used only by the [memset] over the [int] array. *)
Definition SIZEOF_INT : Z := 4.

(** ** Machine arithmetic *)

Definition UINT64_MAX : Z := 2 ^ 64 - 1.

(** The value of a [uint64_t] expression whose mathematical value is [z]. *)
Definition wrap64 (z : Z) : Z := z mod 2 ^ 64.

(** The range of a [uint64_t]. *)
Definition u64 (z : Z) : Prop := 0 <= z <= UINT64_MAX.

(** [(double) z] for an integer [z]: rounding to nearest, ties to even. *)
Definition double_of_Z (z : Z) : float :=
  SF2Prim (binary_normalize prec emax z 0 false).

(** [for (i = lo; i < hi; i++) body], for a body that changes neither [i]
    nor [hi]: it runs [hi - lo] times when [lo < hi] and not at all
    otherwise. *)
Fixpoint iterate_from {A : Type} (body : Z -> A -> A) (n : nat) (i : Z) (a : A) : A :=
  match n with
  | O => a
  | S n' => iterate_from body n' (i + 1) (body i a)
  end.

Definition for_upto {A : Type} (lo hi : Z) (body : Z -> A -> A) (a : A) : A :=
  iterate_from body (Z.to_nat (hi - lo)) lo a.

(** ** Data model *)

Record Segment : Type := mkSegment {
  segmentId : Z;                (* int *)
  utilization : Z;              (* uint64_t *)
  data : list Z;                (* uint8_t data[SEGMENT_SIZE] *)
  valid : list Z;               (* int valid[SEGMENT_SIZE], 1 = valid, 0 = invalid *)
  invalidatedBytes : Z          (* uint64_t *)
}.

Record SegmentManager : Type := mkManager {
  segments : list Segment;      (* Segment segments[NUM_SEGMENTS] *)
  totalWrites : Z;              (* uint64_t *)
  totalInvalidated : Z;         (* uint64_t *)
  gcCount : Z;                  (* uint64_t *)
  totalGcCost : float           (* double *)
}.

Record WriteRequest : Type := mkRequest {
  offset : Z;                   (* uint64_t *)
  size : Z                      (* uint64_t *)
}.

(** [a[i]] for an [int] or [uint8_t] array; the source reads only below
    [SEGMENT_SIZE], the length of the array. *)
Definition read (a : list Z) (i : Z) : Z := default 0 (a !! Z.to_nat i).

(** [a[i] = v]. *)
Definition write (a : list Z) (i : Z) (v : Z) : list Z := <[Z.to_nat i := v]> a.

(** The test [if (segment->valid[i])] of C: any value but 0 is true. *)
Definition is_valid (s : Segment) (i : Z) : bool := negb (read (valid s) i =? 0).

(** [memset(a, 0, nbytes)] over an array whose elements are [width] bytes
    wide, for [nbytes] a multiple of [width]: the first [nbytes / width]
    elements become 0, the others keep their contents. *)
Fixpoint zero_prefix (n : nat) (a : list Z) : list Z :=
  match n, a with
  | S n', _ :: a' => 0 :: zero_prefix n' a'
  | _, _ => a
  end.

Definition memset0 (width : Z) (a : list Z) (nbytes : Z) : list Z :=
  zero_prefix (Z.to_nat (nbytes / width)) a.

(** Field updates. *)
Definition set_valid (s : Segment) (v : list Z) : Segment :=
  mkSegment (segmentId s) (utilization s) (data s) v (invalidatedBytes s).
Definition set_data (s : Segment) (d : list Z) : Segment :=
  mkSegment (segmentId s) (utilization s) d (valid s) (invalidatedBytes s).
Definition set_utilization (s : Segment) (u : Z) : Segment :=
  mkSegment (segmentId s) u (data s) (valid s) (invalidatedBytes s).
Definition set_invalidatedBytes (s : Segment) (n : Z) : Segment :=
  mkSegment (segmentId s) (utilization s) (data s) (valid s) n.

Definition set_segments (m : SegmentManager) (l : list Segment) : SegmentManager :=
  mkManager l (totalWrites m) (totalInvalidated m) (gcCount m) (totalGcCost m).
Definition set_totalWrites (m : SegmentManager) (n : Z) : SegmentManager :=
  mkManager (segments m) n (totalInvalidated m) (gcCount m) (totalGcCost m).
Definition set_totalInvalidated (m : SegmentManager) (n : Z) : SegmentManager :=
  mkManager (segments m) (totalWrites m) n (gcCount m) (totalGcCost m).
Definition set_gcCount (m : SegmentManager) (n : Z) : SegmentManager :=
  mkManager (segments m) (totalWrites m) (totalInvalidated m) n (totalGcCost m).
Definition set_totalGcCost (m : SegmentManager) (c : float) : SegmentManager :=
  mkManager (segments m) (totalWrites m) (totalInvalidated m) (gcCount m) c.

(** [*p = f( *p )] for a segment pointer [p = &manager->segments[k]]. *)
Definition update_segment (k : nat) (f : Segment -> Segment) (m : SegmentManager)
  : SegmentManager :=
  set_segments m (alter f k (segments m)).

(** ** [initSegmentManager]

    The function writes into storage it is given: [m0] is what that storage
    held before the call.  The [memset] over [data] (one byte per element)
    clears the whole array; the [memset] over [valid] is given the same
    byte count [SEGMENT_SIZE] although the elements are [int]s, so it clears
    [SEGMENT_SIZE / sizeof(int)] of them. *)
Definition init_segment (i : Z) (s : Segment) : Segment :=
  mkSegment i 0
            (memset0 1 (data s) SEGMENT_SIZE)
            (memset0 SIZEOF_INT (valid s) SEGMENT_SIZE)
            0.

(** The loop [for (i = 0; i < NUM_SEGMENTS; i++)] over the array. *)
Fixpoint init_segments (i : Z) (l : list Segment) : list Segment :=
  match l with
  | [] => []
  | s :: l' => init_segment i s :: init_segments (i + 1) l'
  end.

Definition initSegmentManager (m0 : SegmentManager) : SegmentManager :=
  mkManager (init_segments 0 (segments m0)) 0 0 0 0%float.

(** Storage that holds only zero bytes, such as pages the process has not
    touched yet. *)
Definition zero_segment : Segment :=
  mkSegment 0 0 (replicate (Z.to_nat SEGMENT_SIZE) 0) (replicate (Z.to_nat SEGMENT_SIZE) 0) 0.
Definition zero_memory : SegmentManager :=
  mkManager (replicate (Z.to_nat NUM_SEGMENTS) zero_segment) 0 0 0 0%float.

(** ** [findSegmentForWrite]

    The scan over [segments[0 .. NUM_SEGMENTS-1]] with its early return; the
    result is the index of the segment whose address the source returns,
    [None] for [NULL].  The sum [utilization + size] is a [uint64_t] sum. *)
Definition fits (sz : Z) (s : Segment) : bool :=
  wrap64 (utilization s + sz) <=? SEGMENT_SIZE.

Fixpoint first_fit (sz : Z) (i : nat) (l : list Segment) : option nat :=
  match l with
  | [] => None
  | s :: l' => if fits sz s then Some i else first_fit sz (S i) l'
  end.

Definition findSegmentForWrite (m : SegmentManager) (sz : Z) : option nat :=
  first_fit sz 0%nat (segments m).

(** ** [invalidateOldData]

    The loop touches [*segment] and [manager->totalInvalidated]; its state
    is that pair. *)
Definition invalidate_byte (i : Z) (st : Segment * Z) : Segment * Z :=
  let '(s, total) := st in
  if (i <? SEGMENT_SIZE) && is_valid s i then
    (mkSegment (segmentId s)
               (wrap64 (utilization s - 1))
               (data s)
               (write (valid s) i 0)
               (wrap64 (invalidatedBytes s + 1)),
     wrap64 (total + 1))
  else st.

Definition invalidate_loop (off sz : Z) (st : Segment * Z) : Segment * Z :=
  for_upto off (wrap64 (off + sz)) invalidate_byte st.

Definition invalidateOldData (m : SegmentManager) (k : nat) (off sz : Z) : SegmentManager :=
  match segments m !! k with
  | Some s =>
      let '(s', total) := invalidate_loop off sz (s, totalInvalidated m) in
      set_totalInvalidated (set_segments m (<[k := s']> (segments m))) total
  | None => m
  end.

(** ** [writeToSegment]

    The [manager] argument of the source is not used. *)
Definition write_byte (i : Z) (s : Segment) : Segment :=
  if i <? SEGMENT_SIZE then
    let s1 := set_data s (write (data s) i 1) in
    if negb (is_valid s1 i) then
      set_utilization (set_valid s1 (write (valid s1) i 1)) (wrap64 (utilization s1 + 1))
    else s1
  else s.

Definition write_loop (off sz : Z) (s : Segment) : Segment :=
  for_upto off (wrap64 (off + sz)) write_byte s.

Definition writeToSegment (m : SegmentManager) (k : nat) (off sz : Z) : SegmentManager :=
  update_segment k (write_loop off sz) m.

(** ** [processWriteRequest] and [garbageCollect] *)

(** What [garbageCollect] prints: the cost line is a number or the
    infinity symbol. *)
Inductive GcCost : Type :=
  | CostFinite (c : float)
  | CostInfinite.

Inductive GcOutcome : Type :=
  | NoVictim                                  (* "No suitable victim found." *)
  | NoDestination                             (* "No space available for compaction." *)
  | VictimReclaimed (id : Z) (cost : GcCost). (* "Freed Segment %d", then the cost *)

(** What [processWriteRequest] prints: nothing, the warning followed by
    what the forced collection prints, and then possibly the error. *)
Inductive WriteOutcome : Type :=
  | Accepted (forced : option GcOutcome)
  | AllocationFailure (forced : GcOutcome).

(** The victim scan: [st] is the pair of [victimIndex] ([None] for -1) and
    [maxInvalidated]. *)
Definition victim_step (i : nat) (s : Segment) (st : option nat * Z) : option nat * Z :=
  if (snd st <? invalidatedBytes s) && (0 <? utilization s)
  then (Some i, invalidatedBytes s)
  else st.

Fixpoint victim_scan (i : nat) (l : list Segment) (st : option nat * Z) : option nat * Z :=
  match l with
  | [] => st
  | s :: l' => victim_scan (S i) l' (victim_step i s st)
  end.

Definition select_victim (m : SegmentManager) : option nat :=
  fst (victim_scan 0%nat (segments m) (None, 0)).

(** One round of the copy loop, for [victim = &segments[v]] and
    [newSegment = &segments[d]]; both act on the one array of the manager,
    also when [v = d]. *)
Definition clear_valid (i : Z) (s : Segment) : Segment :=
  set_valid s (write (valid s) i 0).

Definition gc_copy_byte (v d : nat) (i : Z) (m : SegmentManager) : SegmentManager :=
  match segments m !! v with
  | Some victim =>
      if is_valid victim i
      then update_segment v (clear_valid i) (writeToSegment m d i 1)
      else m
  | None => m
  end.

Definition reset_victim (s : Segment) : Segment :=
  mkSegment (segmentId s) 0 (memset0 1 (data s) SEGMENT_SIZE) (valid s) 0.

(** [(double)manager->totalWrites / (NUM_SEGMENTS * SEGMENT_SIZE)] *)
Definition fill_ratio (m : SegmentManager) : float :=
  (double_of_Z (totalWrites m) / double_of_Z (NUM_SEGMENTS * SEGMENT_SIZE))%float.

Definition gc_cost (m : SegmentManager) : GcCost :=
  if (fill_ratio m <? 1.0)%float
  then CostFinite (2.0 / (1.0 - fill_ratio m))%float
  else CostInfinite.

Definition account_cost (m : SegmentManager) : SegmentManager :=
  let m' :=
    match gc_cost m with
    | CostFinite c => set_totalGcCost m (totalGcCost m + c)%float
    | CostInfinite => m
    end in
  set_gcCount m' (wrap64 (gcCount m' + 1)).

Definition compact (v d : nat) (m : SegmentManager) : SegmentManager :=
  update_segment v reset_victim (for_upto 0 SEGMENT_SIZE (gc_copy_byte v d) m).

Definition id_of (m : SegmentManager) (k : nat) : Z :=
  from_option segmentId 0 (segments m !! k).

Definition garbageCollect (m : SegmentManager) : SegmentManager * GcOutcome :=
  match select_victim m with
  | None => (m, NoVictim)
  | Some v =>
      match findSegmentForWrite m 0 with
      | None => (m, NoDestination)
      | Some d =>
          let m' := compact v d m in
          (account_cost m', VictimReclaimed (id_of m' v) (gc_cost m'))
      end
  end.

(** The part of [processWriteRequest] after a target segment is found. *)
Definition commit_write (m : SegmentManager) (k : nat) (r : WriteRequest) : SegmentManager :=
  let m1 := invalidateOldData m k (offset r) (size r) in
  let m2 := writeToSegment m1 k (offset r) (size r) in
  set_totalWrites m2 (wrap64 (totalWrites m2 + 1)).

Definition processWriteRequest (m : SegmentManager) (r : WriteRequest)
  : SegmentManager * WriteOutcome :=
  match findSegmentForWrite m (size r) with
  | Some k => (commit_write m k r, Accepted None)
  | None =>
      let '(m1, g) := garbageCollect m in
      match findSegmentForWrite m1 (size r) with
      | Some k => (commit_write m1 k r, Accepted (Some g))
      | None => (m1, AllocationFailure g)
      end
  end.

(** ** [isGarbageCollectionNeeded] *)

Definition usedSegments (m : SegmentManager) : Z :=
  Z.of_nat (length (filter (fun s => 0 < utilization s) (segments m))).

(** [x >= GC_THRESHOLD] is the comparison [GC_THRESHOLD <= x]. *)
Definition isGarbageCollectionNeeded (m : SegmentManager) : bool :=
  (GC_THRESHOLD <=? double_of_Z (usedSegments m) / double_of_Z NUM_SEGMENTS)%float.

(** ** Output *)

(** The lines that the program prints, one constructor for each [printf]
    of the source. *)
Inductive Line : Type :=
  | WarningSpaceFull                     (* "Warning: Space full, triggering garbage collection..." *)
  | ErrorNoSpace (offset size : Z)       (* "Error: No space available after garbage collection (offset: %lu, size: %lu)" *)
  | NoSuitableVictim                     (* "Garbage Collection: No suitable victim found." *)
  | NoSpaceForCompaction                 (* "Garbage Collection: No space available for compaction." *)
  | FreedSegment (id : Z)                (* "Garbage Collection: Freed Segment %d" *)
  | CollectionCost (c : GcCost)          (* "Garbage Collection Cost: %.2f" or the infinity symbol *)
  | AddingMoreWorkloads                  (* "\nAdding more workloads..." *)
  | GeneratingWorkload                   (* "\nGenerating workload..." *)
  | SegmentDetailsAfterWorkloads         (* "\nSegment Details After Workloads:" *)
  | SegmentDetails (id utilization invalidated : Z).
                                         (* "Segment ID: %d, Utilization: %lu/%d, Invalidated Bytes: %lu" *)

(** The lines of one call of [garbageCollect]. *)
Definition collect_lines (g : GcOutcome) : list Line :=
  match g with
  | NoVictim => [NoSuitableVictim]
  | NoDestination => [NoSpaceForCompaction]
  | VictimReclaimed id c => [FreedSegment id; CollectionCost c]
  end.

(** The lines of one call of [processWriteRequest]. *)
Definition write_lines (r : WriteRequest) (w : WriteOutcome) : list Line :=
  match w with
  | Accepted None => []
  | Accepted (Some g) => WarningSpaceFull :: collect_lines g
  | AllocationFailure g =>
      WarningSpaceFull :: collect_lines g ++ [ErrorNoSpace (offset r) (size r)]
  end.

(** ** [printSegmentDetails] *)
Definition details_line (s : Segment) : list Line :=
  if 0 <? utilization s
  then [SegmentDetails (segmentId s) (utilization s) (invalidatedBytes s)]
  else [].

Fixpoint details_lines (l : list Segment) : list Line :=
  match l with
  | [] => []
  | s :: l' => details_line s ++ details_lines l'
  end.

Definition printSegmentDetails (m : SegmentManager) : list Line :=
  details_lines (segments m).

(** ** [generateWorkload]

    [draw k] is the value of the call number [k] of [rand()] after the
    [srand(time(NULL))] of the function, counting from 0.  The
    [distribution] argument of the source is not used.  [%] is the
    remainder of the division of C, which truncates; the results are
    converted to [uint64_t]. *)
Definition uniform_request (draw : Z -> Z) (i : Z) : WriteRequest :=
  mkRequest (wrap64 (Z.rem (draw (2 * i)) SEGMENT_SIZE))
            (wrap64 (Z.rem (draw (2 * i + 1)) (Z.quot SEGMENT_SIZE 10) + 1)).

(** One round of the loop: the state is the manager and what has been
    printed. *)
Definition workload_round (draw : Z -> Z) (i : Z) (st : SegmentManager * list Line)
  : SegmentManager * list Line :=
  let r := uniform_request draw i in
  let '(m1, w) := processWriteRequest (fst st) r in
  let out1 := snd st ++ write_lines r w in
  if isGarbageCollectionNeeded m1
  then let '(m2, g) := garbageCollect m1 in (m2, out1 ++ collect_lines g)
  else (m1, out1).

Definition generateWorkload (m : SegmentManager) (numRequests : Z) (draw : Z -> Z)
  : SegmentManager * list Line :=
  for_upto 0 numRequests (workload_round draw) (m, []).

(** ** [addMoreWorkloads] *)
Definition addMoreWorkloads (m : SegmentManager) (numRequests : Z) (draw : Z -> Z)
  : SegmentManager * list Line :=
  let '(m', out) := generateWorkload m numRequests draw in
  (m', AddingMoreWorkloads :: out).

(** ** [main]

    [m0] is what the storage of the automatic variable [manager] holds
    when [main] starts; [draw1] and [draw2] are the values of [rand()] in
    the two workloads.  The result is the final manager and the output. *)
Definition main (m0 : SegmentManager) (draw1 draw2 : Z -> Z) : SegmentManager * list Line :=
  let m1 := initSegmentManager m0 in
  let '(m2, out2) := generateWorkload m1 2000 draw1 in
  let '(m3, out3) := addMoreWorkloads m2 1000 draw2 in
  (m3, GeneratingWorkload :: out2 ++ AddingMoreWorkloads :: out3 ++
       SegmentDetailsAfterWorkloads :: printSegmentDetails m3).

(** ** The variant [segment_adv2.c]

    The structure [Segment] and the functions [findSegmentForWrite],
    [invalidateOldData] and [writeToSegment] are those of
    [segment_adv4.c]; the manager has no collection counters, a request
    that finds no room fails at once, and the workload has three
    distributions. *)
Module Adv2.

Record SegmentManager : Type := mkManager {
  segments : list Segment;      (* Segment segments[NUM_SEGMENTS] *)
  totalWrites : Z;              (* uint64_t *)
  totalInvalidated : Z          (* uint64_t *)
}.

Inductive Line : Type :=
  | ErrorNoSpace (offset size : Z)       (* "Error: No space available for write request (offset: %lu, size: %lu)" *)
  | UnknownDistribution                  (* "Unknown distribution type." *)
  | SummaryHeading (distribution : string) (* "\nWorkload Summary (%s):" *)
  | SummaryWrites (n : Z)                (* "  Total Writes: %lu" *)
  | SummaryInvalidated (n : Z)           (* "  Total Invalidated Bytes: %lu" *)
  | SummaryUtilization (n : Z)           (* "  Total Utilization: %lu bytes" *)
  | SummarySegmentsUsed (n : Z)          (* "  Total Segments Used: %lu/%d" *)
  | Generating (distribution : string).  (* "\nGenerating %s workload..." *)

Definition initSegmentManager (m0 : SegmentManager) : SegmentManager :=
  mkManager (init_segments 0 (segments m0)) 0 0.

Definition findSegmentForWrite (m : SegmentManager) (sz : Z) : option nat :=
  first_fit sz 0%nat (segments m).

Definition invalidateOldData (m : SegmentManager) (k : nat) (off sz : Z) : SegmentManager :=
  match segments m !! k with
  | Some s =>
      let '(s', total) := invalidate_loop off sz (s, totalInvalidated m) in
      mkManager (<[k := s']> (segments m)) (totalWrites m) total
  | None => m
  end.

Definition writeToSegment (m : SegmentManager) (k : nat) (off sz : Z) : SegmentManager :=
  mkManager (alter (write_loop off sz) k (segments m)) (totalWrites m) (totalInvalidated m).

Definition processWriteRequest (m : SegmentManager) (r : WriteRequest)
  : SegmentManager * list Line :=
  match findSegmentForWrite m (size r) with
  | None => (m, [ErrorNoSpace (offset r) (size r)])
  | Some k =>
      let m1 := invalidateOldData m k (offset r) (size r) in
      let m2 := writeToSegment m1 k (offset r) (size r) in
      (mkManager (segments m2) (wrap64 (totalWrites m2 + 1)) (totalInvalidated m2), [])
  end.

(** The request of round [i] of the workload, if the distribution is one
    of the three that the function knows, together with the number of
    calls of [rand()] made so far; [c] is that number before the round,
    and [draw k] the value of call number [k].  The arithmetic is that of
    [int], whose division truncates; the results are converted to
    [uint64_t]. *)
Definition next_request (distribution : string) (numRequests i : Z) (draw : Z -> Z) (c : Z)
  : option (WriteRequest * Z) :=
  if String.eqb distribution "uniform"%string then
    Some (mkRequest (wrap64 (Z.rem (draw c) SEGMENT_SIZE))
                    (wrap64 (Z.rem (draw (c + 1)) (Z.quot SEGMENT_SIZE 10) + 1)),
          c + 2)
  else if String.eqb distribution "hotspot"%string then
    Some (mkRequest (wrap64 (Z.rem (draw c) (Z.quot SEGMENT_SIZE 4)))
                    (wrap64 (Z.rem (draw (c + 1)) (Z.quot SEGMENT_SIZE 10) + 1)),
          c + 2)
  else if String.eqb distribution "sequential"%string then
    Some (mkRequest (wrap64 (Z.rem (i * Z.quot SEGMENT_SIZE numRequests) SEGMENT_SIZE))
                    (wrap64 (Z.rem (draw c) (Z.quot SEGMENT_SIZE 10) + 1)),
          c + 1)
  else None.

(** The loop of [generateWorkload] from round [i], for [n] rounds to go;
    an unknown distribution makes the function return from inside the
    loop. *)
Fixpoint workload_loop (n : nat) (distribution : string) (numRequests i : Z)
    (draw : Z -> Z) (c : Z) (m : SegmentManager) (out : list Line)
  : SegmentManager * list Line :=
  match n with
  | O => (m, out)
  | S n' =>
      match next_request distribution numRequests i draw c with
      | None => (m, out ++ [UnknownDistribution])
      | Some (r, c') =>
          let '(m1, o) := processWriteRequest m r in
          workload_loop n' distribution numRequests (i + 1) draw c' m1 (out ++ o)
      end
  end.

Definition generateWorkload (m : SegmentManager) (numRequests : Z) (distribution : string)
    (draw : Z -> Z) : SegmentManager * list Line :=
  workload_loop (Z.to_nat numRequests) distribution numRequests 0 draw 0 m [].

(** The loop of [printWorkloadSummary]: the state is the pair of
    [totalUtilization] and [totalSegmentsUsed], both [uint64_t]. *)
Definition summary_step (s : Segment) (st : Z * Z) : Z * Z :=
  if 0 <? utilization s
  then (wrap64 (fst st + utilization s), wrap64 (snd st + 1))
  else st.

Definition printWorkloadSummary (m : SegmentManager) (distribution : string) : list Line :=
  let '(totalUtilization, totalSegmentsUsed) := foldl (fun st s => summary_step s st) (0, 0) (segments m) in
  [SummaryHeading distribution; SummaryWrites (totalWrites m);
   SummaryInvalidated (totalInvalidated m); SummaryUtilization totalUtilization;
   SummarySegmentsUsed totalSegmentsUsed].

(** One of the three parts of [main]. *)
Definition phase (m0 : SegmentManager) (distribution : string) (draw : Z -> Z)
  : SegmentManager * list Line :=
  let m1 := initSegmentManager m0 in
  let '(m2, out) := generateWorkload m1 100 distribution draw in
  (m2, Generating distribution :: out ++ printWorkloadSummary m2 distribution).

(** [m0] is what the storage of [manager] holds when [main] starts, and
    [draw1], [draw2] and [draw3] the values of [rand()] in the three
    workloads. *)
Definition main (m0 : SegmentManager) (draw1 draw2 draw3 : Z -> Z)
  : SegmentManager * list Line :=
  let '(m1, out1) := phase m0 "uniform"%string draw1 in
  let '(m2, out2) := phase m1 "hotspot"%string draw2 in
  let '(m3, out3) := phase m2 "sequential"%string draw3 in
  (m3, out1 ++ out2 ++ out3).

End Adv2.

(** ** Runs of the store *)

Inductive Op : Type :=
  | OpWrite (r : WriteRequest)
  | OpCollect.

Definition step (m : SegmentManager) (op : Op) : SegmentManager :=
  match op with
  | OpWrite r => fst (processWriteRequest m r)
  | OpCollect => fst (garbageCollect m)
  end.

Definition run (m : SegmentManager) (ops : list Op) : SegmentManager :=
  foldl step m ops.

(** The fields of a request are [uint64_t]s. *)
Definition request_typed (r : WriteRequest) : Prop := u64 (offset r) /\ u64 (size r).

Definition op_typed (op : Op) : Prop :=
  match op with
  | OpWrite r => request_typed r
  | OpCollect => True
  end.

(** The states the store goes through when it is initialised over the
    storage [m0] and then used. *)
Inductive reachable (m0 : SegmentManager) : SegmentManager -> Prop :=
  | reach_init : reachable m0 (initSegmentManager m0)
  | reach_step m op : op_typed op -> reachable m0 m -> reachable m0 (step m op).

(** ** Shape and invariant *)

(** What the array types of the source fix. *)
Definition seg_shape (s : Segment) : Prop :=
  Z.of_nat (length (data s)) = SEGMENT_SIZE /\ Z.of_nat (length (valid s)) = SEGMENT_SIZE.

Definition shape (m : SegmentManager) : Prop :=
  Z.of_nat (length (segments m)) = NUM_SEGMENTS /\ Forall seg_shape (segments m).

(** The number of positions whose validity flag is true. *)
Definition count_valid (a : list Z) : Z :=
  Z.of_nat (length (filter (fun v => v <> 0) a)).

(** The invariant of a segment in the specification. *)
Definition seg_inv (s : Segment) : Prop :=
  utilization s = count_valid (valid s) /\ 0 <= utilization s <= SEGMENT_SIZE.

Definition store_inv (m : SegmentManager) : Prop :=
  Forall seg_inv (segments m).

(** A pool of [NUM_SEGMENTS] segments that all satisfy [Q]. *)
Definition pool (Q : Segment -> Prop) (m : SegmentManager) : Prop :=
  Z.of_nat (length (segments m)) = NUM_SEGMENTS /\ Forall Q (segments m).

(** A segment with arrays of the declared length whose [utilization] is
    the count of its validity flags. *)
Definition seg_ok (s : Segment) : Prop := seg_shape s /\ seg_inv s.

Definition store_ok (m : SegmentManager) : Prop := pool seg_ok m.

(** The part of the invariant that does not depend on what the storage
    held before the initialisation: [utilization] counts validity flags
    that are set, though maybe not all of them. *)
Definition seg_sound (s : Segment) : Prop :=
  seg_shape s /\ 0 <= utilization s <= count_valid (valid s).

(** Every [uint64_t] field holds a value of its type. *)
Definition typed_seg (s : Segment) : Prop :=
  u64 (utilization s) /\ u64 (invalidatedBytes s).

Definition typed (m : SegmentManager) : Prop :=
  u64 (totalWrites m) /\ u64 (totalInvalidated m) /\ u64 (gcCount m) /\
  Forall typed_seg (segments m).

(** What holds in every state of the store, whatever the storage it was
    initialised over. *)
Definition well_formed (m : SegmentManager) : Prop := pool seg_sound m /\ typed m.

(** * Proofs *)

(** ** Machine arithmetic *)

Lemma wrap64_small z : 0 <= z <= UINT64_MAX -> wrap64 z = z.
Proof. unfold wrap64, UINT64_MAX. intros H. apply Z.mod_small. lia. Qed.

Lemma wrap64_range z : u64 (wrap64 z).
Proof.
  unfold u64, wrap64, UINT64_MAX.
  pose proof (Z.mod_pos_bound z (2 ^ 64) ltac:(lia)). lia.
Qed.

Lemma wrap64_add_0 z : 0 <= z <= SEGMENT_SIZE -> wrap64 (z + 0) = z.
Proof.
  intros H. rewrite Z.add_0_r. apply wrap64_small.
  unfold SEGMENT_SIZE, UINT64_MAX in *. lia.
Qed.

(** ** Loops *)

Section LoopRules.
Context {A : Type} (body : Z -> A -> A).

(** A property that every round of the body keeps holds after the loop. *)
Lemma iterate_from_invariant (P : A -> Prop) :
  (forall i a, P a -> P (body i a)) ->
  forall n i a, P a -> P (iterate_from body n i a).
Proof.
  intros Hbody n. induction n as [|n IH]; intros i a Ha; simpl; auto.
Qed.

Lemma for_upto_invariant (P : A -> Prop) lo hi :
  (forall i a, P a -> P (body i a)) ->
  forall a, P a -> P (for_upto lo hi body a).
Proof.
  intros Hbody a Ha. unfold for_upto.
  apply (iterate_from_invariant P); assumption.
Qed.

(** The same with the counter: [P i] holds before round [i]. *)
Lemma iterate_from_indexed (P : Z -> A -> Prop) :
  (forall i a, P i a -> P (i + 1) (body i a)) ->
  forall n i a, P i a -> P (i + Z.of_nat n) (iterate_from body n i a).
Proof.
  intros Hbody n. induction n as [|n IH]; intros i a Ha; simpl iterate_from.
  - replace (i + Z.of_nat 0) with i by lia. exact Ha.
  - replace (i + Z.of_nat (S n)) with (i + 1 + Z.of_nat n) by lia.
    apply IH, Hbody, Ha.
Qed.

Lemma for_upto_indexed (P : Z -> A -> Prop) lo hi :
  lo <= hi ->
  (forall i a, lo <= i < hi -> P i a -> P (i + 1) (body i a)) ->
  forall a, P lo a -> P hi (for_upto lo hi body a).
Proof.
  intros Hle Hbody a Ha. unfold for_upto.
  pose (Q := fun i x => lo <= i <= hi /\ P i x \/ hi < i).
  assert (HQ : Q (lo + Z.of_nat (Z.to_nat (hi - lo)))
                 (iterate_from body (Z.to_nat (hi - lo)) lo a)).
  { apply (iterate_from_indexed Q).
    - intros i x [[Hi Hx]|Hi]; unfold Q.
      + destruct (Z.eq_dec i hi) as [->|Hne]; [right; lia|].
        left. split; [lia|]. apply Hbody; [lia|exact Hx].
      + right. lia.
    - left. split; [lia|exact Ha]. }
  replace (lo + Z.of_nat (Z.to_nat (hi - lo))) with hi in HQ by lia.
  destruct HQ as [[_ H]|H]; [exact H|lia].
Qed.

(** A loop whose range is empty does nothing. *)
Lemma for_upto_empty lo hi a : hi <= lo -> for_upto lo hi body a = a.
Proof.
  intros H. unfold for_upto. replace (Z.to_nat (hi - lo)) with O by lia. reflexivity.
Qed.

Lemma for_upto_one i a : for_upto i (i + 1) body a = body i a.
Proof.
  unfold for_upto. replace (Z.to_nat (i + 1 - i)) with 1%nat by lia. reflexivity.
Qed.
End LoopRules.

(** ** Counting validity flags *)

Definition flag (v : Z) : Z := if v =? 0 then 0 else 1.

Lemma count_valid_nil : count_valid [] = 0.
Proof. reflexivity. Qed.

Lemma count_valid_cons v a : count_valid (v :: a) = flag v + count_valid a.
Proof.
  unfold count_valid, flag. rewrite filter_cons.
  destruct (Z.eqb_spec v 0) as [->|Hv].
  - destruct (decide (0 <> 0)); [congruence|lia].
  - destruct (decide (v <> 0)); [simpl length; lia|contradiction].
Qed.

Lemma count_valid_bounds a : 0 <= count_valid a <= Z.of_nat (length a).
Proof.
  induction a as [|v a IH]; [rewrite count_valid_nil; simpl; lia|].
  rewrite count_valid_cons. simpl length. unfold flag. destruct (v =? 0); lia.
Qed.

Lemma count_valid_insert a i old v :
  a !! i = Some old ->
  count_valid (<[i := v]> a) = count_valid a - flag old + flag v.
Proof.
  revert i. induction a as [|x a IH]; intros [|i] H; simpl in H; try discriminate.
  - injection H as ->. simpl. rewrite !count_valid_cons. lia.
  - simpl. rewrite !count_valid_cons, (IH _ H). lia.
Qed.

Lemma read_lookup a i :
  0 <= i < Z.of_nat (length a) -> a !! Z.to_nat i = Some (read a i).
Proof.
  intros H. unfold read.
  destruct (a !! Z.to_nat i) eqn:E; [reflexivity|].
  apply lookup_ge_None in E. lia.
Qed.

Lemma count_valid_write a i v :
  0 <= i < Z.of_nat (length a) ->
  count_valid (write a i v) = count_valid a - flag (read a i) + flag v.
Proof. intros H. apply count_valid_insert, read_lookup, H. Qed.

Lemma length_write a i v : length (write a i v) = length a.
Proof. apply length_insert. Qed.

Lemma read_write_same a i v :
  0 <= i < Z.of_nat (length a) -> read (write a i v) i = v.
Proof.
  intros H. unfold read, write. rewrite list_lookup_insert_eq by lia. reflexivity.
Qed.

Lemma read_write_other a i j v :
  0 <= i -> 0 <= j -> i <> j -> read (write a i v) j = read a j.
Proof.
  intros Hi Hj Hne. unfold read, write. rewrite list_lookup_insert_ne by lia. reflexivity.
Qed.

Lemma count_valid_zero a :
  (forall i, 0 <= i < Z.of_nat (length a) -> read a i = 0) -> count_valid a = 0.
Proof.
  induction a as [|v a IH]; intros H; [reflexivity|].
  rewrite count_valid_cons.
  assert (Hv : v = 0) by (apply (H 0); simpl length; lia).
  rewrite IH.
  - subst v. reflexivity.
  - intros i Hi. specialize (H (i + 1)). unfold read in *.
    replace (Z.to_nat (i + 1)) with (S (Z.to_nat i)) in H by lia.
    apply H. simpl length. lia.
Qed.

(** ** The segment invariant under the byte operations *)

Lemma store_ok_iff m : store_ok m <-> shape m /\ store_inv m.
Proof.
  unfold store_ok, pool, shape, store_inv, seg_ok. rewrite Forall_and. tauto.
Qed.

Lemma seg_inv_of_count s :
  seg_shape s -> utilization s = count_valid (valid s) -> seg_inv s.
Proof.
  intros [_ Hlen] Hu. split; [exact Hu|].
  pose proof (count_valid_bounds (valid s)). lia.
Qed.

Lemma flag_valid s i : flag (read (valid s) i) = if is_valid s i then 1 else 0.
Proof. unfold flag, is_valid. destruct (read (valid s) i =? 0); reflexivity. Qed.

Lemma index_in_segment (a : list Z) i :
  Z.of_nat (length a) = SEGMENT_SIZE -> i < SEGMENT_SIZE ->
  (Z.to_nat i < length a)%nat.
Proof. unfold SEGMENT_SIZE. lia. Qed.

Lemma count_valid_write_nat a i v :
  (Z.to_nat i < length a)%nat ->
  count_valid (write a i v) = count_valid a - flag (read a i) + flag v.
Proof.
  intros H. unfold write, read.
  destruct (a !! Z.to_nat i) as [old|] eqn:E.
  - apply count_valid_insert, E.
  - apply lookup_ge_None in E. lia.
Qed.

Lemma invalidate_byte_ok i s total :
  seg_ok s -> seg_ok (fst (invalidate_byte i (s, total))).
Proof.
  intros H. pose proof H as [[Hd Hv] [Hu Hr]]. unfold invalidate_byte.
  destruct (i <? SEGMENT_SIZE) eqn:Hi; simpl andb; [|exact H].
  destruct (is_valid s i) eqn:Hval; [|exact H].
  apply Z.ltb_lt in Hi.
  pose proof (index_in_segment _ _ Hv Hi) as Hidx.
  assert (Hc : count_valid (write (valid s) i 0) = count_valid (valid s) - 1).
  { rewrite count_valid_write_nat by exact Hidx.
    rewrite flag_valid, Hval. change (flag 0) with 0. lia. }
  pose proof (count_valid_bounds (write (valid s) i 0)) as Hb.
  assert (Hsh : seg_shape (mkSegment (segmentId s) (wrap64 (utilization s - 1)) (data s)
                                     (write (valid s) i 0)
                                     (wrap64 (invalidatedBytes s + 1)))).
  { split; cbn [data valid]; [exact Hd|rewrite length_write; exact Hv]. }
  cbn [fst]. split; [exact Hsh|].
  apply seg_inv_of_count; [exact Hsh|]. cbn [utilization valid].
  rewrite Hc, <- Hu. apply wrap64_small. unfold UINT64_MAX, SEGMENT_SIZE in *. lia.
Qed.

Lemma write_byte_ok i s : seg_ok s -> seg_ok (write_byte i s).
Proof.
  intros H. pose proof H as [[Hd Hv] [Hu Hr]]. unfold write_byte.
  destruct (i <? SEGMENT_SIZE) eqn:Hi; [|exact H].
  apply Z.ltb_lt in Hi.
  pose proof (index_in_segment _ _ Hv Hi) as Hidx.
  change (is_valid (set_data s (write (data s) i 1)) i) with (is_valid s i).
  destruct (is_valid s i) eqn:Hval; simpl negb; cbv iota.
  - split; [split; cbn [data valid set_data]; [rewrite length_write; exact Hd|exact Hv]|].
    split; cbn [utilization valid set_data]; [exact Hu|exact Hr].
  - assert (Hc : count_valid (write (valid s) i 1) = count_valid (valid s) + 1).
    { rewrite count_valid_write_nat by exact Hidx.
      rewrite flag_valid, Hval. change (flag 1) with 1. lia. }
    pose proof (count_valid_bounds (write (valid s) i 1)) as Hb.
    rewrite length_write in Hb.
    assert (Hsh : seg_shape (set_utilization
                    (set_valid (set_data s (write (data s) i 1))
                               (write (valid s) i 1))
                    (wrap64 (utilization s + 1)))).
    { split; cbn [data valid set_data set_valid set_utilization];
        rewrite length_write; assumption. }
    split; [exact Hsh|].
    apply seg_inv_of_count; [exact Hsh|].
    cbn [utilization valid set_data set_valid set_utilization].
    rewrite Hc, <- Hu. apply wrap64_small. unfold UINT64_MAX, SEGMENT_SIZE in *. lia.
Qed.

Lemma invalidate_loop_ok off sz s total :
  seg_ok s -> seg_ok (fst (invalidate_loop off sz (s, total))).
Proof.
  intros H. unfold invalidate_loop.
  apply (for_upto_invariant invalidate_byte (fun st => seg_ok (fst st))); [|exact H].
  intros i [s' t'] Hs'. apply invalidate_byte_ok, Hs'.
Qed.

Lemma write_loop_ok off sz s : seg_ok s -> seg_ok (write_loop off sz s).
Proof.
  intros H. unfold write_loop.
  apply (for_upto_invariant write_byte seg_ok); [|exact H].
  intros i s' Hs'. apply write_byte_ok, Hs'.
Qed.

(** ** The store invariant under the operations on a target segment *)

Lemma invalidateOldData_segments m k off sz :
  segments (invalidateOldData m k off sz) =
  alter (fun s => fst (invalidate_loop off sz (s, totalInvalidated m))) k (segments m).
Proof.
  unfold invalidateOldData.
  destruct (segments m !! k) as [s|] eqn:E.
  - destruct (invalidate_loop off sz (s, totalInvalidated m)) as [s' t'] eqn:El.
    simpl. rewrite list_insert_alter.
    apply list_eq. intros j. destruct (decide (k = j)) as [->|Hne].
    + rewrite !list_lookup_alter_eq, E. simpl. rewrite El. reflexivity.
    + rewrite !list_lookup_alter_ne by exact Hne. reflexivity.
  - symmetry. apply list_eq. intros j. destruct (decide (k = j)) as [->|Hne].
    + rewrite list_lookup_alter_eq, E. reflexivity.
    + rewrite list_lookup_alter_ne by exact Hne. reflexivity.
Qed.

Lemma pool_alter Q m k f :
  (forall s, Q s -> Q (f s)) ->
  pool Q m -> pool Q (update_segment k f m).
Proof.
  intros Hf [Hlen Hall]. split; simpl.
  - rewrite length_alter. exact Hlen.
  - apply Forall_alter; [exact Hall|]. intros s _. apply Hf.
Qed.

Lemma pool_segments Q m m' :
  segments m' = segments m -> pool Q m -> pool Q m'.
Proof. unfold pool. intros ->. tauto. Qed.

Lemma pool_lookup Q m k s : pool Q m -> segments m !! k = Some s -> Q s.
Proof. intros [_ Hall] Hs. apply (Forall_lookup_1 _ _ _ _ Hall Hs). Qed.

Lemma pool_weaken (Q Q' : Segment -> Prop) m :
  (forall s, Q s -> Q' s) -> pool Q m -> pool Q' m.
Proof.
  intros H [Hlen Hall]. split; [exact Hlen|]. eapply Forall_impl; eauto.
Qed.

Lemma store_ok_alter m k f :
  (forall s, seg_ok s -> seg_ok (f s)) ->
  store_ok m -> store_ok (update_segment k f m).
Proof. apply pool_alter. Qed.

Lemma store_ok_segments m m' :
  segments m' = segments m -> store_ok m -> store_ok m'.
Proof. apply pool_segments. Qed.

Lemma invalidateOldData_ok m k off sz :
  store_ok m -> store_ok (invalidateOldData m k off sz).
Proof.
  intros H.
  apply (store_ok_segments
           (update_segment k (fun s => fst (invalidate_loop off sz (s, totalInvalidated m))) m)).
  - rewrite invalidateOldData_segments. reflexivity.
  - apply store_ok_alter; [|exact H]. intros s. apply invalidate_loop_ok.
Qed.

Lemma writeToSegment_ok m k off sz :
  store_ok m -> store_ok (writeToSegment m k off sz).
Proof. apply store_ok_alter. intros s. apply write_loop_ok. Qed.

Lemma commit_write_ok m k r : store_ok m -> store_ok (commit_write m k r).
Proof.
  intros H. unfold commit_write.
  eapply store_ok_segments; [|apply writeToSegment_ok, invalidateOldData_ok, H].
  reflexivity.
Qed.

(** ** [memset] *)

Lemma length_zero_prefix n a : length (zero_prefix n a) = length a.
Proof.
  revert a. induction n as [|n IH]; intros [|x a]; simpl; auto.
Qed.

Lemma lookup_zero_prefix n a j :
  zero_prefix n a !! j = if decide (j < n)%nat then (fun _ => 0) <$> (a !! j) else a !! j.
Proof.
  revert a j. induction n as [|n IH]; intros [|x a] [|j]; cbn [zero_prefix];
    try (destruct (decide _); try lia; reflexivity).
  change ((x :: a) !! S j) with (a !! j).
  change ((0 :: zero_prefix n a) !! S j) with (zero_prefix n a !! j).
  rewrite IH. destruct (decide (j < n)%nat), (decide (S j < S n)%nat); try lia; reflexivity.
Qed.

Lemma read_zero_prefix n a j :
  0 <= j -> read (zero_prefix n a) j = if j <? Z.of_nat n then 0 else read a j.
Proof.
  intros Hj. unfold read. rewrite lookup_zero_prefix.
  destruct (Z.ltb_spec j (Z.of_nat n)), (decide (Z.to_nat j < n)%nat); try lia;
    destruct (a !! Z.to_nat j); reflexivity.
Qed.

Lemma length_memset0 width a n : length (memset0 width a n) = length a.
Proof. apply length_zero_prefix. Qed.

(** ** The store invariant under the collector *)

Lemma seg_shape_write_byte i s : seg_shape s -> seg_shape (write_byte i s).
Proof.
  intros [Hd Hv]. unfold write_byte.
  destruct (i <? SEGMENT_SIZE); [|split; assumption].
  destruct (negb _); split;
    cbn [data valid set_data set_valid set_utilization];
    rewrite ?length_write; assumption.
Qed.

Lemma valid_write_byte i s :
  valid (write_byte i s) =
  if (i <? SEGMENT_SIZE) && negb (is_valid s i) then write (valid s) i 1 else valid s.
Proof.
  unfold write_byte. destruct (i <? SEGMENT_SIZE); [|reflexivity].
  change (is_valid (set_data s (write (data s) i 1)) i) with (is_valid s i).
  destruct (is_valid s i); reflexivity.
Qed.

Lemma read_valid_write_byte_other i j s :
  0 <= i -> 0 <= j -> i <> j ->
  read (valid (write_byte i s)) j = read (valid s) j.
Proof.
  intros Hi Hj Hne. rewrite valid_write_byte.
  destruct (_ && _); [apply read_write_other; assumption|reflexivity].
Qed.

(** The call [writeToSegment(newSegment, i, 1, manager)] of the copy loop
    runs the body once. *)
Lemma write_loop_one i s :
  0 <= i < SEGMENT_SIZE -> write_loop i 1 s = write_byte i s.
Proof.
  intros Hi. unfold write_loop. rewrite wrap64_small.
  - apply for_upto_one.
  - unfold SEGMENT_SIZE, UINT64_MAX in *. lia.
Qed.

Lemma seg_shape_clear_valid i s : seg_shape s -> seg_shape (clear_valid i s).
Proof.
  intros [Hd Hv]. split; cbn [data valid clear_valid set_valid];
    rewrite ?length_write; assumption.
Qed.

Lemma reset_victim_shape s : seg_shape s -> seg_shape (reset_victim s).
Proof.
  intros [Hd Hv]. split; cbn [data valid reset_victim]; [rewrite length_memset0|]; assumption.
Qed.

Lemma reset_victim_ok s :
  seg_shape s -> (forall j, 0 <= j < SEGMENT_SIZE -> read (valid s) j = 0) ->
  seg_ok (reset_victim s).
Proof.
  intros Hsh Hz. pose proof (reset_victim_shape s Hsh) as Hsh'.
  split; [exact Hsh'|]. apply seg_inv_of_count; [exact Hsh'|].
  cbn [utilization valid reset_victim]. symmetry. apply count_valid_zero.
  intros j Hj. apply Hz. destruct Hsh as [_ Hv]. lia.
Qed.

Lemma write_byte_sound i s : seg_sound s -> seg_sound (write_byte i s).
Proof.
  intros [Hsh Hu]. split; [apply seg_shape_write_byte, Hsh|].
  destruct Hsh as [Hd Hv]. unfold write_byte.
  destruct (i <? SEGMENT_SIZE) eqn:Hi; [|exact Hu].
  apply Z.ltb_lt in Hi. pose proof (index_in_segment _ _ Hv Hi) as Hidx.
  change (is_valid (set_data s (write (data s) i 1)) i) with (is_valid s i).
  destruct (is_valid s i) eqn:Hval; cbn [negb]; [exact Hu|].
  cbn [utilization valid set_data set_valid set_utilization].
  rewrite count_valid_write_nat by exact Hidx. rewrite flag_valid, Hval.
  change (flag 1) with 1.
  pose proof (count_valid_bounds (valid s)).
  rewrite wrap64_small by (unfold UINT64_MAX, SEGMENT_SIZE in *; lia). lia.
Qed.

Lemma reset_victim_sound s :
  seg_shape s -> (forall j, 0 <= j < SEGMENT_SIZE -> read (valid s) j = 0) ->
  seg_sound (reset_victim s).
Proof.
  intros Hsh Hz. split; [apply reset_victim_shape, Hsh|].
  cbn [utilization valid reset_victim]. pose proof (count_valid_bounds (valid s)). lia.
Qed.

Lemma segments_account_cost m : segments (account_cost m) = segments m.
Proof. unfold account_cost. destruct (gc_cost m); reflexivity. Qed.

(** The collector keeps every invariant of the segments that the writer
    keeps and that a reset segment satisfies. *)
Section Collector.
Variable Q : Segment -> Prop.
Hypothesis Q_shape : forall s, Q s -> seg_shape s.
Hypothesis Q_write_byte : forall i s, Q s -> Q (write_byte i s).
Hypothesis Q_reset :
  forall s, seg_shape s -> (forall j, 0 <= j < SEGMENT_SIZE -> read (valid s) j = 0) ->
            Q (reset_victim s).

(** What holds before round [i] of the copy loop: every segment but the
    victim satisfies the invariant, and the victim's flags below [i] are
    cleared. *)
Definition gc_loop_inv (v : nat) (i : Z) (m : SegmentManager) : Prop :=
  Z.of_nat (length (segments m)) = NUM_SEGMENTS /\
  forall k s, segments m !! k = Some s ->
    seg_shape s /\
    (k <> v -> Q s) /\
    (k = v -> forall j, 0 <= j < i -> read (valid s) j = 0).

Lemma gc_loop_inv_start v m : pool Q m -> gc_loop_inv v 0 m.
Proof.
  intros [Hlen Hall]. split; [exact Hlen|]. intros k s Hs.
  pose proof (Forall_lookup_1 _ _ _ _ Hall Hs) as HQ.
  split; [apply Q_shape, HQ|]. split; [intros _; exact HQ|]. intros _ j Hj. lia.
Qed.

Lemma gc_copy_byte_inv v d i m :
  0 <= i < SEGMENT_SIZE ->
  gc_loop_inv v i m -> gc_loop_inv v (i + 1) (gc_copy_byte v d i m).
Proof.
  intros Hi [Hlen Hall]. unfold gc_copy_byte.
  destruct (segments m !! v) as [victim|] eqn:Ev.
  2:{ split; [exact Hlen|]. intros k s Hs.
      destruct (Hall k s Hs) as (Hsh & Hinv & _).
      split; [exact Hsh|]. split; [exact Hinv|]. intros -> j _. congruence. }
  destruct (is_valid victim i) eqn:Hval.
  2:{ split; [exact Hlen|]. intros k s Hs.
      destruct (Hall k s Hs) as (Hsh & Hinv & Hz).
      split; [exact Hsh|]. split; [exact Hinv|]. intros -> j Hj.
      destruct (Z.eq_dec j i) as [->|Hne]; [|apply Hz; [reflexivity|lia]].
      rewrite Ev in Hs. injection Hs as <-.
      unfold is_valid in Hval. apply negb_false_iff, Z.eqb_eq in Hval. exact Hval. }
  split.
  { cbn [segments update_segment writeToSegment set_segments].
    rewrite !length_alter. exact Hlen. }
  intros k s Hs.
  cbn [segments update_segment writeToSegment set_segments] in Hs.
  destruct (decide (k = v)) as [->|Hkv].
  - rewrite list_lookup_alter_eq in Hs.
    destruct (alter (write_loop i 1) d (segments m) !! v) as [s1|] eqn:E1;
      [|discriminate]. injection Hs as <-.
    assert (H1 : seg_shape s1 /\
                 forall j, 0 <= j < i -> read (valid s1) j = 0).
    { destruct (decide (d = v)) as [->|Hdv].
      - rewrite list_lookup_alter_eq, Ev in E1. injection E1 as <-.
        destruct (Hall v victim Ev) as (Hsh & _ & Hz).
        rewrite write_loop_one by exact Hi. split.
        + apply seg_shape_write_byte, Hsh.
        + intros j Hj. rewrite read_valid_write_byte_other by lia.
          apply Hz; [reflexivity|exact Hj].
      - rewrite list_lookup_alter_ne in E1 by exact Hdv.
        destruct (Hall v s1 E1) as (Hsh & _ & Hz).
        split; [exact Hsh|]. intros j Hj. apply Hz; [reflexivity|exact Hj]. }
    destruct H1 as [Hsh Hz].
    split; [apply seg_shape_clear_valid, Hsh|]. split; [congruence|].
    intros _ j Hj. cbn [valid clear_valid set_valid].
    destruct Hsh as [_ Hv].
    destruct (Z.eq_dec j i) as [->|Hne].
    + apply read_write_same. lia.
    + rewrite read_write_other by lia. apply Hz. lia.
  - rewrite list_lookup_alter_ne in Hs by congruence.
    assert (HQ : Q s).
    { destruct (decide (d = k)) as [->|Hdk].
      - rewrite list_lookup_alter_eq in Hs.
        destruct (segments m !! k) as [s0|] eqn:E0; [|discriminate].
        injection Hs as <-. destruct (Hall k s0 E0) as (_ & Hinv & _).
        rewrite write_loop_one by exact Hi. apply Q_write_byte, Hinv, Hkv.
      - rewrite list_lookup_alter_ne in Hs by exact Hdk.
        apply (Hall k s Hs), Hkv. }
    split; [apply Q_shape, HQ|]. split; [intros _; exact HQ|congruence].
Qed.

Lemma gc_loop_inv_end v d m :
  pool Q m ->
  gc_loop_inv v SEGMENT_SIZE (for_upto 0 SEGMENT_SIZE (gc_copy_byte v d) m).
Proof.
  intros H.
  apply (for_upto_indexed (gc_copy_byte v d) (gc_loop_inv v)).
  - unfold SEGMENT_SIZE. lia.
  - intros i a Hi. apply gc_copy_byte_inv, Hi.
  - apply gc_loop_inv_start, H.
Qed.

(** The compaction of the victim [v] into the destination [d], whether
    they are the same segment or not. *)
Lemma compact_pool v d m : pool Q m -> pool Q (compact v d m).
Proof.
  intros H. destruct (gc_loop_inv_end v d m H) as [Hlen Hall].
  unfold compact. split; cbn [segments update_segment set_segments].
  - rewrite length_alter. exact Hlen.
  - apply Forall_lookup_2. intros k s Hs.
    destruct (decide (v = k)) as [->|Hne].
    + rewrite list_lookup_alter_eq in Hs.
      destruct (_ !! k) as [s0|] eqn:E0; [|discriminate]. injection Hs as <-.
      destruct (Hall k s0 E0) as (Hsh & _ & Hz).
      apply Q_reset; [exact Hsh|]. intros j Hj. apply Hz; [reflexivity|exact Hj].
    + rewrite list_lookup_alter_ne in Hs by exact Hne.
      destruct (Hall k s Hs) as (_ & Hinv & _). apply Hinv. congruence.
Qed.

(** The victim is left as a segment just initialised. *)
Lemma compact_resets_victim v d m s :
  pool Q m -> segments m !! v = Some s ->
  exists s', segments (compact v d m) !! v = Some s' /\
    utilization s' = 0 /\ invalidatedBytes s' = 0 /\ count_valid (valid s') = 0.
Proof.
  intros Hok Hs. destruct (gc_loop_inv_end v d m Hok) as [Hlen1 Hall].
  assert (Hlt : (v < length (segments (for_upto 0 SEGMENT_SIZE (gc_copy_byte v d) m)))%nat).
  { apply lookup_lt_Some in Hs. destruct Hok as [Hl _]. lia. }
  apply lookup_lt_is_Some_2 in Hlt as [s1 Hs1].
  exists (reset_victim s1). split.
  - unfold compact. cbn [segments update_segment set_segments].
    rewrite list_lookup_alter_eq, Hs1. reflexivity.
  - split; [reflexivity|]. split; [reflexivity|]. cbn [valid reset_victim].
    destruct (Hall v s1 Hs1) as ([_ Hv] & _ & Hz).
    apply count_valid_zero. intros j Hj. apply Hz; [reflexivity|lia].
Qed.

Lemma garbageCollect_pool m : pool Q m -> pool Q (fst (garbageCollect m)).
Proof.
  intros H. unfold garbageCollect.
  destruct (select_victim m) as [v|]; [|exact H].
  destruct (findSegmentForWrite m 0) as [d|]; [|exact H].
  cbn [fst]. eapply pool_segments; [apply segments_account_cost|].
  apply compact_pool, H.
Qed.
End Collector.

Lemma seg_ok_shape s : seg_ok s -> seg_shape s.
Proof. intros [H _]. exact H. Qed.

Lemma seg_sound_shape s : seg_sound s -> seg_shape s.
Proof. intros [H _]. exact H. Qed.

Lemma seg_ok_sound s : seg_ok s -> seg_sound s.
Proof. intros [Hsh [Hu Hr]]. split; [exact Hsh|]. lia. Qed.

Lemma compact_ok v d m : store_ok m -> store_ok (compact v d m).
Proof. apply (compact_pool seg_ok seg_ok_shape write_byte_ok reset_victim_ok). Qed.

Lemma garbageCollect_ok m : store_ok m -> store_ok (fst (garbageCollect m)).
Proof. apply (garbageCollect_pool seg_ok seg_ok_shape write_byte_ok reset_victim_ok). Qed.

Lemma compact_sound v d m : pool seg_sound m -> pool seg_sound (compact v d m).
Proof.
  apply (compact_pool seg_sound seg_sound_shape write_byte_sound reset_victim_sound).
Qed.

Lemma garbageCollect_sound m :
  pool seg_sound m -> pool seg_sound (fst (garbageCollect m)).
Proof.
  apply (garbageCollect_pool seg_sound seg_sound_shape write_byte_sound reset_victim_sound).
Qed.

(** The copy loop over a store whose segments are sound. *)
Lemma copy_loop_sound v d m :
  pool seg_sound m ->
  gc_loop_inv seg_sound v SEGMENT_SIZE (for_upto 0 SEGMENT_SIZE (gc_copy_byte v d) m).
Proof. apply (gc_loop_inv_end seg_sound seg_sound_shape write_byte_sound). Qed.

Lemma victim_is_reset v d m s :
  pool seg_sound m -> segments m !! v = Some s ->
  exists s', segments (compact v d m) !! v = Some s' /\
    utilization s' = 0 /\ invalidatedBytes s' = 0 /\ count_valid (valid s') = 0.
Proof. apply (compact_resets_victim seg_sound seg_sound_shape write_byte_sound). Qed.

Lemma processWriteRequest_ok m r :
  store_ok m -> store_ok (fst (processWriteRequest m r)).
Proof.
  intros H. unfold processWriteRequest.
  destruct (findSegmentForWrite m (size r)) as [k|]; [apply commit_write_ok, H|].
  pose proof (garbageCollect_ok m H) as Hgc.
  destruct (garbageCollect m) as [m1 g]. cbn [fst] in Hgc.
  destruct (findSegmentForWrite m1 (size r)) as [k|]; [apply commit_write_ok, Hgc|exact Hgc].
Qed.

Lemma step_ok m op : store_ok m -> store_ok (step m op).
Proof.
  destruct op as [r|]; [apply processWriteRequest_ok|apply garbageCollect_ok].
Qed.

(** ** Initialisation *)

(** Storage over which [initSegmentManager] yields the initial state: the
    validity flags its [memset] does not reach are already clear. *)
Definition no_stale_flags (s : Segment) : Prop :=
  forall j, SEGMENT_SIZE / SIZEOF_INT <= j < SEGMENT_SIZE -> read (valid s) j = 0.

Definition clean_storage (m0 : SegmentManager) : Prop :=
  shape m0 /\ Forall no_stale_flags (segments m0).

Lemma init_segment_ok i s :
  seg_shape s -> no_stale_flags s -> seg_ok (init_segment i s).
Proof.
  intros [Hd Hv] Hz.
  assert (Hsh : seg_shape (init_segment i s)).
  { split; cbn [data valid init_segment]; rewrite length_memset0; assumption. }
  split; [exact Hsh|]. apply seg_inv_of_count; [exact Hsh|].
  cbn [utilization valid init_segment]. symmetry. apply count_valid_zero.
  intros j Hj. rewrite length_memset0 in Hj. unfold memset0.
  rewrite read_zero_prefix by lia.
  destruct (Z.ltb_spec j (Z.of_nat (Z.to_nat (SEGMENT_SIZE / SIZEOF_INT)))) as [_|Hge];
    [reflexivity|].
  apply Hz. unfold SEGMENT_SIZE, SIZEOF_INT in *.
  change (1024 / 4) with 256 in *. lia.
Qed.

Lemma init_segments_ok l : forall i,
  Forall seg_shape l -> Forall no_stale_flags l ->
  length (init_segments i l) = length l /\ Forall seg_ok (init_segments i l).
Proof.
  induction l as [|s l IH]; intros i Hsh Hz; simpl; [split; [reflexivity|constructor]|].
  inversion Hsh as [|? ? Hs Hl]; subst. inversion Hz as [|? ? Hzs Hzl]; subst.
  destruct (IH (i + 1) Hl Hzl) as [Hlen Hall].
  split; [congruence|]. constructor; [apply init_segment_ok; assumption|exact Hall].
Qed.

Lemma initSegmentManager_ok m0 :
  clean_storage m0 -> store_ok (initSegmentManager m0).
Proof.
  intros [[Hlen Hsh] Hz].
  destruct (init_segments_ok (segments m0) 0 Hsh Hz) as [Hl Hall].
  split; cbn [segments initSegmentManager]; [rewrite Hl; exact Hlen|exact Hall].
Qed.

(** Every state of a store that was initialised over clean storage
    satisfies the invariant, whatever is written and collected. *)
Lemma reachable_ok m0 m : clean_storage m0 -> reachable m0 m -> store_ok m.
Proof.
  intros Hc Hr. induction Hr as [|m op _ _ IH].
  - apply initSegmentManager_ok, Hc.
  - apply step_ok, IH.
Qed.

Lemma zero_memory_clean : clean_storage zero_memory.
Proof.
  split; [split|].
  - reflexivity.
  - apply Forall_replicate. split; reflexivity.
  - apply Forall_replicate. intros j Hj. unfold read, zero_segment. cbn [valid].
    destruct (replicate _ 0 !! Z.to_nat j) as [x|] eqn:E; [|reflexivity].
    apply lookup_replicate_1 in E as [-> _]. reflexivity.
Qed.

(** ** What the two byte loops do to a segment *)

Lemma wrap64_idem z : wrap64 (wrap64 z) = wrap64 z.
Proof. unfold wrap64. apply Z.mod_mod. lia. Qed.

Lemma wrap64_add_l a b : wrap64 (wrap64 a + b) = wrap64 (a + b).
Proof. unfold wrap64. apply Zplus_mod_idemp_l. Qed.

Lemma wrap64_sub_l a b : wrap64 (wrap64 a - b) = wrap64 (a - b).
Proof. unfold wrap64. apply Zminus_mod_idemp_l. Qed.

Lemma u64_wrap64 z : u64 z -> wrap64 z = z.
Proof. apply wrap64_small. Qed.

Lemma count_valid_app a b : count_valid (a ++ b) = count_valid a + count_valid b.
Proof.
  induction a as [|x a IH]; simpl app.
  - rewrite count_valid_nil. lia.
  - rewrite !count_valid_cons, IH. lia.
Qed.

Lemma count_valid_replicate n v :
  count_valid (replicate n v) = flag v * Z.of_nat n.
Proof.
  induction n as [|n IH]; [change (replicate 0 v) with (@nil Z); rewrite count_valid_nil; lia|].
  rewrite replicate_S, count_valid_cons, IH. lia.
Qed.

(** The elements [a[lo]], ..., [a[lo + n - 1]] that the array has. *)
Definition window (a : list Z) (lo : Z) (n : nat) : list Z :=
  take n (drop (Z.to_nat lo) a).

(** The array [a] with these elements replaced by [b]. *)
Definition splice (a : list Z) (lo : Z) (b : list Z) : list Z :=
  take (Z.to_nat lo) a ++ b ++ drop (Z.to_nat lo + length b) a.

Lemma window_0 a lo : window a lo 0 = [].
Proof. reflexivity. Qed.

Lemma splice_nil a lo : splice a lo [] = a.
Proof. unfold splice. simpl. rewrite Nat.add_0_r. apply take_drop. Qed.

Lemma window_out a lo n :
  0 <= lo -> Z.of_nat (length a) <= lo -> window a lo n = [].
Proof.
  intros H0 H. unfold window. rewrite drop_ge by lia. apply take_nil.
Qed.

Lemma window_in a lo n :
  0 <= lo < Z.of_nat (length a) ->
  window a lo (S n) = read a lo :: window a (lo + 1) n.
Proof.
  intros H. unfold window.
  rewrite (drop_S a (read a lo) (Z.to_nat lo)) by (apply read_lookup, H).
  replace (Z.to_nat (lo + 1)) with (S (Z.to_nat lo)) by lia. reflexivity.
Qed.

Lemma window_write a lo v n :
  0 <= lo -> window (write a lo v) (lo + 1) n = window a (lo + 1) n.
Proof.
  intros H. unfold window, write. rewrite drop_insert_lt by lia. reflexivity.
Qed.

Lemma length_window a lo n :
  0 <= lo -> Z.of_nat (length (window a lo n)) = Z.max 0 (Z.min (Z.of_nat n) (Z.of_nat (length a) - lo)).
Proof.
  intros H. unfold window. rewrite length_take, length_drop. lia.
Qed.

Lemma splice_in a lo x b :
  0 <= lo < Z.of_nat (length a) ->
  splice a lo (x :: b) = splice (write a lo x) (lo + 1) b.
Proof.
  intros H. unfold splice, write.
  replace (Z.to_nat (lo + 1)) with (S (Z.to_nat lo)) by lia.
  rewrite (take_S_r (<[Z.to_nat lo := x]> a) (Z.to_nat lo) x)
    by (apply list_lookup_insert_eq; lia).
  rewrite take_insert_ge by lia. rewrite drop_insert_lt by lia.
  rewrite <- app_assoc. simpl. repeat f_equal. lia.
Qed.

Lemma write_same a lo :
  0 <= lo < Z.of_nat (length a) -> write a lo (read a lo) = a.
Proof. intros H. unfold write. apply list_insert_id, read_lookup, H. Qed.

(** [invalidateOldData]: the flags of the window are cleared, and the three
    counters move by the number of flags that were set. *)
Definition invalidated (s : Segment) (lo : Z) (n : nat) : Segment :=
  let w := window (valid s) lo n in
  mkSegment (segmentId s)
            (wrap64 (utilization s - count_valid w))
            (data s)
            (splice (valid s) lo (replicate (length w) 0))
            (wrap64 (invalidatedBytes s + count_valid w)).

Lemma iterate_invalidate n : forall i s t,
  0 <= i -> Z.of_nat (length (valid s)) = SEGMENT_SIZE ->
  u64 (utilization s) -> u64 (invalidatedBytes s) -> u64 t ->
  iterate_from invalidate_byte n i (s, t) =
  (invalidated s i n, wrap64 (t + count_valid (window (valid s) i n))).
Proof.
  induction n as [|n IH]; intros i s t Hi Hlen Hu Hinv Ht.
  - unfold invalidated. cbv zeta. rewrite !window_0, !count_valid_nil. cbn [length replicate].
    rewrite splice_nil, Z.sub_0_r, !Z.add_0_r, !u64_wrap64 by assumption.
    destruct s; reflexivity.
  - cbn [iterate_from]. unfold invalidate_byte at 2.
    destruct (Z.ltb_spec i SEGMENT_SIZE) as [Hlt|Hge]; cbn [andb].
    + assert (Hin : 0 <= i < Z.of_nat (length (valid s))) by lia.
      unfold is_valid. destruct (Z.eqb_spec (read (valid s) i) 0) as [Hz|Hnz]; cbn [negb].
      * rewrite IH by (assumption || lia). unfold invalidated. cbv zeta.
        rewrite !(window_in _ _ _ Hin), Hz, count_valid_cons.
        change (flag 0) with 0. rewrite Z.add_0_l. cbn [length replicate].
        rewrite (splice_in _ _ _ _ Hin), <- Hz, write_same by exact Hin.
        reflexivity.
      * rewrite IH; cbn [valid utilization invalidatedBytes segmentId data];
          try assumption; try apply wrap64_range; try lia;
          [|rewrite length_write; exact Hlen].
        unfold invalidated. cbv zeta.
        cbn [valid utilization invalidatedBytes segmentId data].
        rewrite !(window_in _ _ _ Hin), !count_valid_cons, !window_write by lia.
        assert (Hf : flag (read (valid s) i) = 1).
        { unfold flag. destruct (Z.eqb_spec (read (valid s) i) 0); [contradiction|reflexivity]. }
        rewrite Hf. cbn [length replicate].
        rewrite (splice_in _ _ _ _ Hin).
        rewrite wrap64_sub_l, !wrap64_add_l.
        rewrite <- Z.sub_add_distr, <- !Z.add_assoc. reflexivity.
    + rewrite IH by (assumption || lia). unfold invalidated. cbv zeta.
      rewrite !(window_out (valid s)) by lia. cbn [length replicate].
      rewrite !splice_nil. reflexivity.
Qed.

(** [writeToSegment]: the bytes of the window are written, its flags are
    set, and [utilization] grows by the number of flags that were clear. *)
Definition mark (v : Z) : Z := if v =? 0 then 1 else v.

Definition written (s : Segment) (lo : Z) (n : nat) : Segment :=
  let w := window (valid s) lo n in
  mkSegment (segmentId s)
            (wrap64 (utilization s + (Z.of_nat (length w) - count_valid w)))
            (splice (data s) lo (replicate (length (window (data s) lo n)) 1))
            (splice (valid s) lo (mark <$> w))
            (invalidatedBytes s).

Lemma iterate_write n : forall i s,
  0 <= i -> seg_shape s -> u64 (utilization s) ->
  iterate_from write_byte n i s = written s i n.
Proof.
  induction n as [|n IH]; intros i s Hi [Hd Hv] Hu.
  - unfold written. cbv zeta. rewrite !window_0. cbn [length replicate fmap list_fmap].
    rewrite count_valid_nil, !splice_nil. change (Z.of_nat 0 - 0) with 0.
    rewrite Z.add_0_r, u64_wrap64 by assumption. destruct s; reflexivity.
  - cbn [iterate_from]. unfold write_byte at 2.
    destruct (Z.ltb_spec i SEGMENT_SIZE) as [Hlt|Hge].
    + assert (Hin : 0 <= i < Z.of_nat (length (valid s))) by lia.
      assert (Hind : 0 <= i < Z.of_nat (length (data s))) by lia.
      change (is_valid (set_data s (write (data s) i 1)) i) with (is_valid s i).
      unfold is_valid.
      destruct (Z.eqb_spec (read (valid s) i) 0) as [Hz|Hnz]; cbn [negb].
      * rewrite IH;
          cbn [valid utilization data set_data set_valid set_utilization];
          [|lia|split; cbn [valid data set_data set_valid set_utilization];
                rewrite length_write; assumption
           |apply wrap64_range].
        unfold written. cbv zeta.
        cbn [valid utilization invalidatedBytes segmentId data
             set_data set_valid set_utilization].
        rewrite !(window_in _ _ _ Hin), !(window_in _ _ _ Hind), !window_write by lia.
        rewrite count_valid_cons, Hz. change (flag 0) with 0.
        cbn [length replicate fmap list_fmap]. change (mark 0) with 1.
        rewrite (splice_in _ _ _ _ Hin), (splice_in _ _ _ _ Hind).
        rewrite wrap64_add_l.
        f_equal. f_equal. lia.
      * rewrite IH; cbn [valid utilization data set_data];
          [|lia|split; cbn [valid data set_data]; rewrite ?length_write; assumption
           |assumption].
        unfold written. cbv zeta.
        cbn [valid utilization invalidatedBytes segmentId data set_data].
        rewrite !(window_in _ _ _ Hin), !(window_in _ _ _ Hind), !window_write by lia.
        rewrite count_valid_cons.
        assert (Hf : flag (read (valid s) i) = 1).
        { unfold flag. destruct (Z.eqb_spec (read (valid s) i) 0); [contradiction|reflexivity]. }
        assert (Hm : mark (read (valid s) i) = read (valid s) i).
        { unfold mark. destruct (Z.eqb_spec (read (valid s) i) 0); [contradiction|reflexivity]. }
        rewrite Hf. cbn [length replicate fmap list_fmap]. rewrite Hm.
        rewrite (splice_in _ _ _ _ Hin), (splice_in _ _ _ _ Hind).
        rewrite write_same by exact Hin.
        f_equal. f_equal. lia.
    + rewrite IH by (assumption || lia || (split; assumption)).
      unfold written. cbv zeta.
      rewrite !(window_out (valid s)), !(window_out (data s)) by lia.
      cbn [length replicate fmap list_fmap]. rewrite !splice_nil. reflexivity.
Qed.

(** ** A write after the invalidation of the same window *)

Lemma window_fits a lo n :
  (Z.to_nat lo + length (window a lo n) <= length a)%nat \/ window a lo n = [].
Proof.
  destruct (decide (Z.to_nat lo <= length a)%nat) as [Hle|Hgt].
  - left. unfold window. rewrite length_take, length_drop. lia.
  - right. unfold window. rewrite drop_ge by lia. apply take_nil.
Qed.

Lemma window_splice a lo n b :
  length b = length (window a lo n) ->
  window (splice a lo b) lo n = b.
Proof.
  intros Hb. destruct (window_fits a lo n) as [Hfit|Hnil].
  - unfold window, splice in *.
    rewrite drop_app_length' by (rewrite length_take; lia).
    rewrite length_take, length_drop in Hb.
    destruct (decide (length b = n)) as [Hn|Hn].
    + apply take_app_length'. congruence.
    + rewrite (drop_ge a) by lia. rewrite app_nil_r. apply take_ge. lia.
  - rewrite Hnil in Hb. destruct b; [|discriminate].
    rewrite splice_nil. exact Hnil.
Qed.

Lemma splice_splice a lo n b b' :
  length b = length (window a lo n) -> length b' = length b ->
  splice (splice a lo b) lo b' = splice a lo b'.
Proof.
  intros Hb Hb'. destruct (window_fits a lo n) as [Hfit|Hnil].
  - assert (Hp : length (take (Z.to_nat lo) a) = Z.to_nat lo)
      by (rewrite length_take; lia).
    unfold splice.
    rewrite take_app_length' by (symmetry; exact Hp).
    rewrite drop_app_add' by (symmetry; exact Hp).
    rewrite Hb', drop_app_length. reflexivity.
  - rewrite Hnil in Hb. destruct b; [|discriminate]. destruct b'; [|discriminate].
    rewrite !splice_nil. reflexivity.
Qed.

Lemma length_splice a lo n b :
  length b = length (window a lo n) -> length (splice a lo b) = length a.
Proof.
  intros Hb. destruct (window_fits a lo n) as [Hfit|Hnil].
  - unfold splice. rewrite !length_app, length_take, length_drop. lia.
  - rewrite Hnil in Hb. destruct b; [|discriminate]. rewrite splice_nil. reflexivity.
Qed.

(** The two loops of [processWriteRequest], one after the other, on the
    target segment. *)
Definition committed (s : Segment) (lo : Z) (n : nat) : Segment :=
  let w := window (valid s) lo n in
  mkSegment (segmentId s)
            (wrap64 (utilization s - count_valid w + Z.of_nat (length w)))
            (splice (data s) lo (replicate (length (window (data s) lo n)) 1))
            (splice (valid s) lo (replicate (length w) 1))
            (wrap64 (invalidatedBytes s + count_valid w)).

Lemma written_invalidated s lo n :
  written (invalidated s lo n) lo n = committed s lo n.
Proof.
  unfold written, invalidated, committed. cbv zeta.
  cbn [valid utilization invalidatedBytes segmentId data].
  rewrite window_splice by apply length_replicate.
  rewrite (splice_splice _ _ n)
    by (rewrite ?length_fmap, !length_replicate; reflexivity).
  rewrite fmap_replicate, count_valid_replicate, length_replicate.
  change (mark 0) with 1. change (flag 0) with 0.
  rewrite wrap64_add_l. f_equal. f_equal. lia.
Qed.

(** The number of rounds of the two loops of a request: the loop bound is
    the [uint64_t] sum [offset + size]. *)
Definition rounds (off sz : Z) : nat := Z.to_nat (wrap64 (off + sz) - off).

Lemma seg_shape_invalidated s lo n : seg_shape s -> seg_shape (invalidated s lo n).
Proof.
  intros [Hd Hv]. split; cbn [data valid invalidated]; [exact Hd|].
  rewrite (length_splice _ _ n) by apply length_replicate. exact Hv.
Qed.

Lemma commit_loops s t off sz :
  0 <= off -> seg_shape s ->
  u64 (utilization s) -> u64 (invalidatedBytes s) -> u64 t ->
  invalidate_loop off sz (s, t) =
    (invalidated s off (rounds off sz),
     wrap64 (t + count_valid (window (valid s) off (rounds off sz)))) /\
  write_loop off sz (invalidated s off (rounds off sz)) =
    committed s off (rounds off sz).
Proof.
  intros Hoff Hsh Hu Hinv Ht. split.
  - unfold invalidate_loop, for_upto. apply iterate_invalidate; try assumption.
    apply Hsh.
  - unfold write_loop, for_upto. fold (rounds off sz).
    rewrite iterate_write.
    + apply written_invalidated.
    + exact Hoff.
    + apply seg_shape_invalidated, Hsh.
    + apply wrap64_range.
Qed.

(** ** The effect of an accepted write *)

Lemma alter_insert (l : list Segment) k s f :
  alter f k (<[k := s]> l) = <[k := f s]> l.
Proof.
  apply list_eq. intros j. destruct (decide (k = j)) as [->|Hne].
  - rewrite list_lookup_alter_eq.
    destruct (decide (j < length l)%nat) as [Hlt|Hge].
    + rewrite !list_lookup_insert_eq by exact Hlt. reflexivity.
    + rewrite !list_insert_ge by lia.
      rewrite (lookup_ge_None_2 l j) by lia. reflexivity.
  - rewrite list_lookup_alter_ne, !list_lookup_insert_ne by exact Hne. reflexivity.
Qed.

(** The flags of the positions that the two loops of a request reach in
    the segment [s]. *)
Definition touched (s : Segment) (r : WriteRequest) : list Z :=
  window (valid s) (offset r) (rounds (offset r) (size r)).

Lemma commit_write_effect m k r s :
  segments m !! k = Some s -> seg_shape s -> typed_seg s ->
  u64 (totalInvalidated m) -> 0 <= offset r ->
  commit_write m k r =
  mkManager (<[k := committed s (offset r) (rounds (offset r) (size r))]> (segments m))
            (wrap64 (totalWrites m + 1))
            (wrap64 (totalInvalidated m + count_valid (touched s r)))
            (gcCount m) (totalGcCost m).
Proof.
  intros Hs Hsh [Hu Hi] Ht Hoff.
  destruct (commit_loops s (totalInvalidated m) (offset r) (size r) Hoff Hsh Hu Hi Ht)
    as [Hinv Hwr].
  unfold commit_write, invalidateOldData. rewrite Hs, Hinv.
  unfold writeToSegment, update_segment.
  cbn [segments set_segments set_totalInvalidated set_totalWrites
       totalWrites totalInvalidated gcCount totalGcCost].
  rewrite alter_insert, Hwr. reflexivity.
Qed.

Lemma count_valid_window_le a lo n : count_valid (window a lo n) <= count_valid a.
Proof.
  unfold window.
  rewrite <- (take_drop (Z.to_nat lo) a) at 2. rewrite count_valid_app.
  rewrite <- (take_drop n (drop (Z.to_nat lo) a)) at 2. rewrite count_valid_app.
  pose proof (count_valid_bounds (take (Z.to_nat lo) a)).
  pose proof (count_valid_bounds (drop n (drop (Z.to_nat lo) a))). lia.
Qed.

Lemma touched_bounds s r :
  seg_shape s ->
  0 <= count_valid (touched s r) <= Z.of_nat (length (touched s r)) /\
  Z.of_nat (length (touched s r)) <= SEGMENT_SIZE.
Proof.
  intros [_ Hv]. split; [apply count_valid_bounds|].
  unfold touched, window. rewrite length_take, length_drop. lia.
Qed.

Lemma splice_window a lo n : splice a lo (window a lo n) = a.
Proof.
  unfold splice, window.
  assert (H : forall (x : list Z),
            take n x ++ drop (length (take n x)) x = x).
  { intros x. rewrite length_take.
    destruct (decide (n <= length x)%nat).
    - replace (n `min` length x)%nat with n by lia. apply take_drop.
    - rewrite take_ge, drop_ge by lia. apply app_nil_r. }
  rewrite <- drop_drop, H. apply take_drop.
Qed.

Lemma count_valid_splice a lo n b :
  length b = length (window a lo n) ->
  count_valid (splice a lo b) = count_valid a - count_valid (window a lo n) + count_valid b.
Proof.
  intros Hb. rewrite <- (splice_window a lo n) at 2.
  unfold splice. rewrite !count_valid_app, Hb. lia.
Qed.

(** The target segment after an accepted write. *)
Lemma committed_fields s r :
  seg_sound s ->
  let s' := committed s (offset r) (rounds (offset r) (size r)) in
  utilization s' =
    utilization s + (Z.of_nat (length (touched s r)) - count_valid (touched s r)) /\
  invalidatedBytes s' = wrap64 (invalidatedBytes s + count_valid (touched s r)) /\
  segmentId s' = segmentId s /\
  seg_sound s'.
Proof.
  intros [Hsh Hu]. cbv zeta.
  destruct (touched_bounds s r Hsh) as [Hc Hl].
  pose proof (count_valid_bounds (valid s)) as Hcount.
  assert (Hutil : utilization (committed s (offset r) (rounds (offset r) (size r))) =
                  utilization s + (Z.of_nat (length (touched s r)) - count_valid (touched s r))).
  { unfold committed. cbv zeta. cbn [utilization]. fold (touched s r).
    destruct Hsh as [_ Hv].
    rewrite wrap64_small by (unfold UINT64_MAX, SEGMENT_SIZE in *; lia). lia. }
  split; [exact Hutil|]. split; [reflexivity|]. split; [reflexivity|].
  split.
  - destruct Hsh as [Hd Hv]. split; cbn [data valid committed].
    + rewrite (length_splice _ _ (rounds (offset r) (size r)))
        by apply length_replicate. exact Hd.
    + rewrite (length_splice _ _ (rounds (offset r) (size r)))
        by apply length_replicate. exact Hv.
  - rewrite Hutil. unfold committed. cbv zeta. cbn [valid].
    rewrite (count_valid_splice _ _ (rounds (offset r) (size r)))
      by apply length_replicate.
    fold (touched s r). rewrite count_valid_replicate. change (flag 1) with 1. lia.
Qed.

(** ** The ranges of the counters *)

Lemma u64_0 : u64 0.
Proof. unfold u64, UINT64_MAX. lia. Qed.

(** Splits a goal [typed m] into its four parts. *)
Ltac typed_split := split; [|split; [|split]]; cbn.

Lemma invalidate_byte_typed i st :
  typed_seg (fst st) /\ u64 (snd st) ->
  typed_seg (fst (invalidate_byte i st)) /\ u64 (snd (invalidate_byte i st)).
Proof.
  destruct st as [s t]. intros H. unfold invalidate_byte.
  destruct (_ && _); [|exact H].
  cbn [fst snd]. split; [split|]; apply wrap64_range.
Qed.

Lemma write_byte_typed i s : typed_seg s -> typed_seg (write_byte i s).
Proof.
  intros H. unfold write_byte. destruct (i <? SEGMENT_SIZE); [|exact H].
  change (is_valid (set_data s (write (data s) i 1)) i) with (is_valid s i).
  destruct (is_valid s i); cbn [negb]; [exact H|].
  split; cbn [utilization invalidatedBytes set_utilization set_valid set_data];
    [apply wrap64_range|apply H].
Qed.

Lemma write_loop_typed off sz s : typed_seg s -> typed_seg (write_loop off sz s).
Proof.
  apply (for_upto_invariant write_byte typed_seg). intros i a. apply write_byte_typed.
Qed.

Lemma invalidate_loop_typed off sz st :
  typed_seg (fst st) /\ u64 (snd st) ->
  typed_seg (fst (invalidate_loop off sz st)) /\ u64 (snd (invalidate_loop off sz st)).
Proof.
  apply (for_upto_invariant invalidate_byte
           (fun st => typed_seg (fst st) /\ u64 (snd st))).
  intros i a. apply invalidate_byte_typed.
Qed.

Lemma invalidateOldData_typed m k off sz :
  typed m -> typed (invalidateOldData m k off sz).
Proof.
  intros (Hw & Hi & Hg & Hs). unfold invalidateOldData.
  destruct (segments m !! k) as [s|] eqn:E; [|typed_split; assumption].
  pose proof (invalidate_loop_typed off sz (s, totalInvalidated m)) as Hl.
  destruct (invalidate_loop off sz (s, totalInvalidated m)) as [s' t'].
  cbn [fst snd] in Hl. destruct Hl as [Hs' Ht'].
  { split; [|exact Hi]. eapply Forall_lookup_1; eauto. }
  typed_split; try assumption. apply Forall_insert; assumption.
Qed.

Lemma typed_alter m k f :
  (forall s, typed_seg s -> typed_seg (f s)) ->
  typed m -> typed (update_segment k f m).
Proof.
  intros Hf (Hw & Hi & Hg & Hs). typed_split; try assumption.
  apply Forall_alter; [exact Hs|]. intros s _. apply Hf.
Qed.

Lemma commit_write_typed m k r : typed m -> typed (commit_write m k r).
Proof.
  intros H. unfold commit_write.
  pose proof (typed_alter _ k _ (write_loop_typed (offset r) (size r))
                (invalidateOldData_typed m k (offset r) (size r) H)) as (Hw & Hi & Hg & Hs).
  typed_split; try assumption. apply wrap64_range.
Qed.

Lemma gc_copy_byte_typed v d i m : typed m -> typed (gc_copy_byte v d i m).
Proof.
  intros H. unfold gc_copy_byte.
  destruct (segments m !! v) as [s|]; [|exact H].
  destruct (is_valid s i); [|exact H].
  apply typed_alter; [intros s' Hs'; exact Hs'|].
  apply typed_alter; [apply write_loop_typed|exact H].
Qed.

Lemma compact_typed v d m : typed m -> typed (compact v d m).
Proof.
  intros H. unfold compact. apply typed_alter.
  - intros s _. split; apply u64_0.
  - apply (for_upto_invariant (gc_copy_byte v d) typed); [|exact H].
    intros i a. apply gc_copy_byte_typed.
Qed.

Lemma account_cost_typed m : typed m -> typed (account_cost m).
Proof.
  intros (Hw & Hi & Hg & Hs). unfold account_cost.
  destruct (gc_cost m); typed_split; try assumption; apply wrap64_range.
Qed.

Lemma garbageCollect_typed m : typed m -> typed (fst (garbageCollect m)).
Proof.
  intros H. unfold garbageCollect.
  destruct (select_victim m) as [v|]; [|exact H].
  destruct (findSegmentForWrite m 0) as [d|]; [|exact H].
  apply account_cost_typed, compact_typed, H.
Qed.

Lemma processWriteRequest_typed m r : typed m -> typed (fst (processWriteRequest m r)).
Proof.
  intros H. unfold processWriteRequest.
  destruct (findSegmentForWrite m (size r)) as [k|]; [apply commit_write_typed, H|].
  pose proof (garbageCollect_typed m H) as Hgc.
  destruct (garbageCollect m) as [m1 g]. cbn [fst] in Hgc.
  destruct (findSegmentForWrite m1 (size r)) as [k|];
    [apply commit_write_typed, Hgc|exact Hgc].
Qed.

(** ** What holds in every state *)

Lemma store_ok_well_formed m : store_ok m -> typed m -> well_formed m.
Proof.
  intros Hok Hty. split; [|exact Hty]. apply (pool_weaken seg_ok), Hok. apply seg_ok_sound.
Qed.

Lemma commit_write_sound m k r :
  well_formed m -> 0 <= offset r -> pool seg_sound (commit_write m k r).
Proof.
  intros [Hp Hty] Hoff.
  destruct (segments m !! k) as [s|] eqn:Hs.
  - pose proof (pool_lookup _ _ _ _ Hp Hs) as Hsound.
    destruct Hty as (_ & Hti & _ & Hall).
    rewrite (commit_write_effect m k r s Hs (proj1 Hsound)
               (Forall_lookup_1 _ _ _ _ Hall Hs) Hti Hoff).
    destruct Hp as [Hlen Hp]. split; cbn [segments].
    + rewrite length_insert. exact Hlen.
    + apply Forall_insert; [exact Hp|]. apply committed_fields, Hsound.
  - apply (pool_segments _ m); [|exact Hp].
    unfold commit_write, invalidateOldData. rewrite Hs.
    cbn [segments set_totalWrites writeToSegment update_segment set_segments].
    apply list_eq. intros j. destruct (decide (k = j)) as [->|Hne].
    + rewrite list_lookup_alter_eq, Hs. reflexivity.
    + apply list_lookup_alter_ne, Hne.
Qed.

Lemma garbageCollect_well_formed m :
  well_formed m -> well_formed (fst (garbageCollect m)).
Proof.
  intros [Hp Hty]. split; [apply garbageCollect_sound, Hp|apply garbageCollect_typed, Hty].
Qed.

Lemma commit_write_well_formed m k r :
  well_formed m -> 0 <= offset r -> well_formed (commit_write m k r).
Proof.
  intros Hwf Hoff. split; [apply commit_write_sound; assumption|].
  apply commit_write_typed, Hwf.
Qed.

Lemma step_well_formed m op : op_typed op -> well_formed m -> well_formed (step m op).
Proof.
  destruct op as [r|]; cbn [step op_typed]; [|intros _; apply garbageCollect_well_formed].
  intros [[Hoff _] _] Hwf. unfold processWriteRequest.
  destruct (findSegmentForWrite m (size r)) as [k|];
    [apply commit_write_well_formed; assumption|].
  pose proof (garbageCollect_well_formed m Hwf) as Hgc.
  destruct (garbageCollect m) as [m1 g]. cbn [fst] in Hgc.
  destruct (findSegmentForWrite m1 (size r)) as [k|];
    [apply commit_write_well_formed; assumption|exact Hgc].
Qed.

Lemma run_well_formed ops : forall m,
  Forall op_typed ops -> well_formed m -> well_formed (run m ops).
Proof.
  induction ops as [|op ops IH]; intros m Hops H; [exact H|].
  inversion Hops; subst. apply IH; [assumption|]. apply step_well_formed; assumption.
Qed.

Lemma initSegmentManager_typed m0 : typed (initSegmentManager m0).
Proof.
  typed_split; try apply u64_0.
  generalize 0 at 1. induction (segments m0) as [|s l IH]; intros i; simpl; constructor.
  - split; apply u64_0.
  - apply IH.
Qed.

Lemma init_segment_sound i s : seg_shape s -> seg_sound (init_segment i s).
Proof.
  intros [Hd Hv]. split.
  - split; cbn [data valid init_segment]; rewrite length_memset0; assumption.
  - cbn [utilization init_segment]. pose proof (count_valid_bounds (valid (init_segment i s))).
    lia.
Qed.

Lemma init_segments_sound l : forall i,
  Forall seg_shape l ->
  length (init_segments i l) = length l /\ Forall seg_sound (init_segments i l).
Proof.
  induction l as [|s l IH]; intros i Hsh; simpl; [split; [reflexivity|constructor]|].
  inversion Hsh as [|? ? Hs Hl]; subst.
  destruct (IH (i + 1) Hl) as [Hlen Hall].
  split; [congruence|]. constructor; [apply init_segment_sound, Hs|exact Hall].
Qed.

(** Whatever the storage held, the initialisation yields a well-formed
    store. *)
Lemma initSegmentManager_well_formed m0 :
  shape m0 -> well_formed (initSegmentManager m0).
Proof.
  intros [Hlen Hsh]. split; [|apply initSegmentManager_typed].
  destruct (init_segments_sound (segments m0) 0 Hsh) as [Hl Hall].
  split; cbn [segments initSegmentManager]; [rewrite Hl; exact Hlen|exact Hall].
Qed.

(** Every state of the store is well formed. *)
Lemma reachable_well_formed m0 m : shape m0 -> reachable m0 m -> well_formed m.
Proof.
  intros Hc Hr. induction Hr as [|m op Hop _ IH].
  - apply initSegmentManager_well_formed, Hc.
  - apply step_well_formed; assumption.
Qed.

Lemma reachable_run m0 ops :
  Forall op_typed ops -> reachable m0 (run (initSegmentManager m0) ops).
Proof.
  assert (H : forall m, Forall op_typed ops -> reachable m0 m -> reachable m0 (run m ops)).
  { induction ops as [|op ops IH]; intros m Hops Hm; [exact Hm|].
    inversion Hops; subst. apply IH; [assumption|]. constructor; assumption. }
  intros Hops. apply H; [exact Hops|constructor].
Qed.

Lemma zero_memory_shape : shape zero_memory.
Proof. apply zero_memory_clean. Qed.

Lemma well_formed_shape m : well_formed m -> shape m.
Proof.
  intros [[Hlen Hall] _]. split; [exact Hlen|].
  eapply Forall_impl; [exact Hall|]. intros s Hs. apply Hs.
Qed.

(** Discharges [Forall op_typed] for a list of requests given in full. *)
Ltac typed_ops :=
  repeat (constructor; [first [exact I | split; unfold u64, UINT64_MAX; cbn; lia]|]);
  constructor.

(** ** Victim selection *)

(** A segment the scan can choose. *)
Definition candidate (s : Segment) : Prop :=
  0 < utilization s /\ 0 < invalidatedBytes s.

(** What the pair [(victimIndex, maxInvalidated)] satisfies once the scan
    has gone through the segments [pre]. *)
Definition scan_inv (pre : list Segment) (st : option nat * Z) : Prop :=
  0 <= snd st /\
  (forall k s, pre !! k = Some s -> 0 < utilization s -> invalidatedBytes s <= snd st) /\
  match fst st with
  | None => snd st = 0
  | Some v =>
      exists s, pre !! v = Some s /\ 0 < utilization s /\
                invalidatedBytes s = snd st /\ 0 < snd st /\
                forall k s', pre !! k = Some s' -> 0 < utilization s' ->
                             invalidatedBytes s' = snd st -> (v <= k)%nat
  end.

Lemma scan_inv_step pre s st :
  scan_inv pre st -> scan_inv (pre ++ [s]) (victim_step (length pre) s st).
Proof.
  intros (H0 & Hmax & Hv). unfold victim_step.
  destruct (Z.ltb_spec (snd st) (invalidatedBytes s)) as [Hlt|Hge]; cbn [andb].
  - destruct (Z.ltb_spec 0 (utilization s)) as [Hu|Hu].
    + unfold scan_inv. cbn [fst snd]. split; [lia|]. split.
      * intros k s' Hk Hus'. apply lookup_app_Some in Hk as [Hk|[Hlen Hk]].
        -- specialize (Hmax k s' Hk Hus'). lia.
        -- apply list_lookup_singleton_Some in Hk as [_ <-]. lia.
      * exists s. split; [|split; [exact Hu|split; [reflexivity|split; [lia|]]]].
        -- rewrite lookup_app_r, Nat.sub_diag by lia. reflexivity.
        -- intros k s' Hk Hus' Heq. apply lookup_app_Some in Hk as [Hk|[Hlen Hk]].
           ++ specialize (Hmax k s' Hk Hus'). lia.
           ++ exact Hlen.
    + split; [exact H0|]. split.
      * intros k s' Hk Hus'. apply lookup_app_Some in Hk as [Hk|[Hlen Hk]].
        -- apply (Hmax k s' Hk Hus').
        -- apply list_lookup_singleton_Some in Hk as [_ <-]. lia.
      * destruct (fst st) as [v|]; [|exact Hv].
        destruct Hv as (sv & Hsv & Husv & Heq & Hpos & Hfirst).
        exists sv. split; [apply lookup_app_l_Some, Hsv|].
        split; [exact Husv|]. split; [exact Heq|]. split; [exact Hpos|].
        intros k s' Hk Hus' Heq'. apply lookup_app_Some in Hk as [Hk|[Hlen Hk]].
        -- apply (Hfirst k s' Hk Hus' Heq').
        -- apply list_lookup_singleton_Some in Hk as [_ <-]. lia.
  - split; [exact H0|]. split.
    + intros k s' Hk Hus'. apply lookup_app_Some in Hk as [Hk|[Hlen Hk]].
      * apply (Hmax k s' Hk Hus').
      * apply list_lookup_singleton_Some in Hk as [_ <-]. lia.
    + destruct (fst st) as [v|]; [|exact Hv].
      destruct Hv as (sv & Hsv & Husv & Heq & Hpos & Hfirst).
      exists sv. split; [apply lookup_app_l_Some, Hsv|].
      split; [exact Husv|]. split; [exact Heq|]. split; [exact Hpos|].
      intros k s' Hk Hus' Heq'. apply lookup_app_Some in Hk as [Hk|[Hlen Hk]].
      * apply (Hfirst k s' Hk Hus' Heq').
      * apply lookup_lt_Some in Hsv. lia.
Qed.

Lemma victim_scan_inv l : forall pre st,
  scan_inv pre st -> scan_inv (pre ++ l) (victim_scan (length pre) l st).
Proof.
  induction l as [|s l IH]; intros pre st H; cbn [victim_scan].
  - rewrite app_nil_r. exact H.
  - replace (pre ++ s :: l) with ((pre ++ [s]) ++ l) by (rewrite <- app_assoc; reflexivity).
    replace (S (length pre)) with (length (pre ++ [s])) by (rewrite length_app; simpl; lia).
    apply IH, scan_inv_step, H.
Qed.

Lemma select_victim_inv m :
  scan_inv (segments m) (victim_scan 0%nat (segments m) (None, 0)).
Proof.
  apply (victim_scan_inv (segments m) [] (None, 0)).
  split; [cbn; lia|]. split; [|reflexivity].
  intros k s Hk. rewrite lookup_nil in Hk. discriminate.
Qed.

Lemma select_victim_Some m v :
  select_victim m = Some v ->
  exists s, segments m !! v = Some s /\ candidate s /\
    forall k s', segments m !! k = Some s' -> 0 < utilization s' ->
      invalidatedBytes s' <= invalidatedBytes s /\
      (invalidatedBytes s' = invalidatedBytes s -> (v <= k)%nat).
Proof.
  unfold select_victim. intros Hv.
  destruct (select_victim_inv m) as (H0 & Hmax & Hsel). rewrite Hv in Hsel.
  destruct Hsel as (s & Hs & Hu & Heq & Hpos & Hfirst).
  exists s. split; [exact Hs|]. split; [split; [exact Hu|lia]|].
  intros k s' Hk Hus'. split.
  - rewrite Heq. apply (Hmax k s' Hk Hus').
  - intros Heq'. apply (Hfirst k s' Hk Hus'). congruence.
Qed.

Lemma select_victim_None m :
  select_victim m = None <-> forall s, s ∈ segments m -> ~ candidate s.
Proof.
  unfold select_victim.
  destruct (select_victim_inv m) as (H0 & Hmax & Hsel). split.
  - intros Hn. rewrite Hn in Hsel. intros s Hs [Hu Hi].
    apply list_elem_of_lookup in Hs as [k Hk].
    specialize (Hmax k s Hk Hu). lia.
  - intros Hnone.
    destruct (fst (victim_scan 0%nat (segments m) (None, 0))) as [v|]; [|reflexivity].
    destruct Hsel as (s & Hs & Hu & Heq & Hpos & _).
    exfalso. apply (Hnone s).
    + apply list_elem_of_lookup. eauto.
    + split; [exact Hu|lia].
Qed.

(** ** The allocator *)

Lemma first_fit_Some sz l : forall i k,
  first_fit sz i l = Some k <->
  exists s, (i <= k)%nat /\ l !! (k - i)%nat = Some s /\ fits sz s = true /\
            forall j s', (j < k - i)%nat -> l !! j = Some s' -> fits sz s' = false.
Proof.
  induction l as [|x l IH]; intros i k; cbn [first_fit].
  - split; [discriminate|]. intros (s & _ & Hs & _). rewrite lookup_nil in Hs. discriminate.
  - destruct (fits sz x) eqn:Hx.
    + split.
      * intros [= <-]. exists x. rewrite Nat.sub_diag.
        split; [lia|]. split; [reflexivity|]. split; [exact Hx|]. intros j s' Hj. lia.
      * intros (s & Hik & Hs & Hfit & Hfirst).
        destruct (k - i)%nat as [|d] eqn:Hd; [f_equal; lia|].
        specialize (Hfirst 0%nat x ltac:(lia) eq_refl). congruence.
    + rewrite IH. split.
      * intros (s & Hik & Hs & Hfit & Hfirst). exists s.
        split; [lia|]. replace (k - i)%nat with (S (k - S i)) by lia.
        split; [exact Hs|]. split; [exact Hfit|].
        intros [|j] s' Hj Hs'; [cbn in Hs'; congruence|].
        apply (Hfirst j s'); [lia|exact Hs'].
      * intros (s & Hik & Hs & Hfit & Hfirst).
        destruct (k - i)%nat as [|d] eqn:Hd; [cbn in Hs; congruence|].
        exists s. split; [lia|]. replace (k - S i)%nat with d by lia.
        split; [exact Hs|]. split; [exact Hfit|].
        intros j s' Hj Hs'. apply (Hfirst (S j) s'); [lia|exact Hs'].
Qed.

Lemma first_fit_None sz l : forall i,
  first_fit sz i l = None <-> forall s, s ∈ l -> fits sz s = false.
Proof.
  induction l as [|x l IH]; intros i; cbn [first_fit].
  - split; [|reflexivity]. intros _ s Hs. apply elem_of_nil in Hs. contradiction.
  - destruct (fits sz x) eqn:Hx.
    + split; [discriminate|]. intros H. rewrite (H x) in Hx by apply list_elem_of_here.
      discriminate.
    + rewrite IH. split.
      * intros H s Hs. apply elem_of_cons in Hs as [->|Hs]; [exact Hx|apply H, Hs].
      * intros H s Hs. apply H, list_elem_of_further, Hs.
Qed.

(** The result of the scan, in the arithmetic of the source. *)
Lemma findSegmentForWrite_Some m sz k :
  findSegmentForWrite m sz = Some k <->
  exists s, segments m !! k = Some s /\ fits sz s = true /\
            forall j s', (j < k)%nat -> segments m !! j = Some s' -> fits sz s' = false.
Proof.
  unfold findSegmentForWrite. rewrite first_fit_Some. rewrite Nat.sub_0_r.
  split; intros (s & H); exists s; [tauto|]. split; [lia|exact H].
Qed.

Lemma findSegmentForWrite_None m sz :
  findSegmentForWrite m sz = None <-> forall s, s ∈ segments m -> fits sz s = false.
Proof. apply first_fit_None. Qed.

(** Without a wrap of the sum, [fits] is the comparison of the
    specification. *)
Lemma fits_exact sz s :
  0 <= utilization s -> 0 <= sz -> utilization s + sz <= UINT64_MAX ->
  fits sz s = true <-> utilization s + sz <= SEGMENT_SIZE.
Proof.
  intros Hu Hsz Hsum. unfold fits. rewrite wrap64_small by lia. apply Z.leb_le.
Qed.

Lemma seg_sound_range s : seg_sound s -> 0 <= utilization s <= SEGMENT_SIZE.
Proof.
  intros [[_ Hv] Hu]. pose proof (count_valid_bounds (valid s)). lia.
Qed.

Lemma fits_0 s : seg_sound s -> fits 0 s = true.
Proof.
  intros H. pose proof (seg_sound_range s H) as Hr.
  unfold fits. rewrite wrap64_add_0 by exact Hr. apply Z.leb_le. lia.
Qed.

Lemma pool_head Q m :
  pool Q m -> exists s0, segments m !! 0%nat = Some s0 /\ Q s0.
Proof.
  intros [Hlen Hall]. destruct (segments m) as [|s0 l] eqn:E.
  - unfold NUM_SEGMENTS in Hlen. simpl in Hlen. lia.
  - exists s0. split; [reflexivity|]. inversion Hall; assumption.
Qed.

Lemma findSegmentForWrite_0 m :
  pool seg_sound m -> findSegmentForWrite m 0 = Some 0%nat.
Proof.
  intros H. destruct (pool_head _ m H) as (s0 & Hs0 & Hok).
  apply findSegmentForWrite_Some. exists s0.
  split; [exact Hs0|]. split; [apply fits_0, Hok|]. intros j s' Hj. lia.
Qed.

(** ** The counters of the store under the collector *)

Definition same_counters (m m' : SegmentManager) : Prop :=
  totalWrites m' = totalWrites m /\ totalInvalidated m' = totalInvalidated m /\
  gcCount m' = gcCount m /\ totalGcCost m' = totalGcCost m.

Lemma same_counters_refl m : same_counters m m.
Proof. repeat split. Qed.

Lemma same_counters_update k f m0 m :
  same_counters m0 m -> same_counters m0 (update_segment k f m).
Proof. intros H. exact H. Qed.

Lemma gc_copy_byte_counters v d i m0 m :
  same_counters m0 m -> same_counters m0 (gc_copy_byte v d i m).
Proof.
  intros H. unfold gc_copy_byte.
  destruct (segments m !! v) as [s|]; [|exact H].
  destruct (is_valid s i); exact H.
Qed.

Lemma compact_counters v d m : same_counters m (compact v d m).
Proof.
  unfold compact. apply same_counters_update.
  apply (for_upto_invariant (gc_copy_byte v d) (same_counters m)).
  - intros i a. apply gc_copy_byte_counters.
  - apply same_counters_refl.
Qed.

Lemma fill_ratio_compact v d m : fill_ratio (compact v d m) = fill_ratio m.
Proof.
  unfold fill_ratio. destruct (compact_counters v d m) as (-> & _). reflexivity.
Qed.

Lemma gc_cost_compact v d m : gc_cost (compact v d m) = gc_cost m.
Proof. unfold gc_cost. rewrite fill_ratio_compact. reflexivity. Qed.

Lemma account_cost_fields m :
  totalWrites (account_cost m) = totalWrites m /\
  totalInvalidated (account_cost m) = totalInvalidated m /\
  gcCount (account_cost m) = wrap64 (gcCount m + 1) /\
  totalGcCost (account_cost m) =
    match gc_cost m with
    | CostFinite x => (totalGcCost m + x)%float
    | CostInfinite => totalGcCost m
    end.
Proof. unfold account_cost. destruct (gc_cost m); repeat split. Qed.

(** The three ways [garbageCollect] ends. *)
Lemma garbageCollect_cases m :
  (garbageCollect m = (m, NoVictim) /\ select_victim m = None) \/
  (garbageCollect m = (m, NoDestination) /\
   select_victim m <> None /\ findSegmentForWrite m 0 = None) \/
  (exists v d, select_victim m = Some v /\ findSegmentForWrite m 0 = Some d /\
     garbageCollect m =
       (account_cost (compact v d m),
        VictimReclaimed (id_of (compact v d m) v) (gc_cost m))).
Proof.
  unfold garbageCollect.
  destruct (select_victim m) as [v|]; [|left; split; reflexivity].
  destruct (findSegmentForWrite m 0) as [d|].
  - right. right. exists v, d. rewrite gc_cost_compact. repeat split.
  - right. left. repeat split. discriminate.
Qed.

Lemma garbageCollect_writes m :
  totalWrites (fst (garbageCollect m)) = totalWrites m /\
  totalInvalidated (fst (garbageCollect m)) = totalInvalidated m.
Proof.
  destruct (garbageCollect_cases m) as [[-> _]|[[-> _]|(v & d & _ & _ & ->)]];
    try (split; reflexivity).
  cbn [fst]. destruct (compact_counters v d m) as (Hw & Hi & _).
  destruct (account_cost_fields (compact v d m)) as (-> & -> & _).
  split; assumption.
Qed.

(** The accounting of a collection that reclaims a victim. *)
Lemma garbageCollect_reclaimed m m' id c :
  garbageCollect m = (m', VictimReclaimed id c) ->
  c = gc_cost m /\
  gcCount m' = wrap64 (gcCount m + 1) /\
  totalGcCost m' =
    match gc_cost m with
    | CostFinite x => (totalGcCost m + x)%float
    | CostInfinite => totalGcCost m
    end.
Proof.
  destruct (garbageCollect_cases m) as [[-> _]|[[-> _]|(v & d & _ & _ & ->)]];
    [intros [=]|intros [=]|].
  pose proof (compact_counters v d m) as (_ & _ & Hg & Hc).
  pose proof (account_cost_fields (compact v d m)) as (_ & _ & Hg' & Hc').
  rewrite gc_cost_compact, Hg, Hc in *.
  generalize dependent (compact v d m). intros mc Hg Hc.
  generalize (account_cost mc). intros ma Hg' Hc' H.
  apply pair_equal_spec in H as [<- H]. injection H as _ <-.
  split; [reflexivity|]. split; assumption.
Qed.

Lemma garbageCollect_not_reclaimed m m' g :
  garbageCollect m = (m', g) ->
  (forall id c, g <> VictimReclaimed id c) -> m' = m.
Proof.
  destruct (garbageCollect_cases m) as [[-> _]|[[-> _]|(v & d & _ & _ & ->)]];
    [intros [= <- <-] _; reflexivity|intros [= <- <-] _; reflexivity|].
  generalize (account_cost (compact v d m)), (id_of (compact v d m) v).
  intros ma i H Hg. apply pair_equal_spec in H as [_ <-].
  exfalso. eapply Hg. reflexivity.
Qed.

(** ** Segment identities *)

Lemma id_of_alter m k f j :
  (forall s, segmentId (f s) = segmentId s) ->
  id_of (update_segment k f m) j = id_of m j.
Proof.
  intros Hf. unfold id_of, update_segment. cbn [segments set_segments].
  destruct (decide (k = j)) as [->|Hne].
  - rewrite list_lookup_alter_eq. destruct (segments m !! j); cbn; [apply Hf|reflexivity].
  - rewrite list_lookup_alter_ne by exact Hne. reflexivity.
Qed.

Lemma segmentId_write_byte i s : segmentId (write_byte i s) = segmentId s.
Proof.
  unfold write_byte. destruct (i <? SEGMENT_SIZE); [|reflexivity].
  destruct (negb _); reflexivity.
Qed.

Lemma segmentId_write_loop off sz s : segmentId (write_loop off sz s) = segmentId s.
Proof.
  apply (for_upto_invariant write_byte (fun s' => segmentId s' = segmentId s));
    [|reflexivity].
  intros i a Ha. rewrite segmentId_write_byte. exact Ha.
Qed.

Lemma id_of_gc_copy_byte v d i m j : id_of (gc_copy_byte v d i m) j = id_of m j.
Proof.
  unfold gc_copy_byte. destruct (segments m !! v) as [s|]; [|reflexivity].
  destruct (is_valid s i); [|reflexivity].
  rewrite id_of_alter by reflexivity.
  apply id_of_alter. intros s'. apply segmentId_write_loop.
Qed.

Lemma id_of_compact v d m j : id_of (compact v d m) j = id_of m j.
Proof.
  unfold compact. rewrite id_of_alter by reflexivity.
  apply (for_upto_invariant (gc_copy_byte v d) (fun m' => id_of m' j = id_of m j));
    [|reflexivity].
  intros i a Ha. rewrite id_of_gc_copy_byte. exact Ha.
Qed.

(** * The claims of the specification *)

(** ** C2: victim selection *)

(** C2.  The victim of the collector, when there is one, is a segment with
    [utilization > 0] whose [invalidatedBytes] is maximal among the segments
    with [utilization > 0], and it is the one of lowest index among those
    with that maximum; a collection that reclaims a segment reclaims this
    one.  There is a victim exactly when some segment has [utilization > 0]
    and [invalidatedBytes > 0]; when there is none, [garbageCollect] leaves
    the store as it is and reports that no victim was found. *)
Theorem C2_victim_selection (m : SegmentManager) :
  (forall v, select_victim m = Some v ->
     exists s, segments m !! v = Some s /\
       0 < utilization s /\ 0 < invalidatedBytes s /\
       forall k s', segments m !! k = Some s' -> 0 < utilization s' ->
         invalidatedBytes s' <= invalidatedBytes s /\
         (invalidatedBytes s' = invalidatedBytes s -> (v <= k)%nat)) /\
  (forall m' id c, garbageCollect m = (m', VictimReclaimed id c) ->
     exists v, select_victim m = Some v /\ id = id_of m v) /\
  ((exists s, s ∈ segments m /\ 0 < utilization s /\ 0 < invalidatedBytes s) <->
   (exists v, select_victim m = Some v)) /\
  ((forall s, s ∈ segments m -> 0 < utilization s -> ~ 0 < invalidatedBytes s) ->
   select_victim m = None /\ garbageCollect m = (m, NoVictim)).
Proof.
  split; [|split; [|split]].
  - intros v Hv. destruct (select_victim_Some m v Hv) as (s & Hs & [Hu Hi] & Hmax).
    exists s. repeat (split; [assumption|]). exact Hmax.
  - intros m' id c.
    destruct (garbageCollect_cases m) as [[-> _]|[[-> _]|(v & d & Hv & _ & ->)]];
      [intros [=]|intros [=]|].
    rewrite id_of_compact. generalize (account_cost (compact v d m)). intros ma H.
    apply pair_equal_spec in H as [_ H]. injection H as <- _.
    exists v. split; [exact Hv|reflexivity].
  - split.
    + intros (s & Hs & Hu & Hi).
      destruct (select_victim m) as [v|] eqn:Hv; [exists v; reflexivity|].
      exfalso. apply (proj1 (select_victim_None m) Hv s Hs). split; assumption.
    + intros [v Hv]. destruct (select_victim_Some m v Hv) as (s & Hs & [Hu Hi] & _).
      exists s. split; [|split; assumption]. apply list_elem_of_lookup. eauto.
  - intros Hnone.
    assert (Hv : select_victim m = None).
    { apply select_victim_None. intros s Hs [Hu Hi]. apply (Hnone s Hs Hu Hi). }
    split; [exact Hv|]. unfold garbageCollect. rewrite Hv. reflexivity.
Qed.

(** Scenarios 3 and 4 of the specification, on a pool of two segments. *)
Example select_victim_most_invalidated :
  select_victim (mkManager [mkSegment 0 5 [] [] 10; mkSegment 1 3 [] [] 20] 0 0 0 0%float)
  = Some 1%nat.
Proof. reflexivity. Qed.

Example select_victim_tie_lowest :
  select_victim (mkManager [mkSegment 0 5 [] [] 20; mkSegment 1 3 [] [] 20] 0 0 0 0%float)
  = Some 0%nat.
Proof. reflexivity. Qed.

Example select_victim_none :
  garbageCollect (mkManager [mkSegment 0 5 [] [] 0; mkSegment 1 3 [] [] 0] 7 0 0 0%float)
  = (mkManager [mkSegment 0 5 [] [] 0; mkSegment 1 3 [] [] 0] 7 0 0 0%float, NoVictim).
Proof. reflexivity. Qed.

(** ** C3: allocation failure *)

Lemma processWriteRequest_failure m r m' g :
  processWriteRequest m r = (m', AllocationFailure g) <->
  findSegmentForWrite m (size r) = None /\ garbageCollect m = (m', g) /\
  findSegmentForWrite m' (size r) = None.
Proof.
  unfold processWriteRequest.
  destruct (findSegmentForWrite m (size r)) as [k|] eqn:E1.
  { split; [intros H; apply pair_equal_spec in H as [_ [=]]|intros [[=] _]]. }
  destruct (garbageCollect m) as [m1 g1].
  destruct (findSegmentForWrite m1 (size r)) as [k|] eqn:E2.
  - split.
    + intros H. apply pair_equal_spec in H as [_ [=]].
    + intros (_ & H & H'). apply pair_equal_spec in H as [-> _]. congruence.
  - split.
    + intros H. apply pair_equal_spec in H as [<- [= <-]]. repeat split. exact E2.
    + intros (_ & H & _). apply pair_equal_spec in H as [<- <-]. reflexivity.
Qed.

(** After a collection that reclaimed a victim, a request that fits an
    empty segment finds one. *)
Lemma reclaimed_makes_room m m' id c sz :
  pool seg_sound m -> 0 <= sz <= SEGMENT_SIZE ->
  garbageCollect m = (m', VictimReclaimed id c) ->
  findSegmentForWrite m' sz <> None.
Proof.
  intros Hok Hsz.
  destruct (garbageCollect_cases m) as [[-> _]|[[-> _]|(v & d & Hv & _ & ->)]];
    [intros [=]|intros [=]|].
  pose proof (segments_account_cost (compact v d m)) as Hseg.
  generalize dependent (account_cost (compact v d m)). intros ma Hseg.
  generalize (id_of (compact v d m) v). intros i H.
  apply pair_equal_spec in H as [<- _].
  destruct (select_victim_Some m v Hv) as (s & Hs & _).
  destruct (victim_is_reset v d m s Hok Hs) as (s' & Hs' & Hu' & _).
  intros Hnone. rewrite findSegmentForWrite_None, Hseg in Hnone.
  specialize (Hnone s').
  assert (Hfit : fits sz s' = true).
  { unfold fits. rewrite Hu', Z.add_0_l.
    rewrite wrap64_small by (unfold SEGMENT_SIZE, UINT64_MAX in *; lia).
    apply Z.leb_le. lia. }
  rewrite Hnone in Hfit; [discriminate|].
  apply list_elem_of_lookup. exists v. exact Hs'.
Qed.

(** C3, as amended.  A request fails exactly when the first allocation
    finds no segment, the one forced collection has run, and the one retry
    finds no segment either; the state left is the one the collection left.
    [totalWrites] and [totalInvalidated] are unchanged.  The store is
    unchanged altogether unless the collection reclaimed a victim; if it
    did, [gcCount] has been incremented and the cost accounted in
    [totalGcCost], which in a state of the store happens only for a request
    larger than a segment. *)
Theorem C3_allocation_failure (m : SegmentManager) (r : WriteRequest)
    (m' : SegmentManager) (g : GcOutcome) :
  (processWriteRequest m r = (m', AllocationFailure g) <->
   findSegmentForWrite m (size r) = None /\ garbageCollect m = (m', g) /\
   findSegmentForWrite m' (size r) = None) /\
  (processWriteRequest m r = (m', AllocationFailure g) ->
   totalWrites m' = totalWrites m /\
   totalInvalidated m' = totalInvalidated m /\
   ((forall id c, g <> VictimReclaimed id c) -> m' = m) /\
   (forall id c, g = VictimReclaimed id c ->
      gcCount m' = wrap64 (gcCount m + 1) /\
      totalGcCost m' =
        match c with
        | CostFinite x => (totalGcCost m + x)%float
        | CostInfinite => totalGcCost m
        end) /\
   (well_formed m -> 0 <= size r <= SEGMENT_SIZE -> m' = m)).
Proof.
  split; [apply processWriteRequest_failure|].
  intros H. apply processWriteRequest_failure in H as (H1 & Hgc & H2).
  pose proof (garbageCollect_writes m) as [Hw Hi]. rewrite Hgc in Hw, Hi.
  split; [exact Hw|]. split; [exact Hi|]. split; [|split].
  - apply (garbageCollect_not_reclaimed m m' g Hgc).
  - intros id c ->. destruct (garbageCollect_reclaimed m m' id c Hgc) as (-> & Hg & Hc).
    split; [exact Hg|exact Hc].
  - intros Hok Hsz. apply (garbageCollect_not_reclaimed m m' g Hgc).
    intros id c ->. apply (reclaimed_makes_room m m' id c (size r) (proj1 Hok) Hsz Hgc H2).
Qed.

(** The store of the second scenario of the specification: two writes to
    segment 0 of a store initialised over zeroed storage. *)
Definition two_writes : SegmentManager :=
  run (initSegmentManager zero_memory)
      [OpWrite (mkRequest 0 5); OpWrite (mkRequest 2 3)].

(** C3, counterexample.  On that store a request of 2000 bytes fails, and
    the collection it forced has reclaimed segment 0: [gcCount] went from 0
    to 1 and [totalGcCost] is no longer what it was. *)
Lemma C3_counters_mutate_on_failure :
  let res := processWriteRequest two_writes (mkRequest 0 2000) in
  (exists c, snd res = AllocationFailure (VictimReclaimed 0 (CostFinite c))) /\
  gcCount two_writes = 0 /\ gcCount (fst res) = 1 /\
  (totalGcCost (fst res) =? totalGcCost two_writes)%float = false.
Proof.
  cbv zeta. split; [eexists; vm_compute; reflexivity|].
  split; [vm_compute; reflexivity|]. split; vm_compute; reflexivity.
Qed.

(** ** C4: the cost of a collection *)

Lemma garbageCollect_pair m : garbageCollect m = (fst (garbageCollect m), snd (garbageCollect m)).
Proof. apply surjective_pairing. Qed.

(** C4.  When a collection reclaims a victim, with [fillRatio] the quotient
    of [totalWrites] by [NUM_SEGMENTS * SEGMENT_SIZE] in binary64: if
    [fillRatio < 1.0] the cost is [2.0 / (1.0 - fillRatio)] and it is added
    to [totalGcCost]; otherwise the cost is the infinity symbol, which is not
    a number, and [totalGcCost] is unchanged.  In both cases [gcCount] is
    incremented by one, as a [uint64_t] is. *)
Theorem C4_gc_cost (m : SegmentManager) (id : Z) (c : GcCost) :
  snd (garbageCollect m) = VictimReclaimed id c ->
  let m' := fst (garbageCollect m) in
  let fillRatio :=
    (double_of_Z (totalWrites m) / double_of_Z (NUM_SEGMENTS * SEGMENT_SIZE))%float in
  (if (fillRatio <? 1.0)%float
   then c = CostFinite (2.0 / (1.0 - fillRatio))%float /\
        totalGcCost m' = (totalGcCost m + 2.0 / (1.0 - fillRatio))%float
   else c = CostInfinite /\ totalGcCost m' = totalGcCost m) /\
  gcCount m' = wrap64 (gcCount m + 1) /\
  (0 <= gcCount m < UINT64_MAX -> gcCount m' = gcCount m + 1).
Proof.
  intros Hsnd. cbv zeta.
  pose proof (garbageCollect_pair m) as Hgc. rewrite Hsnd in Hgc.
  destruct (garbageCollect_reclaimed m _ id c Hgc) as (Hc & Hg & Hcost).
  split; [|split; [exact Hg|]].
  - unfold gc_cost in Hc, Hcost. fold (fill_ratio m).
    destruct (fill_ratio m <? 1.0)%float; split; assumption.
  - intros Hrange. rewrite Hg. apply wrap64_small. lia.
Qed.

(** A store like [two_writes] in which [totalWrites] has the given value. *)
Definition with_writes (n : Z) : SegmentManager := set_totalWrites two_writes n.

(** C4, witness: scenario 5 of the specification.  With
    [totalWrites = 524288] the fill ratio is one half: the cost is 4. *)
Lemma C4_gc_cost_witness :
  let m := with_writes 524288 in
  snd (garbageCollect m) = VictimReclaimed 0 (CostFinite 4.0%float) /\
  let m' := fst (garbageCollect m) in
  let fillRatio :=
    (double_of_Z (totalWrites m) / double_of_Z (NUM_SEGMENTS * SEGMENT_SIZE))%float in
  (if (fillRatio <? 1.0)%float
   then CostFinite 4.0%float = CostFinite (2.0 / (1.0 - fillRatio))%float /\
        totalGcCost m' = (totalGcCost m + 2.0 / (1.0 - fillRatio))%float
   else CostFinite 4.0%float = CostInfinite /\ totalGcCost m' = totalGcCost m) /\
  gcCount m' = wrap64 (gcCount m + 1) /\
  (0 <= gcCount m < UINT64_MAX -> gcCount m' = gcCount m + 1).
Proof.
  split; [vm_compute; reflexivity|].
  apply (C4_gc_cost (with_writes 524288) 0 (CostFinite 4.0%float)).
  vm_compute; reflexivity.
Defined.

(** At [totalWrites = NUM_SEGMENTS * SEGMENT_SIZE] the fill ratio is 1: the
    cost is the infinity symbol and nothing is added. *)
Example gc_cost_infinite :
  let m := with_writes (NUM_SEGMENTS * SEGMENT_SIZE) in
  snd (garbageCollect m) = VictimReclaimed 0 CostInfinite /\
  totalGcCost (fst (garbageCollect m)) = totalGcCost m /\
  gcCount (fst (garbageCollect m)) = 1.
Proof.
  cbv zeta. split; [|split]; vm_compute; reflexivity.
Qed.

(** ** C6: the trigger of the collector *)

Lemma usedSegments_range m :
  0 <= usedSegments m <= Z.of_nat (length (segments m)).
Proof.
  unfold usedSegments. pose proof (length_filter (fun s => 0 < utilization s) (segments m)).
  lia.
Qed.

(** The binary64 comparison of the source agrees with the comparison of the
    fractions for every count the loop can produce. *)
Lemma threshold_table :
  forallb (fun u => Bool.eqb (GC_THRESHOLD <=? double_of_Z u / double_of_Z NUM_SEGMENTS)%float
                             (9 * NUM_SEGMENTS <=? 10 * u))
          (seqZ 0 (NUM_SEGMENTS + 1)) = true.
Proof. vm_compute. reflexivity. Qed.

Lemma threshold_exact u :
  0 <= u <= NUM_SEGMENTS ->
  (GC_THRESHOLD <=? double_of_Z u / double_of_Z NUM_SEGMENTS)%float = true <->
  9 * NUM_SEGMENTS <= 10 * u.
Proof.
  intros Hu. pose proof threshold_table as H.
  rewrite forallb_forall in H. specialize (H u).
  rewrite <- Z.leb_le.
  assert (Hin : In u (seqZ 0 (NUM_SEGMENTS + 1))).
  { apply list_elem_of_In, elem_of_seqZ. lia. }
  apply H, eqb_prop in Hin. rewrite Hin. reflexivity.
Qed.

(** C6.  [isGarbageCollectionNeeded] returns true if and only if the
    fraction of the segments with [utilization > 0] among the
    [NUM_SEGMENTS] segments of the store is at least nine tenths. *)
Theorem C6_collection_needed (m : SegmentManager) :
  shape m ->
  isGarbageCollectionNeeded m = true <->
  (9 # 10 <=
   Z.of_nat (length (filter (fun s => (0 < utilization s)%Z) (segments m)))
     # Z.to_pos NUM_SEGMENTS)%Q.
Proof.
  intros [Hlen _]. unfold isGarbageCollectionNeeded.
  pose proof (usedSegments_range m) as Hu.
  rewrite threshold_exact by lia.
  unfold usedSegments, Qle. cbn [Qnum Qden]. unfold NUM_SEGMENTS. cbn [Z.to_pos]. lia.
Qed.

(** A segment that holds one valid byte, and a store whose first [n]
    segments are such segments and whose other segments are empty. *)
Definition one_byte_segment : Segment :=
  mkSegment 0 1 (1 :: replicate 1023 0) (1 :: replicate 1023 0) 0.

Definition store_in_use (n : nat) : SegmentManager :=
  mkManager (replicate n one_byte_segment ++ replicate (1024 - n) zero_segment) 0 0 0 0%float.

Lemma store_in_use_shape n : (n <= 1024)%nat -> shape (store_in_use n).
Proof.
  intros Hn. split; cbn [segments store_in_use].
  - rewrite length_app, !length_replicate. unfold NUM_SEGMENTS. lia.
  - apply Forall_app. split; apply Forall_replicate; split; reflexivity.
Qed.

(** C6, witness: with 922 of the 1024 segments in use the fraction is
    above nine tenths and a collection is needed; with 921 it is below and
    none is needed. *)
Lemma C6_collection_needed_witness :
  (Z.of_nat (length (filter (fun s => 0 < utilization s) (segments (store_in_use 922)))) = 922 /\
   isGarbageCollectionNeeded (store_in_use 922) = true /\
   (9 # 10 <= 922 # Z.to_pos NUM_SEGMENTS)%Q) /\
  (Z.of_nat (length (filter (fun s => 0 < utilization s) (segments (store_in_use 921)))) = 921 /\
   isGarbageCollectionNeeded (store_in_use 921) = false /\
   ~ (9 # 10 <= 921 # Z.to_pos NUM_SEGMENTS)%Q).
Proof.
  assert (H922 : Z.of_nat (length (filter (fun s => 0 < utilization s)
                                     (segments (store_in_use 922)))) = 922)
    by (vm_compute; reflexivity).
  assert (H921 : Z.of_nat (length (filter (fun s => 0 < utilization s)
                                     (segments (store_in_use 921)))) = 921)
    by (vm_compute; reflexivity).
  pose proof (C6_collection_needed (store_in_use 922) (store_in_use_shape 922 ltac:(lia))) as Hup.
  pose proof (C6_collection_needed (store_in_use 921) (store_in_use_shape 921 ltac:(lia))) as Hdown.
  rewrite H922 in Hup. rewrite H921 in Hdown.
  assert (Hq : (9 # 10 <= 922 # Z.to_pos NUM_SEGMENTS)%Q) by (vm_compute; discriminate).
  assert (Hn : ~ (9 # 10 <= 921 # Z.to_pos NUM_SEGMENTS)%Q)
    by (intros H; vm_compute in H; apply H; reflexivity).
  split.
  - split; [exact H922|]. split; [apply Hup, Hq|exact Hq].
  - split; [exact H921|]. split; [|exact Hn].
    apply not_true_is_false. intros Ht. apply Hn, Hdown, Ht.
Defined.

Example collection_needed_at_922 :
  let used := mkSegment 0 1 (replicate 1024 0) (1 :: replicate 1023 0) 0 in
  isGarbageCollectionNeeded
    (mkManager (replicate 922 used ++ replicate 102 zero_segment) 0 0 0 0%float) = true /\
  isGarbageCollectionNeeded
    (mkManager (replicate 921 used ++ replicate 103 zero_segment) 0 0 0 0%float) = false.
Proof. cbv zeta. split; vm_compute; reflexivity. Qed.

(** ** C10: the destination of the compaction *)

Lemma is_valid_write_byte i j s :
  0 <= i < SEGMENT_SIZE -> 0 <= j -> Z.of_nat (length (valid s)) = SEGMENT_SIZE ->
  is_valid (write_byte i s) j = is_valid s j || (j =? i).
Proof.
  intros Hi Hj Hlen. unfold is_valid at 1. rewrite valid_write_byte.
  destruct (Z.ltb_spec i SEGMENT_SIZE) as [_|]; [|lia]. cbn [andb].
  destruct (Z.eqb_spec j i) as [->|Hne].
  - destruct (is_valid s i) eqn:Hv; cbn [negb orb].
    + exact Hv.
    + rewrite read_write_same by lia. reflexivity.
  - rewrite orb_false_r. destruct (negb (is_valid s i)); [|reflexivity].
    rewrite read_write_other by lia. reflexivity.
Qed.

(** What holds before round [i] of the copy loop when the victim is not
    segment 0: segment 0 holds its own valid bytes and those of the victim
    below [i]; the flags of the victim from [i] on are as they were. *)
Definition copy_inv (v : nat) (s0 sv : Segment) (i : Z) (m : SegmentManager) : Prop :=
  gc_loop_inv seg_sound v i m /\
  (exists s0', segments m !! 0%nat = Some s0' /\
     forall j, 0 <= j < SEGMENT_SIZE ->
       is_valid s0' j = is_valid s0 j || ((j <? i) && is_valid sv j)) /\
  (exists sv', segments m !! v = Some sv' /\
     forall j, i <= j -> read (valid sv') j = read (valid sv) j).

Lemma copy_inv_step v s0 sv i m :
  v <> 0%nat -> 0 <= i < SEGMENT_SIZE ->
  copy_inv v s0 sv i m -> copy_inv v s0 sv (i + 1) (gc_copy_byte v 0 i m).
Proof.
  intros Hv Hi (Hloop & (s0' & Hs0' & Hflags) & (sv' & Hsv' & Hrest)).
  split; [apply (gc_copy_byte_inv seg_sound seg_sound_shape write_byte_sound); assumption|].
  destruct Hloop as [_ Hall]. destruct (Hall 0%nat s0' Hs0') as ([_ Hlen0] & _ & _).
  unfold gc_copy_byte. rewrite Hsv'.
  assert (Hsame : is_valid sv' i = is_valid sv i).
  { unfold is_valid. rewrite Hrest by lia. reflexivity. }
  destruct (is_valid sv' i) eqn:Hval.
  - cbn [segments update_segment writeToSegment set_segments]. split.
    + exists (write_byte i s0'). split.
      * rewrite list_lookup_alter_ne by exact Hv.
        rewrite list_lookup_alter_eq, Hs0'. cbn. rewrite write_loop_one by exact Hi.
        reflexivity.
      * intros j Hj. rewrite is_valid_write_byte by lia. rewrite Hflags by exact Hj.
        destruct (Z.eqb_spec j i) as [->|Hne].
        -- rewrite <- Hsame. destruct (Z.ltb_spec i (i + 1)); [|lia].
           rewrite !orb_true_r. reflexivity.
        -- rewrite orb_false_r. f_equal. f_equal. lia.
    + exists (clear_valid i sv'). split.
      * rewrite list_lookup_alter_eq, list_lookup_alter_ne by congruence.
        rewrite Hsv'. reflexivity.
      * intros j Hj. cbn [valid clear_valid set_valid].
        rewrite read_write_other by lia. apply Hrest. lia.
  - split.
    + exists s0'. split; [exact Hs0'|]. intros j Hj. rewrite Hflags by exact Hj.
      destruct (Z.eqb_spec j i) as [->|Hne].
      * rewrite <- Hsame. rewrite !andb_false_r. reflexivity.
      * f_equal. f_equal. lia.
    + exists sv'. split; [exact Hsv'|]. intros j Hj. apply Hrest. lia.
Qed.

Lemma compact_into_segment_0 v s0 sv m :
  pool seg_sound m -> v <> 0%nat ->
  segments m !! 0%nat = Some s0 -> segments m !! v = Some sv ->
  exists s0', segments (compact v 0 m) !! 0%nat = Some s0' /\
    forall j, 0 <= j < SEGMENT_SIZE -> is_valid s0' j = is_valid s0 j || is_valid sv j.
Proof.
  intros Hok Hv Hs0 Hsv.
  assert (H : copy_inv v s0 sv SEGMENT_SIZE (for_upto 0 SEGMENT_SIZE (gc_copy_byte v 0) m)).
  { apply (for_upto_indexed (gc_copy_byte v 0) (copy_inv v s0 sv)).
    - unfold SEGMENT_SIZE. lia.
    - intros i a Hi. apply copy_inv_step; assumption.
    - split; [apply (gc_loop_inv_start seg_sound seg_sound_shape), Hok|]. split.
      + exists s0. split; [exact Hs0|]. intros j Hj.
        destruct (Z.ltb_spec j 0); [lia|]. rewrite orb_false_r. reflexivity.
      + exists sv. split; [exact Hsv|]. reflexivity. }
  destruct H as (_ & (s0' & Hs0' & Hflags) & _).
  exists s0'. split.
  - unfold compact. cbn [segments update_segment set_segments].
    rewrite list_lookup_alter_ne by exact Hv. exact Hs0'.
  - intros j Hj. rewrite Hflags by exact Hj.
    destruct (Z.ltb_spec j SEGMENT_SIZE); [|lia]. reflexivity.
Qed.

(** C10.  In every state of the store, the allocation of zero bytes that
    picks the destination of the compaction returns segment 0, since
    [utilization + 0 <= SEGMENT_SIZE] holds there, full or not.  So a
    collection never ends for want of a destination; when the scan has
    chosen the victim [v], the collection compacts it into segment 0 and
    reclaims it.  When [v] is not segment 0, a position of segment 0 is
    valid afterwards exactly when it was valid before or was valid in the
    victim (a byte of the victim lands on a byte of segment 0 where both
    were valid, and is counted once); when [v] is segment 0 itself, the
    segment is reset and its valid bytes are gone. *)
Theorem C10_destination_is_segment_0 (m : SegmentManager) :
  well_formed m ->
  findSegmentForWrite m 0 = Some 0%nat /\
  snd (garbageCollect m) <> NoDestination /\
  (forall v, select_victim m = Some v ->
     garbageCollect m =
       (account_cost (compact v 0 m), VictimReclaimed (id_of m v) (gc_cost m)) /\
     exists s', segments (fst (garbageCollect m)) !! v = Some s' /\
       utilization s' = 0 /\ invalidatedBytes s' = 0 /\ count_valid (valid s') = 0) /\
  (forall v s0 sv, select_victim m = Some v -> v <> 0%nat ->
     segments m !! 0%nat = Some s0 -> segments m !! v = Some sv ->
     exists s0', segments (fst (garbageCollect m)) !! 0%nat = Some s0' /\
       (store_inv m -> utilization s0' = count_valid (valid s0')) /\
       forall j, 0 <= j < SEGMENT_SIZE ->
         is_valid s0' j = is_valid s0 j || is_valid sv j).
Proof.
  intros [Hok Hty]. pose proof (findSegmentForWrite_0 m Hok) as Hd.
  assert (Hgc : forall v, select_victim m = Some v ->
            garbageCollect m =
              (account_cost (compact v 0 m), VictimReclaimed (id_of m v) (gc_cost m))).
  { intros v Hv. unfold garbageCollect. rewrite Hv, Hd.
    rewrite gc_cost_compact, id_of_compact. reflexivity. }
  split; [exact Hd|]. split; [|split].
  - destruct (select_victim m) as [v|] eqn:Hv.
    + rewrite (Hgc v eq_refl). cbn [snd]. discriminate.
    + unfold garbageCollect. rewrite Hv. cbn [snd]. discriminate.
  - intros v Hv. split; [apply Hgc, Hv|].
    rewrite (Hgc v Hv). cbn [fst]. rewrite segments_account_cost.
    destruct (select_victim_Some m v Hv) as (s & Hs & _).
    apply (victim_is_reset v 0%nat m s Hok Hs).
  - intros v s0 sv Hv Hne Hs0 Hsv.
    rewrite (Hgc v Hv). cbn [fst]. rewrite segments_account_cost.
    destruct (compact_into_segment_0 v s0 sv m Hok Hne Hs0 Hsv) as (s0' & Hs0' & Hflags).
    exists s0'. split; [exact Hs0'|]. split; [|exact Hflags].
    intros Hinv.
    assert (Hstrong : store_ok m).
    { apply store_ok_iff. split; [|exact Hinv].
      destruct Hok as [Hlen Hall]. split; [exact Hlen|].
      eapply Forall_impl; [exact Hall|]. intros x Hx. apply Hx. }
    destruct (compact_ok v 0%nat m Hstrong) as [_ Hall].
    apply (Forall_lookup_1 _ _ _ _ Hall Hs0').
Qed.

(** A store in which segment 1 is the victim and shares a valid position
    with segment 0: writes fill segment 0, then go to segment 1. *)
Definition colliding : SegmentManager :=
  run (initSegmentManager zero_memory)
      [OpWrite (mkRequest 0 1024); OpWrite (mkRequest 7 2); OpWrite (mkRequest 7 1)].

(** C10, witness: on that store the collection reclaims segment 1 into
    segment 0, which was full: the two valid bytes of the victim land on
    valid bytes, and [utilization] of segment 0 stays 1024. *)
Lemma C10_destination_is_segment_0_witness :
  findSegmentForWrite colliding 0 = Some 0%nat /\
  select_victim colliding = Some 1%nat /\
  snd (garbageCollect colliding) <> NoDestination /\
  (utilization <$> segments colliding !! 1%nat) = Some 2 /\
  (utilization <$> segments (fst (garbageCollect colliding)) !! 0%nat) = Some 1024 /\
  (utilization <$> segments (fst (garbageCollect colliding)) !! 1%nat) = Some 0.
Proof.
  assert (Hok : well_formed colliding).
  { apply run_well_formed; [typed_ops|].
    apply initSegmentManager_well_formed, zero_memory_shape. }
  destruct (C10_destination_is_segment_0 colliding Hok) as (Hd & Hnd & _).
  split; [exact Hd|]. split; [vm_compute; reflexivity|]. split; [exact Hnd|].
  split; [vm_compute; reflexivity|]. split; vm_compute; reflexivity.
Defined.

(** ** C5: overwrites *)

Lemma processWriteRequest_accepted m r k :
  findSegmentForWrite m (size r) = Some k ->
  processWriteRequest m r = (commit_write m k r, Accepted None).
Proof. intros H. unfold processWriteRequest. rewrite H. reflexivity. Qed.

Lemma well_formed_lookup m k s :
  well_formed m -> segments m !! k = Some s ->
  seg_sound s /\ typed_seg s /\ u64 (totalInvalidated m).
Proof.
  intros [[_ Hall] (_ & Hi & _ & Hty)] Hs.
  split; [apply (Forall_lookup_1 _ _ _ _ Hall Hs)|].
  split; [apply (Forall_lookup_1 _ _ _ _ Hty Hs)|exact Hi].
Qed.

Lemma zero_prefix_app n a :
  (n <= length a)%nat -> zero_prefix n a = replicate n 0 ++ drop n a.
Proof.
  revert a. induction n as [|n IH]; intros [|x a] Hn; cbn in *; try reflexivity; try lia.
  f_equal. apply IH. lia.
Qed.

(** The scenario of the specification on the first segment, in terms of
    the closed form of an accepted write. *)
Lemma fresh_segment_flags i s :
  seg_shape s ->
  valid (init_segment i s) = replicate 256 0 ++ drop 256 (valid s).
Proof.
  intros [_ Hv]. cbn [valid init_segment]. unfold memset0.
  change (Z.to_nat (SEGMENT_SIZE / SIZEOF_INT)) with 256%nat.
  apply zero_prefix_app. unfold SEGMENT_SIZE in Hv. lia.
Qed.

Lemma first_write_of_scenario i s :
  seg_shape s ->
  let s1 := committed (init_segment i s) 0 5 in
  utilization s1 = 5 /\ invalidatedBytes s1 = 0 /\
  count_valid (window (valid (init_segment i s)) 0 5) = 0 /\
  valid s1 = replicate 5 1 ++ replicate 251 0 ++ drop 256 (valid s).
Proof.
  intros Hsh. cbv zeta.
  assert (Hw : window (valid (init_segment i s)) 0 5 = replicate 5 0).
  { unfold window. rewrite (fresh_segment_flags i s Hsh).
    change (Z.to_nat 0) with 0%nat. rewrite drop_0.
    rewrite take_app_le by (rewrite length_replicate; lia).
    rewrite take_replicate. reflexivity. }
  unfold committed. cbv zeta. rewrite Hw.
  cbn [utilization invalidatedBytes valid].
  change (utilization (init_segment i s)) with 0.
  change (invalidatedBytes (init_segment i s)) with 0.
  split; [reflexivity|]. split; [reflexivity|]. split; [reflexivity|].
  rewrite (fresh_segment_flags i s Hsh).
  unfold splice. change (Z.to_nat 0) with 0%nat.
  rewrite take_0, !length_replicate. cbn [app Nat.add].
  rewrite drop_app_le by (rewrite length_replicate; lia).
  rewrite drop_replicate. reflexivity.
Qed.

Lemma scenario_over_any_storage m0 :
  shape m0 ->
  let m1 := initSegmentManager m0 in
  let m2 := step m1 (OpWrite (mkRequest 0 5)) in
  let m3 := step m2 (OpWrite (mkRequest 2 3)) in
  findSegmentForWrite m1 5 = Some 0%nat /\
  findSegmentForWrite m2 3 = Some 0%nat /\
  (utilization <$> segments m3 !! 0%nat) = Some 5 /\
  (invalidatedBytes <$> segments m3 !! 0%nat) = Some 3 /\
  totalInvalidated m3 = 3 /\
  totalWrites m3 = 2.
Proof.
  intros Hsh. cbv zeta.
  pose proof (initSegmentManager_well_formed m0 Hsh) as Hwf1.
  destruct Hsh as [Hlen Hall].
  destruct (segments m0) as [|s0 rest] eqn:Hm0;
    [unfold NUM_SEGMENTS in Hlen; cbn in Hlen; lia|].
  assert (Hs0 : seg_shape s0) by (inversion Hall; assumption).
  set (m1 := initSegmentManager m0) in *.
  assert (Hseg1 : segments m1 = init_segment 0 s0 :: init_segments 1 rest).
  { unfold m1, initSegmentManager. cbn [segments]. rewrite Hm0. reflexivity. }
  assert (Hf1 : findSegmentForWrite m1 5 = Some 0%nat).
  { unfold findSegmentForWrite. rewrite Hseg1. reflexivity. }
  assert (Hl1 : segments m1 !! 0%nat = Some (init_segment 0 s0)) by (rewrite Hseg1; reflexivity).
  destruct (well_formed_lookup m1 0%nat _ Hwf1 Hl1) as (Hsound1 & Hty1 & Hti1).
  destruct (first_write_of_scenario 0 s0 Hs0) as (Hu1 & Hi1 & Hc1 & Hv1).
  set (r1 := mkRequest 0 5) in *.
  assert (Hm2 : step m1 (OpWrite r1) =
                mkManager (committed (init_segment 0 s0) 0 5 :: init_segments 1 rest)
                          1 0 0 0%float).
  { cbn [step]. rewrite (processWriteRequest_accepted m1 r1 0%nat Hf1). cbn [fst].
    rewrite (commit_write_effect m1 0%nat r1 _ Hl1 (proj1 Hsound1) Hty1 Hti1)
      by (cbn; lia).
    unfold touched. change (rounds (offset r1) (size r1)) with 5%nat.
    change (offset r1) with 0. rewrite Hc1, Hseg1. reflexivity. }
  rewrite Hm2.
  set (s1 := committed (init_segment 0 s0) 0 5) in *.
  set (m2 := mkManager (s1 :: init_segments 1 rest) 1 0 0 0%float).
  assert (Hwf2 : well_formed m2).
  { unfold m2. rewrite <- Hm2. apply step_well_formed; [|exact Hwf1].
    split; unfold u64, UINT64_MAX; cbn; lia. }
  assert (Hf2 : findSegmentForWrite m2 3 = Some 0%nat).
  { unfold findSegmentForWrite, m2. cbn [segments first_fit]. unfold fits.
    rewrite Hu1. reflexivity. }
  assert (Hl2 : segments m2 !! 0%nat = Some s1) by reflexivity.
  destruct (well_formed_lookup m2 0%nat _ Hwf2 Hl2) as (Hsound2 & Hty2 & Hti2).
  set (r2 := mkRequest 2 3) in *.
  assert (Ht2 : touched s1 r2 = [1; 1; 1]).
  { unfold touched, window. change (rounds (offset r2) (size r2)) with 3%nat.
    change (Z.to_nat (offset r2)) with 2%nat. rewrite Hv1. reflexivity. }
  split; [exact Hf1|]. split; [exact Hf2|].
  cbn [step]. rewrite (processWriteRequest_accepted m2 r2 0%nat Hf2). cbn [fst].
  rewrite (commit_write_effect m2 0%nat r2 _ Hl2 (proj1 Hsound2) Hty2 Hti2)
    by (cbn; lia).
  cbn [segments totalInvalidated totalWrites m2]. rewrite Ht2.
  destruct (committed_fields s1 r2 Hsound2) as (Hu2 & Hi2 & _ & _).
  rewrite Ht2 in Hu2, Hi2. rewrite Hu1 in Hu2. rewrite Hi1 in Hi2.
  change (<[0%nat := committed s1 (offset r2) (rounds (offset r2) (size r2))]>
            (s1 :: init_segments 1 rest) !! 0%nat)
    with (Some (committed s1 (offset r2) (rounds (offset r2) (size r2)))).
  cbn [fmap option_fmap option_map]. rewrite Hu2, Hi2.
  split; [reflexivity|]. split; [reflexivity|]. split; reflexivity.
Qed.

(** C5.  On a store just initialised, whatever its storage held,
    [write(0, 5)] and then [write(2, 3)] both go to segment 0 and leave it
    with [utilization = 5] and [invalidatedBytes = 3], and the store with
    [totalInvalidated = 3] and [totalWrites = 2].  In general, in every
    state of the store, when a write is accepted by a segment,
    [utilization] grows by the number of positions reached that were not
    valid, so that overwriting valid positions leaves it as it was, while
    [invalidatedBytes] and [totalInvalidated] grow, as [uint64_t] counters
    do, by the number of positions reached that were valid. *)
Theorem C5_overwrite_accounting (m0 : SegmentManager) :
  shape m0 ->
  (let m1 := initSegmentManager m0 in
   let m2 := step m1 (OpWrite (mkRequest 0 5)) in
   let m3 := step m2 (OpWrite (mkRequest 2 3)) in
   findSegmentForWrite m1 5 = Some 0%nat /\
   findSegmentForWrite m2 3 = Some 0%nat /\
   (utilization <$> segments m3 !! 0%nat) = Some 5 /\
   (invalidatedBytes <$> segments m3 !! 0%nat) = Some 3 /\
   totalInvalidated m3 = 3 /\
   totalWrites m3 = 2) /\
  (forall m r k s,
     reachable m0 m -> request_typed r ->
     findSegmentForWrite m (size r) = Some k -> segments m !! k = Some s ->
     let m' := fst (processWriteRequest m r) in
     let reached := Z.of_nat (length (touched s r)) in
     let were_valid := count_valid (touched s r) in
     exists s', segments m' !! k = Some s' /\
       utilization s' = utilization s + (reached - were_valid) /\
       (were_valid = reached -> utilization s' = utilization s) /\
       invalidatedBytes s' = wrap64 (invalidatedBytes s + were_valid) /\
       totalInvalidated m' = wrap64 (totalInvalidated m + were_valid) /\
       totalWrites m' = wrap64 (totalWrites m + 1)).
Proof.
  intros Hsh. split; [apply scenario_over_any_storage, Hsh|].
  intros m r k s Hreach [[Hoff _] _] Hk Hs. cbv zeta.
  pose proof (reachable_well_formed m0 m Hsh Hreach) as Hwf.
  destruct (well_formed_lookup m k s Hwf Hs) as (Hok & Hty & Hti).
  rewrite (processWriteRequest_accepted m r k Hk). cbn [fst].
  rewrite (commit_write_effect m k r s Hs (proj1 Hok) Hty Hti Hoff).
  cbn [segments totalWrites totalInvalidated].
  destruct (committed_fields s r Hok) as (Hu & Hi & _ & _).
  eexists. split; [apply list_lookup_insert_eq; apply lookup_lt_Some in Hs; exact Hs|].
  split; [exact Hu|]. split; [intros Heq; rewrite Hu, Heq; lia|].
  split; [exact Hi|]. split; reflexivity.
Qed.

(** C5, witness: the scenario over zeroed storage, by evaluation, and the
    statement at that storage. *)
Lemma C5_overwrite_accounting_witness :
  (utilization <$> segments two_writes !! 0%nat) = Some 5 /\
  (invalidatedBytes <$> segments two_writes !! 0%nat) = Some 3 /\
  (let m1 := initSegmentManager zero_memory in
   let m2 := step m1 (OpWrite (mkRequest 0 5)) in
   let m3 := step m2 (OpWrite (mkRequest 2 3)) in
   findSegmentForWrite m1 5 = Some 0%nat /\
   findSegmentForWrite m2 3 = Some 0%nat /\
   (utilization <$> segments m3 !! 0%nat) = Some 5 /\
   (invalidatedBytes <$> segments m3 !! 0%nat) = Some 3 /\
   totalInvalidated m3 = 3 /\
   totalWrites m3 = 2).
Proof.
  split; [vm_compute; reflexivity|]. split; [vm_compute; reflexivity|].
  apply (C5_overwrite_accounting zero_memory). apply zero_memory_shape.
Defined.

(** The second write of the scenario as an instance of the general
    statement: the three positions it reaches were valid. *)
Example overwrite_instance :
  let m := step (initSegmentManager zero_memory) (OpWrite (mkRequest 0 5)) in
  ((fun s => touched s (mkRequest 2 3)) <$> segments m !! 0%nat) = Some [1; 1; 1].
Proof. vm_compute. reflexivity. Qed.

(** ** C7: the counters over an operation *)

(** [invalidatedBytes] of the segment of index [k], if there is one. *)
Definition inv_at (m : SegmentManager) (k : nat) : option Z :=
  invalidatedBytes <$> segments m !! k.

Lemma inv_at_alter m k f j :
  (forall s, invalidatedBytes (f s) = invalidatedBytes s) ->
  inv_at (update_segment k f m) j = inv_at m j.
Proof.
  intros Hf. unfold inv_at, update_segment. cbn [segments set_segments].
  destruct (decide (k = j)) as [->|Hne].
  - rewrite list_lookup_alter_eq. destruct (segments m !! j); cbn; [f_equal; apply Hf|reflexivity].
  - rewrite list_lookup_alter_ne by exact Hne. reflexivity.
Qed.

Lemma inv_at_alter_ne m k f j : k <> j -> inv_at (update_segment k f m) j = inv_at m j.
Proof.
  intros Hne. unfold inv_at, update_segment. cbn [segments set_segments].
  rewrite list_lookup_alter_ne by exact Hne. reflexivity.
Qed.

Lemma invalidatedBytes_write_byte i s : invalidatedBytes (write_byte i s) = invalidatedBytes s.
Proof.
  unfold write_byte. destruct (i <? SEGMENT_SIZE); [|reflexivity].
  destruct (negb _); reflexivity.
Qed.

Lemma invalidatedBytes_write_loop off sz s :
  invalidatedBytes (write_loop off sz s) = invalidatedBytes s.
Proof.
  apply (for_upto_invariant write_byte (fun s' => invalidatedBytes s' = invalidatedBytes s));
    [|reflexivity].
  intros i a Ha. rewrite invalidatedBytes_write_byte. exact Ha.
Qed.

Lemma inv_at_gc_copy_byte v d i m j : inv_at (gc_copy_byte v d i m) j = inv_at m j.
Proof.
  unfold gc_copy_byte. destruct (segments m !! v) as [s|]; [|reflexivity].
  destruct (is_valid s i); [|reflexivity].
  rewrite inv_at_alter by reflexivity.
  apply inv_at_alter. intros s'. apply invalidatedBytes_write_loop.
Qed.

(** The compaction changes [invalidatedBytes] of the victim only. *)
Lemma inv_at_compact v d m j : j <> v -> inv_at (compact v d m) j = inv_at m j.
Proof.
  intros Hne. unfold compact. rewrite inv_at_alter_ne by congruence.
  apply (for_upto_invariant (gc_copy_byte v d) (fun m' => inv_at m' j = inv_at m j));
    [|reflexivity].
  intros i a Ha. rewrite inv_at_gc_copy_byte. exact Ha.
Qed.

(** The segment that a collection reclaims, if it reclaims one. *)
Definition gc_reclaims (m : SegmentManager) : option nat :=
  match select_victim m, findSegmentForWrite m 0 with
  | Some v, Some _ => Some v
  | _, _ => None
  end.

(** The segment that an operation reclaims: a write collects only when
    its first allocation finds no segment. *)
Definition reclaims (m : SegmentManager) (op : Op) : option nat :=
  match op with
  | OpCollect => gc_reclaims m
  | OpWrite r =>
      match findSegmentForWrite m (size r) with
      | Some _ => None
      | None => gc_reclaims m
      end
  end.

Lemma inv_at_account_cost m k : inv_at (account_cost m) k = inv_at m k.
Proof. unfold inv_at. rewrite segments_account_cost. reflexivity. Qed.

Lemma garbageCollect_effect m :
  pool seg_sound m ->
  let m' := fst (garbageCollect m) in
  totalWrites m' = totalWrites m /\
  totalInvalidated m' = totalInvalidated m /\
  (gcCount m' = gcCount m \/ gcCount m' = wrap64 (gcCount m + 1)) /\
  forall k, if decide (gc_reclaims m = Some k)
            then exists s', segments m' !! k = Some s' /\
                   invalidatedBytes s' = 0 /\ count_valid (valid s') = 0
            else inv_at m' k = inv_at m k.
Proof.
  intros Hok. cbv zeta. destruct (garbageCollect_writes m) as [Hw Hi].
  split; [exact Hw|]. split; [exact Hi|]. unfold gc_reclaims.
  destruct (garbageCollect_cases m) as [[Hgc Hv]|[[Hgc [Hv Hd]]|(v & d & Hv & Hd & Hgc)]];
    rewrite Hgc; cbn [fst].
  - split; [left; reflexivity|]. intros k. rewrite Hv.
    destruct (decide _); [discriminate|reflexivity].
  - split; [left; reflexivity|]. intros k. rewrite Hd.
    destruct (select_victim m); destruct (decide _); try discriminate; reflexivity.
  - destruct (account_cost_fields (compact v d m)) as (_ & _ & Hg & _).
    destruct (compact_counters v d m) as (_ & _ & Hg' & _).
    split; [right; rewrite Hg, Hg'; reflexivity|].
    intros k. rewrite Hv, Hd, inv_at_account_cost, segments_account_cost.
    destruct (decide (Some v = Some k)) as [[= <-]|Hne].
    + destruct (select_victim_Some m v Hv) as (s & Hs & _).
      destruct (victim_is_reset v d m s Hok Hs) as (s' & Hs' & _ & Hi' & Hc').
      exists s'. split; [exact Hs'|]. split; assumption.
    + apply inv_at_compact. congruence.
Qed.

Lemma commit_write_counters m k r s :
  well_formed m -> 0 <= offset r -> segments m !! k = Some s ->
  let m' := commit_write m k r in
  let n := count_valid (touched s r) in
  0 <= n <= SEGMENT_SIZE /\ n <= count_valid (valid s) /\
  totalWrites m' = wrap64 (totalWrites m + 1) /\
  totalInvalidated m' = wrap64 (totalInvalidated m + n) /\
  gcCount m' = gcCount m /\
  forall j, inv_at m' j =
            if decide (j = k) then Some (wrap64 (invalidatedBytes s + n)) else inv_at m j.
Proof.
  intros Hwf Hoff Hs. cbv zeta.
  destruct (well_formed_lookup m k s Hwf Hs) as (Hok & Hty & Hti).
  rewrite (commit_write_effect m k r s Hs (proj1 Hok) Hty Hti Hoff).
  cbn [totalWrites totalInvalidated gcCount].
  destruct (touched_bounds s r (proj1 Hok)) as [Hc Hl].
  split; [lia|]. split; [apply count_valid_window_le|].
  split; [reflexivity|]. split; [reflexivity|]. split; [reflexivity|].
  intros j. unfold inv_at. cbn [segments].
  destruct (decide (j = k)) as [->|Hne].
  - rewrite list_lookup_insert_eq by (apply lookup_lt_Some in Hs; exact Hs). reflexivity.
  - rewrite list_lookup_insert_ne by congruence. reflexivity.
Qed.

(** A counter that one more operation cannot make wrap: an operation adds
    at most [SEGMENT_SIZE] to a byte counter. *)
Definition room (x : Z) : Prop := x + SEGMENT_SIZE <= UINT64_MAX.

Lemma wrap64_grow x n : u64 x -> 0 <= n -> x + n <= UINT64_MAX -> x <= wrap64 (x + n).
Proof. intros [Hx _] Hn Hsum. rewrite wrap64_small by lia. lia. Qed.

Lemma inv_at_Some m k s : segments m !! k = Some s -> inv_at m k = Some (invalidatedBytes s).
Proof. intros H. unfold inv_at. rewrite H. reflexivity. Qed.

Lemma inv_at_inv m k x :
  inv_at m k = Some x -> exists s, segments m !! k = Some s /\ invalidatedBytes s = x.
Proof.
  unfold inv_at. destruct (segments m !! k) as [s|]; [|discriminate].
  intros H. exists s. split; [reflexivity|]. injection H as H. exact H.
Qed.

Lemma findSegmentForWrite_lookup m sz k :
  findSegmentForWrite m sz = Some k -> exists s, segments m !! k = Some s.
Proof. intros H. apply findSegmentForWrite_Some in H as (s & Hs & _). eauto. Qed.

(** The write proper, once a target is found. *)
Lemma commit_write_monotone m t r :
  well_formed m -> 0 <= offset r -> findSegmentForWrite m (size r) = Some t ->
  let m' := commit_write m t r in
  (totalWrites m < UINT64_MAX -> totalWrites m <= totalWrites m') /\
  (room (totalInvalidated m) -> totalInvalidated m <= totalInvalidated m') /\
  gcCount m' = gcCount m /\
  forall k old new, inv_at m k = Some old -> inv_at m' k = Some new ->
    (room old -> old <= new) /\
    ((exists s, segments m !! k = Some s /\ count_valid (valid s) = 0) -> new = old).
Proof.
  intros Hwf Hoff Ht. cbv zeta.
  destruct (findSegmentForWrite_lookup m _ t Ht) as [s Hs].
  destruct (commit_write_counters m t r s Hwf Hoff Hs) as (Hn & Hnc & Hw & Hi & Hg & Hinv).
  destruct (well_formed_lookup m t s Hwf Hs) as (_ & [_ Hsi] & Hti).
  destruct Hwf as [_ (Htw & _)].
  split; [|split; [|split; [exact Hg|]]].
  - intros Hlt. rewrite Hw. apply wrap64_grow; [exact Htw|lia|lia].
  - unfold room. intros Hroom. rewrite Hi. apply wrap64_grow; [exact Hti|lia|lia].
  - intros k old new Hold Hnew. rewrite Hinv in Hnew.
    destruct (decide (k = t)) as [->|Hne].
    + rewrite (inv_at_Some m t s Hs) in Hold. injection Hold as <-. injection Hnew as <-.
      split.
      * unfold room. intros Hroom. apply wrap64_grow; [exact Hsi|lia|lia].
      * intros (s0 & Hs0 & Hc0). rewrite Hs in Hs0. injection Hs0 as <-.
        replace (count_valid (touched s r)) with 0 by lia.
        rewrite Z.add_0_r. apply wrap64_small, Hsi.
    + rewrite Hold in Hnew. injection Hnew as <-. split; [lia|reflexivity].
Qed.

(** C7, as amended.  Over an operation on a well-formed store,
    [totalWrites] and [gcCount] do not decrease unless they stand at
    [UINT64_MAX], and [totalInvalidated] does not decrease while it has
    room for the bytes of one more segment: they are 64-bit counters, and
    an addition that passes [UINT64_MAX] wraps.  A segment's
    [invalidatedBytes] is 0 after an operation that reclaimed the segment as
    the victim of a collection; after any other operation it has not
    decreased, with the same proviso. *)
Theorem C7_counters_monotone (m : SegmentManager) (op : Op) :
  well_formed m -> op_typed op ->
  let m' := step m op in
  (totalWrites m < UINT64_MAX -> totalWrites m <= totalWrites m') /\
  (room (totalInvalidated m) -> totalInvalidated m <= totalInvalidated m') /\
  (gcCount m < UINT64_MAX -> gcCount m <= gcCount m') /\
  forall k old new, inv_at m k = Some old -> inv_at m' k = Some new ->
    if decide (reclaims m op = Some k) then new = 0 else (room old -> old <= new).
Proof.
  intros Hwf Hreq. cbv zeta.
  pose proof (garbageCollect_effect m (proj1 Hwf)) as Hgc. cbv zeta in Hgc.
  destruct Hgc as (Hgw & Hgi & Hgg & Hginv).
  assert (Hgcount : gcCount m < UINT64_MAX -> gcCount m <= gcCount (fst (garbageCollect m))).
  { intros Hlt. destruct Hwf as [_ (_ & _ & Hg & _)].
    destruct Hgg as [->| ->]; [lia|]. apply wrap64_grow; [exact Hg|lia|lia]. }
  assert (Hgcinv : forall k old new, inv_at m k = Some old ->
            inv_at (fst (garbageCollect m)) k = Some new ->
            if decide (gc_reclaims m = Some k) then new = 0 else new = old).
  { intros k old new Hold Hnew. specialize (Hginv k).
    destruct (decide (gc_reclaims m = Some k)).
    - destruct Hginv as (s' & Hs' & Hi' & _).
      rewrite (inv_at_Some _ _ _ Hs') in Hnew. congruence.
    - congruence. }
  destruct op as [r|]; cbn [step reclaims].
  2:{ rewrite Hgw, Hgi. split; [lia|]. split; [lia|]. split; [exact Hgcount|].
      intros k old new Hold Hnew. specialize (Hgcinv k old new Hold Hnew).
      destruct (decide (gc_reclaims m = Some k)); [exact Hgcinv|lia]. }
  destruct Hreq as [[Hreq _] _]. unfold processWriteRequest.
  destruct (findSegmentForWrite m (size r)) as [t|] eqn:Ht.
  - cbn [fst].
    destruct (commit_write_monotone m t r Hwf Hreq Ht) as (Hw & Hi & Hg & Hinv).
    split; [exact Hw|]. split; [exact Hi|]. split; [rewrite Hg; lia|].
    intros k old new Hold Hnew.
    destruct (decide (None = Some k)); [discriminate|].
    apply (Hinv k old new Hold Hnew).
  - pose proof (step_well_formed m OpCollect I Hwf) as Hwf1. cbn [step] in Hwf1.
    destruct (garbageCollect m) as [m1 g]. cbn [fst] in *.
    destruct (findSegmentForWrite m1 (size r)) as [t|] eqn:Ht1; cbn [fst].
    + destruct (commit_write_monotone m1 t r Hwf1 Hreq Ht1) as (Hw & Hi & Hg & Hinv).
      rewrite Hgw in Hw. rewrite Hgi in Hi. rewrite Hg.
      split; [exact Hw|]. split; [exact Hi|]. split; [exact Hgcount|].
      intros k old new Hold Hnew.
      destruct (inv_at m1 k) as [mid|] eqn:Hmid.
      2:{ apply inv_at_inv in Hold as (s & Hs & _). apply lookup_lt_Some in Hs.
          unfold inv_at in Hmid. destruct (segments m1 !! k) eqn:E; [discriminate|].
          apply lookup_ge_None in E. destruct Hwf as [[Hl _] _], Hwf1 as [[Hl1 _] _]. lia. }
      specialize (Hgcinv k old mid Hold Hmid). specialize (Hginv k).
      destruct (Hinv k mid new Hmid Hnew) as [Hmono Hzero].
      destruct (decide (gc_reclaims m = Some k)).
      * destruct Hginv as (s' & Hs' & _ & Hc'). rewrite Hzero; [exact Hgcinv|].
        exists s'. split; assumption.
      * subst mid. exact Hmono.
    + rewrite Hgw, Hgi. split; [lia|]. split; [lia|]. split; [exact Hgcount|].
      intros k old new Hold Hnew. specialize (Hgcinv k old new Hold Hnew).
      destruct (decide (gc_reclaims m = Some k)); [exact Hgcinv|lia].
Qed.

Lemma two_writes_well_formed : well_formed two_writes.
Proof.
  apply run_well_formed; [typed_ops|].
  apply initSegmentManager_well_formed, zero_memory_shape.
Qed.

(** C7, witness: the collection of [two_writes], which reclaims segment 0. *)
Lemma C7_counters_monotone_witness :
  reclaims two_writes OpCollect = Some 0%nat /\
  inv_at two_writes 0 = Some 3 /\
  inv_at (step two_writes OpCollect) 0 = Some 0 /\
  let m := two_writes in
  let m' := step two_writes OpCollect in
  (totalWrites m < UINT64_MAX -> totalWrites m <= totalWrites m') /\
  (room (totalInvalidated m) -> totalInvalidated m <= totalInvalidated m') /\
  (gcCount m < UINT64_MAX -> gcCount m <= gcCount m') /\
  forall k old new, inv_at m k = Some old -> inv_at m' k = Some new ->
    if decide (reclaims m OpCollect = Some k) then new = 0 else (room old -> old <= new).
Proof.
  split; [vm_compute; reflexivity|]. split; [vm_compute; reflexivity|].
  split; [vm_compute; reflexivity|].
  apply (C7_counters_monotone two_writes OpCollect).
  - apply run_well_formed; [typed_ops|].
    apply initSegmentManager_well_formed, zero_memory_shape.
  - exact I.
Defined.

(** A request of no bytes is accepted by segment 0 and counted. *)
Lemma null_write m :
  pool seg_sound m ->
  step m (OpWrite (mkRequest 0 0)) = set_totalWrites m (wrap64 (totalWrites m + 1)).
Proof.
  intros Hok. cbn [step]. rewrite (processWriteRequest_accepted m _ 0%nat)
    by (apply findSegmentForWrite_0, Hok).
  destruct (pool_head _ m Hok) as (s0 & Hs0 & _).
  cbn [fst]. unfold commit_write, invalidateOldData. cbn [offset size]. rewrite Hs0.
  unfold invalidate_loop. rewrite for_upto_empty by (vm_compute; discriminate).
  rewrite list_insert_id by exact Hs0.
  unfold writeToSegment, update_segment.
  rewrite list_alter_id.
  - destruct m; reflexivity.
  - intros s. unfold write_loop. apply for_upto_empty. vm_compute. discriminate.
Qed.

Lemma pool_set_totalWrites Q m n : pool Q m -> pool Q (set_totalWrites m n).
Proof. apply pool_segments. reflexivity. Qed.

Lemma null_request_typed : op_typed (OpWrite (mkRequest 0 0)).
Proof. split; apply u64_0. Qed.

Lemma reachable_null_writes m0 m (n : nat) :
  well_formed m -> reachable m0 m ->
  reachable m0 (set_totalWrites m (wrap64 (totalWrites m + Z.of_nat n))).
Proof.
  intros [Hok (Hw & _)] Hr. induction n as [|n IH].
  - rewrite Z.add_0_r, u64_wrap64 by exact Hw. destruct m; exact Hr.
  - pose proof (reach_step m0 _ (OpWrite (mkRequest 0 0)) null_request_typed IH) as H.
    rewrite null_write in H by (apply pool_set_totalWrites, Hok).
    cbn [totalWrites set_totalWrites segments totalInvalidated gcCount totalGcCost] in H.
    rewrite wrap64_add_l in H.
    replace (totalWrites m + Z.of_nat n + 1) with (totalWrites m + Z.of_nat (S n)) in H by lia.
    exact H.
Qed.

(** C7, counterexample.  The store [two_writes] with [totalWrites] at
    [UINT64_MAX] is a state of the store: requests of no bytes lead to it.
    One more request makes [totalWrites] 0. *)
Lemma C7_totalWrites_wraps :
  reachable zero_memory (with_writes UINT64_MAX) /\
  totalWrites (with_writes UINT64_MAX) = UINT64_MAX /\
  totalWrites (step (with_writes UINT64_MAX) (OpWrite (mkRequest 0 1))) = 0.
Proof.
  split; [|split; [reflexivity|vm_compute; reflexivity]].
  assert (Hr : reachable zero_memory two_writes) by (apply reachable_run; typed_ops).
  pose proof (reachable_null_writes zero_memory two_writes (Z.to_nat (UINT64_MAX - 2))
                two_writes_well_formed Hr) as H.
  rewrite Z2Nat.id in H by (unfold UINT64_MAX; lia).
  replace (totalWrites two_writes) with 2 in H by (vm_compute; reflexivity).
  replace (wrap64 (2 + (UINT64_MAX - 2))) with UINT64_MAX in H by (vm_compute; reflexivity).
  exact H.
Qed.

(** ** C9: first fit *)

(** X3.  In a state of the store and for a size that cannot make the sum wrap,
    the allocator returns the first segment, in the order of the indices,
    with [utilization + size <= SEGMENT_SIZE], and none exactly when there
    is no such segment. *)
Lemma allocator_first_fit m sz :
  well_formed m -> 0 <= sz <= UINT64_MAX - SEGMENT_SIZE ->
  (forall k, findSegmentForWrite m sz = Some k <->
     exists s, segments m !! k = Some s /\ utilization s + sz <= SEGMENT_SIZE /\
       forall j s', (j < k)%nat -> segments m !! j = Some s' ->
                    ~ utilization s' + sz <= SEGMENT_SIZE) /\
  (findSegmentForWrite m sz = None <->
     forall s, s ∈ segments m -> ~ utilization s + sz <= SEGMENT_SIZE).
Proof.
  intros [[_ Hall] _] Hsz.
  assert (Hfit : forall s, s ∈ segments m ->
            (fits sz s = true <-> utilization s + sz <= SEGMENT_SIZE) /\
            (fits sz s = false <-> ~ utilization s + sz <= SEGMENT_SIZE)).
  { intros s Hs. rewrite Forall_forall in Hall.
    pose proof (seg_sound_range s (Hall s Hs)) as Hr.
    assert (H : fits sz s = true <-> utilization s + sz <= SEGMENT_SIZE)
      by (apply fits_exact; lia).
    split; [exact H|]. rewrite <- H. destruct (fits sz s); split; congruence. }
  split.
  - intros k. rewrite findSegmentForWrite_Some. split.
    + intros (s & Hs & Hf & Hfirst). exists s. split; [exact Hs|]. split.
      * apply Hfit; [apply list_elem_of_lookup; eauto|exact Hf].
      * intros j s' Hj Hs'. apply Hfit; [apply list_elem_of_lookup; eauto|].
        apply (Hfirst j s' Hj Hs').
    + intros (s & Hs & Hf & Hfirst). exists s. split; [exact Hs|]. split.
      * apply Hfit; [apply list_elem_of_lookup; eauto|exact Hf].
      * intros j s' Hj Hs'. apply Hfit; [apply list_elem_of_lookup; eauto|].
        apply (Hfirst j s' Hj Hs').
  - rewrite findSegmentForWrite_None. split; intros H s Hs; apply Hfit; auto.
Qed.

(** X3, witness. *)
Lemma allocator_first_fit_witness :
  findSegmentForWrite two_writes 1020 = None <->
  forall s, s ∈ segments two_writes -> ~ utilization s + 1020 <= SEGMENT_SIZE.
Proof.
  apply (allocator_first_fit two_writes 1020 two_writes_well_formed).
  unfold UINT64_MAX, SEGMENT_SIZE. lia.
Defined.

(** A store initialised over zeroed storage, after one write of one byte. *)
Definition one_byte : SegmentManager :=
  run (initSegmentManager zero_memory) [OpWrite (mkRequest 0 1)].

Lemma one_byte_well_formed : well_formed one_byte.
Proof.
  apply run_well_formed; [typed_ops|].
  apply initSegmentManager_well_formed, zero_memory_shape.
Qed.

(** C9, at the failing input.  For the size [UINT64_MAX] no segment of
    [one_byte] satisfies [utilization + size <= SEGMENT_SIZE], yet the
    allocator returns segment 0: its [utilization] is 1, and the 64-bit sum
    [1 + UINT64_MAX] is 0. *)
Lemma C9_wrapped_sum_is_allocated :
  (forall s, s ∈ segments one_byte -> ~ utilization s + UINT64_MAX <= SEGMENT_SIZE) /\
  (utilization <$> segments one_byte !! 0%nat) = Some 1 /\
  findSegmentForWrite one_byte UINT64_MAX = Some 0%nat.
Proof.
  split; [|split; vm_compute; reflexivity].
  intros s Hs. destruct one_byte_well_formed as [[_ Hall] _].
  rewrite Forall_forall in Hall. pose proof (seg_sound_range s (Hall s Hs)) as Hr.
  unfold UINT64_MAX, SEGMENT_SIZE in *. lia.
Qed.

(** ** C8: clipping *)

Lemma read_splice_replicate a lo n v j :
  0 <= lo -> 0 <= j ->
  read (splice a lo (replicate (length (window a lo n)) v)) j =
  if (lo <=? j) && (j <? lo + Z.of_nat n) && (j <? Z.of_nat (length a))
  then v else read a j.
Proof.
  intros Hlo Hj.
  pose proof (length_window a lo n Hlo) as Hlen.
  destruct (window_fits a lo n) as [Hfit|Hnil].
  - unfold read, splice.
    destruct (Z.leb_spec lo j) as [Hle|Hgt]; cbn [andb].
    + rewrite lookup_app_r by (rewrite length_take; lia).
      rewrite length_take.
      replace (Z.to_nat lo `min` length a)%nat with (Z.to_nat lo) by lia.
      destruct (Z.ltb_spec j (lo + Z.of_nat n)) as [Hn|Hn]; cbn [andb];
        [destruct (Z.ltb_spec j (Z.of_nat (length a))) as [Ha|Ha]|].
      * rewrite lookup_app_l by (rewrite length_replicate; lia).
        rewrite lookup_replicate_2 by lia. reflexivity.
      * rewrite lookup_app_r by (rewrite length_replicate; lia).
        rewrite lookup_drop, length_replicate. f_equal. f_equal. lia.
      * rewrite lookup_app_r by (rewrite length_replicate; lia).
        rewrite lookup_drop, length_replicate. f_equal. f_equal. lia.
    + rewrite lookup_app_l by (rewrite length_take; lia).
      rewrite lookup_take_lt by lia. reflexivity.
  - rewrite Hnil. cbn [length replicate]. rewrite splice_nil.
    rewrite Hnil in Hlen. cbn [length] in Hlen.
    destruct (Z.leb_spec lo j), (Z.ltb_spec j (lo + Z.of_nat n)),
      (Z.ltb_spec j (Z.of_nat (length a))); cbn [andb]; try reflexivity. lia.
Qed.

(** Without a wrap of [offset + size], the loops run [size] times. *)
Lemma rounds_exact off sz :
  0 <= off -> 0 <= sz -> off + sz <= UINT64_MAX -> rounds off sz = Z.to_nat sz.
Proof.
  intros Hoff Hsz Hsum. unfold rounds. rewrite wrap64_small by lia. f_equal. lia.
Qed.

(** X7.  A request whose range [offset, offset + size) ends within the 64-bit
    integers, and that is accepted by a segment, sets the flags of the
    positions of that range that the segment has, and of no other: the part
    of the range beyond the segment is dropped, and the offset plays no part
    in whether the request is accepted. *)
Lemma accepted_write_is_clipped m r k s :
  well_formed m -> 0 <= offset r -> 0 <= size r -> offset r + size r <= UINT64_MAX ->
  findSegmentForWrite m (size r) = Some k -> segments m !! k = Some s ->
  snd (processWriteRequest m r) = Accepted None /\
  (forall j, j <> k ->
     segments (fst (processWriteRequest m r)) !! j = segments m !! j) /\
  exists s', segments (fst (processWriteRequest m r)) !! k = Some s' /\
    forall j, 0 <= j < SEGMENT_SIZE ->
      read (valid s') j =
      if (offset r <=? j) && (j <? offset r + size r) then 1 else read (valid s) j.
Proof.
  intros Hwf Hoff Hsz Hsum Hk Hs.
  destruct (well_formed_lookup m k s Hwf Hs) as (Hok & Hty & Hti).
  rewrite (processWriteRequest_accepted m r k Hk). cbn [fst snd].
  rewrite (commit_write_effect m k r s Hs (proj1 Hok) Hty Hti Hoff). cbn [segments].
  split; [reflexivity|]. split.
  - intros j Hj. apply list_lookup_insert_ne. congruence.
  - eexists. split; [apply list_lookup_insert_eq; apply lookup_lt_Some in Hs; exact Hs|].
    intros j Hj. unfold committed. cbv zeta. cbn [valid].
    rewrite read_splice_replicate by lia.
    rewrite rounds_exact by assumption. rewrite Z2Nat.id by exact Hsz.
    destruct Hok as [[_ Hlen] _]. rewrite Hlen.
    destruct (Z.ltb_spec j SEGMENT_SIZE); [|lia]. rewrite andb_true_r. reflexivity.
Qed.

(** X7, witness. *)
Lemma accepted_write_is_clipped_witness :
  snd (processWriteRequest one_byte (mkRequest 1020 10)) = Accepted None /\
  forall j, j <> 0%nat ->
    segments (fst (processWriteRequest one_byte (mkRequest 1020 10))) !! j =
    segments one_byte !! j.
Proof.
  destruct (pool_head seg_sound one_byte (proj1 one_byte_well_formed)) as (s & Hs & _).
  destruct (accepted_write_is_clipped one_byte (mkRequest 1020 10) 0%nat s
              one_byte_well_formed) as (Hout & Hframe & _); cbn [offset size];
    [lia|lia|unfold UINT64_MAX; lia|vm_compute; reflexivity|exact Hs|].
  split; [exact Hout|exact Hframe].
Defined.

(** C8, at the failing input.  On [one_byte] the request
    [(offset 1, size UINT64_MAX)] is accepted by segment 0, because the sum
    of the allocator wraps; every position from 1 to [SEGMENT_SIZE - 1]
    lies in its range and in the segment; and none of them is written: the
    loop bound [offset + size] wraps to 0, the loops do not run, and the
    flags of segment 0 are what they were. *)
Lemma C8_wrapped_range_is_skipped :
  let r := mkRequest 1 UINT64_MAX in
  let res := processWriteRequest one_byte r in
  snd res = Accepted None /\
  findSegmentForWrite one_byte (size r) = Some 0%nat /\
  (forall j, 1 <= j < SEGMENT_SIZE ->
     offset r <= j < offset r + size r /\ 0 <= j < SEGMENT_SIZE) /\
  (valid <$> segments (fst res) !! 0%nat) = (valid <$> segments one_byte !! 0%nat) /\
  (utilization <$> segments (fst res) !! 0%nat) = Some 1 /\
  totalWrites (fst res) = 2.
Proof.
  cbv zeta. split; [vm_compute; reflexivity|]. split; [vm_compute; reflexivity|].
  split; [intros j Hj; cbn [offset size]; unfold UINT64_MAX, SEGMENT_SIZE in *; lia|].
  split; [vm_compute; reflexivity|]. split; vm_compute; reflexivity.
Qed.

(** ** C1: the invariant of the segments *)

(** X11.  Every operation keeps the shape of the store and the invariant of its
    segments: [utilization] is the number of validity flags that are set,
    and lies between 0 and [SEGMENT_SIZE].  This covers the copy loop of the
    collector, whether the destination is the victim or not, and the reset
    of the victim. *)
Lemma step_preserves_invariant m op :
  shape m -> store_inv m -> shape (step m op) /\ store_inv (step m op).
Proof.
  intros Hsh Hinv. apply store_ok_iff, step_ok, store_ok_iff. split; assumption.
Qed.

(** X11, witness. *)
Lemma step_preserves_invariant_witness :
  shape (step (initSegmentManager zero_memory) (OpWrite (mkRequest 0 5))) /\
  store_inv (step (initSegmentManager zero_memory) (OpWrite (mkRequest 0 5))).
Proof.
  pose proof (initSegmentManager_ok zero_memory zero_memory_clean) as Hok.
  apply store_ok_iff in Hok as [Hsh Hinv].
  apply (step_preserves_invariant _ _ Hsh Hinv).
Defined.

(** X12.  Every state of a store initialised over clean storage satisfies the
    invariant. *)
Lemma invariant_over_clean_storage m0 m :
  clean_storage m0 -> reachable m0 m -> shape m /\ store_inv m.
Proof. intros Hc Hr. apply store_ok_iff, (reachable_ok m0 m Hc Hr). Qed.

(** X13.  Whatever the storage held before the initialisation, in every state
    of the store the [utilization] of a segment lies between 0 and
    [SEGMENT_SIZE] and is at most the number of validity flags that are
    set. *)
Lemma utilization_bounds_in_every_state m0 m :
  shape m0 -> reachable m0 m ->
  shape m /\
  Forall (fun s => 0 <= utilization s <= SEGMENT_SIZE /\
                   utilization s <= count_valid (valid s)) (segments m).
Proof.
  intros Hsh Hr. pose proof (reachable_well_formed m0 m Hsh Hr) as Hwf.
  split; [apply well_formed_shape, Hwf|].
  destruct Hwf as [[_ Hall] _]. eapply Forall_impl; [exact Hall|].
  intros s Hs. split; [apply seg_sound_range, Hs|apply Hs].
Qed.

(** X12, witness. *)
Lemma invariant_over_clean_storage_witness : shape two_writes /\ store_inv two_writes.
Proof.
  apply (invariant_over_clean_storage zero_memory two_writes zero_memory_clean).
  apply reachable_run. typed_ops.
Defined.

(** A store in use: position 300 of segment 0 is valid. *)
Definition used_store : SegmentManager :=
  run (initSegmentManager zero_memory) [OpWrite (mkRequest 300 1)].

(** C1, at the failing input.  [initSegmentManager] over the storage of a
    store in use clears the flags of the first
    [SEGMENT_SIZE / sizeof(int)] positions only: the flag of position 300
    of segment 0 stays set while [utilization] is 0, so the state that the
    initialisation yields does not satisfy the invariant.  The first write
    to that position then counts an invalidation on a store that holds no
    data. *)
Lemma C1_initialisation_keeps_stale_flags :
  let m := initSegmentManager used_store in
  shape used_store /\
  reachable used_store m /\
  (utilization <$> segments m !! 0%nat) = Some 0 /\
  ((fun s => count_valid (valid s)) <$> segments m !! 0%nat) = Some 1 /\
  ~ store_inv m /\
  totalInvalidated (step m (OpWrite (mkRequest 300 1))) = 1.
Proof.
  cbv zeta.
  assert (Hu : (utilization <$> segments (initSegmentManager used_store) !! 0%nat) = Some 0)
    by (vm_compute; reflexivity).
  assert (Hc : ((fun s => count_valid (valid s)) <$>
                  segments (initSegmentManager used_store) !! 0%nat) = Some 1)
    by (vm_compute; reflexivity).
  split; [|split; [constructor|split; [exact Hu|split; [exact Hc|split]]]].
  - apply well_formed_shape, run_well_formed; [typed_ops|].
    apply initSegmentManager_well_formed, zero_memory_shape.
  - intros Hinv.
    destruct (segments (initSegmentManager used_store) !! 0%nat) as [s|] eqn:E;
      [|discriminate].
    apply (Forall_lookup_1 _ _ _ _ Hinv) in E as [Heq _].
    injection Hu as Hu. injection Hc as Hc. lia.
  - vm_compute. reflexivity.
Qed.

Lemma used_store_shape : shape used_store.
Proof.
  apply well_formed_shape, run_well_formed; [typed_ops|].
  apply initSegmentManager_well_formed, zero_memory_shape.
Qed.

(** X13, witness. *)
Lemma utilization_bounds_in_every_state_witness :
  shape (initSegmentManager used_store) /\
  Forall (fun s => 0 <= utilization s <= SEGMENT_SIZE /\
                   utilization s <= count_valid (valid s))
         (segments (initSegmentManager used_store)).
Proof.
  apply (utilization_bounds_in_every_state used_store _ used_store_shape).
  apply reach_init.
Defined.

(** * Further properties of the program *)

(** ** [initSegmentManager] *)

Lemma lookup_init_segments_Some l : forall i k s0,
  l !! k = Some s0 -> init_segments i l !! k = Some (init_segment (i + Z.of_nat k) s0).
Proof.
  induction l as [|x l IH]; intros i k s0 H; [discriminate|].
  destruct k as [|k]; cbn [init_segments].
  - injection H as ->. cbn. rewrite Z.add_0_r. reflexivity.
  - change ((init_segment i x :: init_segments (i + 1) l) !! S k)
      with (init_segments (i + 1) l !! k).
    rewrite (IH (i + 1) k s0 H). f_equal. f_equal. lia.
Qed.

Lemma length_init_segments l : forall i, length (init_segments i l) = length l.
Proof. induction l as [|x l IH]; intros i; cbn [init_segments length]; [|rewrite IH]; reflexivity. Qed.

(** X1.  What [initSegmentManager] does to the storage it is given: the
    counters and, in every segment, [utilization], [invalidatedBytes] and
    all the data bytes are zero, and the identifier is the index; of the
    validity flags, the first [SEGMENT_SIZE / sizeof(int)] are zero and the
    others are what the storage held. *)
Theorem initSegmentManager_effect (m0 : SegmentManager) :
  let m := initSegmentManager m0 in
  totalWrites m = 0 /\ totalInvalidated m = 0 /\ gcCount m = 0 /\
  totalGcCost m = 0%float /\
  length (segments m) = length (segments m0) /\
  forall k s0, segments m0 !! k = Some s0 ->
    exists s, segments m !! k = Some s /\
      segmentId s = Z.of_nat k /\ utilization s = 0 /\ invalidatedBytes s = 0 /\
      forall j, 0 <= j < SEGMENT_SIZE ->
        read (data s) j = 0 /\
        read (valid s) j = if j <? SEGMENT_SIZE / SIZEOF_INT then 0 else read (valid s0) j.
Proof.
  cbv zeta. cbn [initSegmentManager totalWrites totalInvalidated gcCount totalGcCost segments].
  split; [reflexivity|]. split; [reflexivity|]. split; [reflexivity|]. split; [reflexivity|].
  split; [apply length_init_segments|].
  intros k s0 Hk. exists (init_segment (0 + Z.of_nat k) s0).
  split; [apply lookup_init_segments_Some, Hk|].
  cbn [segmentId utilization invalidatedBytes data valid init_segment].
  split; [lia|]. split; [reflexivity|]. split; [reflexivity|].
  intros j Hj. unfold memset0. rewrite !read_zero_prefix by lia.
  change (Z.of_nat (Z.to_nat (SEGMENT_SIZE / 1))) with SEGMENT_SIZE.
  change (Z.of_nat (Z.to_nat (SEGMENT_SIZE / SIZEOF_INT))) with (SEGMENT_SIZE / SIZEOF_INT).
  destruct (Z.ltb_spec j SEGMENT_SIZE); [|lia]. split; reflexivity.
Qed.

Lemma zero_prefix_idem n : forall a, zero_prefix n (zero_prefix n a) = zero_prefix n a.
Proof.
  induction n as [|n IH]; intros [|x a]; cbn [zero_prefix]; try reflexivity.
  rewrite IH. reflexivity.
Qed.

Lemma init_segments_idem l : forall i,
  init_segments i (init_segments i l) = init_segments i l.
Proof.
  induction l as [|s l IH]; intros i; cbn [init_segments]; [reflexivity|].
  rewrite IH. f_equal. unfold init_segment, memset0. cbn [data valid].
  rewrite !zero_prefix_idem. reflexivity.
Qed.

(** X2.  Initialising a store that has just been initialised changes
    nothing. *)
Theorem initSegmentManager_idempotent (m0 : SegmentManager) :
  initSegmentManager (initSegmentManager m0) = initSegmentManager m0.
Proof.
  unfold initSegmentManager. cbn [segments]. rewrite init_segments_idem. reflexivity.
Qed.

(** ** Requests that no segment can hold *)

Lemma oversize_fits m sz :
  well_formed m -> SEGMENT_SIZE < sz <= UINT64_MAX - SEGMENT_SIZE ->
  findSegmentForWrite m sz = None.
Proof.
  intros [[_ Hall] _] Hsz. apply findSegmentForWrite_None. intros s Hin.
  rewrite Forall_forall in Hall. pose proof (seg_sound_range s (Hall s Hin)) as Hr.
  apply not_true_is_false. intros Hf.
  apply (fits_exact sz s) in Hf; lia.
Qed.

(** X4.  A request for more bytes than a segment has, and not so many
    that the sum of the allocator wraps, always fails; it still runs the
    collection first, and the store is left as the collection left it. *)
Theorem oversize_request_fails (m : SegmentManager) (r : WriteRequest) :
  well_formed m -> SEGMENT_SIZE < size r <= UINT64_MAX - SEGMENT_SIZE ->
  findSegmentForWrite m (size r) = None /\
  processWriteRequest m r =
    (fst (garbageCollect m), AllocationFailure (snd (garbageCollect m))).
Proof.
  intros Hwf Hsz. pose proof (oversize_fits m (size r) Hwf Hsz) as Hnone.
  split; [exact Hnone|]. unfold processWriteRequest. rewrite Hnone.
  pose proof (oversize_fits _ (size r) (garbageCollect_well_formed m Hwf) Hsz) as Hnone'.
  destruct (garbageCollect m) as [m1 g]. cbn [fst snd] in *. rewrite Hnone'. reflexivity.
Qed.

(** X4, witness. *)
Lemma oversize_request_fails_witness :
  findSegmentForWrite two_writes 2000 = None /\
  processWriteRequest two_writes (mkRequest 0 2000) =
    (fst (garbageCollect two_writes), AllocationFailure (snd (garbageCollect two_writes))).
Proof.
  apply (oversize_request_fails two_writes (mkRequest 0 2000) two_writes_well_formed).
  cbn [size]. unfold UINT64_MAX, SEGMENT_SIZE. lia.
Defined.

(** ** Requests that touch no position of a segment *)

Lemma committed_nothing s off n :
  typed_seg s -> window (valid s) off n = [] -> window (data s) off n = [] ->
  committed s off n = s.
Proof.
  intros [Hu Hi] Hv Hd. unfold committed. cbv zeta. rewrite Hv, Hd.
  cbn [length replicate]. rewrite count_valid_nil, !splice_nil.
  change (Z.of_nat 0) with 0. rewrite Z.sub_0_r, !Z.add_0_r.
  rewrite !u64_wrap64 by assumption. destruct s; reflexivity.
Qed.

(** X8.  A request of no bytes, or whose offset lies at or beyond the end
    of a segment, is accepted like any other, counted in [totalWrites], and
    stores nothing: no flag, data byte or other counter changes. *)
Theorem write_outside_segment_stores_nothing (m : SegmentManager) (r : WriteRequest) (k : nat) :
  well_formed m -> 0 <= offset r -> 0 <= size r -> offset r + size r <= UINT64_MAX ->
  size r = 0 \/ SEGMENT_SIZE <= offset r ->
  findSegmentForWrite m (size r) = Some k ->
  processWriteRequest m r =
    (set_totalWrites m (wrap64 (totalWrites m + 1)), Accepted None).
Proof.
  intros Hwf Hoff Hsz Hsum Hout Hk.
  rewrite (processWriteRequest_accepted m r k Hk). f_equal.
  destruct (findSegmentForWrite_lookup m (size r) k Hk) as [s Hs].
  destruct (well_formed_lookup m k s Hwf Hs) as (Hss & Hts & Hti).
  rewrite (commit_write_effect m k r s Hs (proj1 Hss) Hts Hti Hoff).
  assert (Hw : forall a, Z.of_nat (length a) = SEGMENT_SIZE ->
            window a (offset r) (rounds (offset r) (size r)) = []).
  { intros a Ha. destruct Hout as [H0|Hbeyond].
    - rewrite rounds_exact by assumption. rewrite H0. apply window_0.
    - apply window_out; lia. }
  destruct Hss as [[Hd Hv] _].
  rewrite (committed_nothing s _ _ Hts (Hw _ Hv) (Hw _ Hd)).
  unfold touched. rewrite (Hw _ Hv), count_valid_nil, Z.add_0_r.
  rewrite (u64_wrap64 _ Hti), list_insert_id by exact Hs.
  destruct m; reflexivity.
Qed.

(** X8, witness. *)
Lemma write_outside_segment_stores_nothing_witness :
  processWriteRequest one_byte (mkRequest 5000 10) =
    (set_totalWrites one_byte (wrap64 (totalWrites one_byte + 1)), Accepted None).
Proof.
  apply (write_outside_segment_stores_nothing one_byte (mkRequest 5000 10) 0%nat
           one_byte_well_formed); cbn [offset size];
    [lia|lia|unfold UINT64_MAX; lia|right; unfold SEGMENT_SIZE; lia|vm_compute; reflexivity].
Defined.

(** ** [invalidateOldData] and [writeToSegment] on their own *)

(** The validity flags of the positions [off, off + sz) that the segment
    has. *)
Definition flags_in (s : Segment) (off sz : Z) : list Z :=
  window (valid s) off (Z.to_nat sz).

Definition in_range (off sz j : Z) : bool := (off <=? j) && (j <? off + sz).

Lemma invalidateOldData_closed m k s off sz :
  segments m !! k = Some s -> seg_shape s -> typed_seg s -> u64 (totalInvalidated m) ->
  0 <= off -> 0 <= sz -> off + sz <= UINT64_MAX ->
  invalidateOldData m k off sz =
  set_totalInvalidated
    (set_segments m (<[k := invalidated s off (Z.to_nat sz)]> (segments m)))
    (wrap64 (totalInvalidated m + count_valid (flags_in s off sz))).
Proof.
  intros Hs Hsh [Hu Hi] Ht Hoff Hsz Hsum. unfold invalidateOldData. rewrite Hs.
  destruct (commit_loops s (totalInvalidated m) off sz Hoff Hsh Hu Hi Ht) as [-> _].
  rewrite rounds_exact by assumption. reflexivity.
Qed.

Lemma read_invalidated s off n j :
  0 <= off -> 0 <= j < SEGMENT_SIZE -> seg_shape s ->
  read (valid (invalidated s off n)) j =
  if (off <=? j) && (j <? off + Z.of_nat n) then 0 else read (valid s) j.
Proof.
  intros Hoff Hj [_ Hv]. unfold invalidated. cbv zeta. cbn [valid].
  rewrite read_splice_replicate by lia. rewrite Hv.
  destruct (Z.ltb_spec j SEGMENT_SIZE); [|lia]. rewrite andb_true_r. reflexivity.
Qed.

Lemma invalidated_twice s off n :
  invalidated (invalidated s off n) off n =
  mkSegment (segmentId s)
            (wrap64 (utilization s - count_valid (window (valid s) off n)))
            (data s)
            (splice (valid s) off (replicate (length (window (valid s) off n)) 0))
            (wrap64 (invalidatedBytes s + count_valid (window (valid s) off n))).
Proof.
  unfold invalidated at 1. cbv zeta.
  cbn [valid utilization invalidatedBytes segmentId data invalidated].
  rewrite window_splice by (rewrite length_replicate; reflexivity).
  rewrite count_valid_replicate, length_replicate. change (flag 0) with 0.
  rewrite Z.mul_0_l, Z.sub_0_r, Z.add_0_r, !wrap64_idem.
  rewrite (splice_splice _ off n) by (rewrite ?length_replicate; reflexivity).
  reflexivity.
Qed.

(** X5.  [invalidateOldData] on a range that ends within the 64-bit
    integers: it clears the flags of the positions of the range that the
    segment has and no other flag, and leaves the data bytes; with [n] the
    number of those flags that were set, [utilization] drops by [n] and
    [invalidatedBytes] and [totalInvalidated] grow by [n], as 64-bit
    counters do; no other segment and no other counter changes; and a
    second invalidation of the same range changes nothing. *)
Theorem invalidateOldData_effect (m : SegmentManager) (k : nat) (s : Segment) (off sz : Z) :
  well_formed m -> segments m !! k = Some s ->
  0 <= off -> 0 <= sz -> off + sz <= UINT64_MAX ->
  let m' := invalidateOldData m k off sz in
  let n := count_valid (flags_in s off sz) in
  0 <= n <= count_valid (valid s) /\ n <= sz /\
  (exists s', segments m' !! k = Some s' /\
     (forall j, 0 <= j < SEGMENT_SIZE ->
        read (valid s') j = if in_range off sz j then 0 else read (valid s) j) /\
     data s' = data s /\ segmentId s' = segmentId s /\
     utilization s' = wrap64 (utilization s - n) /\
     invalidatedBytes s' = wrap64 (invalidatedBytes s + n) /\
     count_valid (valid s') = count_valid (valid s) - n) /\
  totalInvalidated m' = wrap64 (totalInvalidated m + n) /\
  totalWrites m' = totalWrites m /\ gcCount m' = gcCount m /\
  totalGcCost m' = totalGcCost m /\
  (forall j, j <> k -> segments m' !! j = segments m !! j) /\
  invalidateOldData m' k off sz = m'.
Proof.
  intros Hwf Hs Hoff Hsz Hsum. cbv zeta.
  destruct (well_formed_lookup m k s Hwf Hs) as (Hss & Hts & Hti).
  pose proof (lookup_lt_Some _ _ _ Hs) as Hlt.
  rewrite (invalidateOldData_closed m k s off sz Hs (proj1 Hss) Hts Hti Hoff Hsz Hsum).
  cbn [segments totalInvalidated totalWrites gcCount totalGcCost
       set_totalInvalidated set_segments].
  pose proof (count_valid_bounds (flags_in s off sz)) as Hb.
  pose proof (count_valid_window_le (valid s) off (Z.to_nat sz)) as Hle.
  fold (flags_in s off sz) in Hle.
  assert (Hlen : Z.of_nat (length (flags_in s off sz)) <= sz).
  { unfold flags_in. rewrite length_window by exact Hoff. lia. }
  split; [lia|]. split; [lia|]. split; [|split; [reflexivity|]].
  - exists (invalidated s off (Z.to_nat sz)).
    split; [apply list_lookup_insert_eq, Hlt|]. split.
    + intros j Hj. rewrite read_invalidated by (assumption || apply Hss).
      unfold in_range. rewrite Z2Nat.id by exact Hsz. reflexivity.
    + unfold invalidated. cbv zeta.
      cbn [data segmentId utilization invalidatedBytes valid].
      split; [reflexivity|]. split; [reflexivity|]. split; [reflexivity|].
      split; [reflexivity|].
      rewrite (count_valid_splice _ off (Z.to_nat sz))
        by (rewrite length_replicate; reflexivity).
      rewrite count_valid_replicate. change (flag 0) with 0. unfold flags_in. lia.
  - split; [reflexivity|]. split; [reflexivity|]. split; [reflexivity|]. split.
    + intros j Hj. apply list_lookup_insert_ne. congruence.
    + rewrite (invalidateOldData_closed _ k (invalidated s off (Z.to_nat sz)) off sz);
        cbn [segments totalInvalidated set_totalInvalidated set_segments];
        [|apply list_lookup_insert_eq, Hlt
         |apply seg_shape_invalidated, Hss
         |split; apply wrap64_range
         |apply wrap64_range|assumption..].
      rewrite list_insert_insert_eq, invalidated_twice.
      unfold flags_in, invalidated. cbv zeta. cbn [valid].
      rewrite window_splice by (rewrite length_replicate; reflexivity).
      rewrite count_valid_replicate. change (flag 0) with 0.
      rewrite Z.mul_0_l, Z.add_0_r, wrap64_idem. reflexivity.
Qed.

(** X5, witness. *)
Lemma invalidateOldData_effect_witness :
  invalidateOldData (invalidateOldData two_writes 0 2 3) 0 2 3 =
  invalidateOldData two_writes 0 2 3.
Proof.
  destruct (pool_head seg_sound two_writes (proj1 two_writes_well_formed)) as (s & Hs & _).
  apply (invalidateOldData_effect two_writes 0%nat s 2 3 two_writes_well_formed Hs);
    unfold UINT64_MAX; lia.
Defined.

Lemma read_splice_fmap (f : Z -> Z) a lo n j :
  0 <= lo -> 0 <= j ->
  read (splice a lo (f <$> window a lo n)) j =
  if (lo <=? j) && (j <? lo + Z.of_nat n) && (j <? Z.of_nat (length a))
  then f (read a j) else read a j.
Proof.
  intros Hlo Hj.
  pose proof (length_window a lo n Hlo) as Hlen.
  destruct (window_fits a lo n) as [Hfit|Hnil].
  - unfold read, splice.
    destruct (Z.leb_spec lo j) as [Hle|Hgt]; cbn [andb].
    + rewrite lookup_app_r by (rewrite length_take; lia).
      rewrite length_take.
      replace (Z.to_nat lo `min` length a)%nat with (Z.to_nat lo) by lia.
      destruct (Z.ltb_spec j (lo + Z.of_nat n)) as [Hn|Hn]; cbn [andb];
        [destruct (Z.ltb_spec j (Z.of_nat (length a))) as [Ha|Ha]|].
      * rewrite lookup_app_l by (rewrite length_fmap; lia).
        rewrite list_lookup_fmap. unfold window.
        rewrite lookup_take_lt by lia. rewrite lookup_drop.
        replace (Z.to_nat lo + (Z.to_nat j - Z.to_nat lo))%nat with (Z.to_nat j) by lia.
        destruct (lookup_lt_is_Some_2 a (Z.to_nat j) ltac:(lia)) as [x ->]. reflexivity.
      * rewrite lookup_app_r by (rewrite length_fmap; lia).
        rewrite lookup_drop, length_fmap. f_equal. f_equal. lia.
      * rewrite lookup_app_r by (rewrite length_fmap; lia).
        rewrite lookup_drop, length_fmap. f_equal. f_equal. lia.
    + rewrite lookup_app_l by (rewrite length_take; lia).
      rewrite lookup_take_lt by lia. reflexivity.
  - rewrite Hnil. cbn [fmap list_fmap]. rewrite splice_nil.
    rewrite Hnil in Hlen. cbn [length] in Hlen.
    destruct (Z.leb_spec lo j), (Z.ltb_spec j (lo + Z.of_nat n)),
      (Z.ltb_spec j (Z.of_nat (length a))); cbn [andb]; try reflexivity. lia.
Qed.

Lemma count_valid_mark (w : list Z) : count_valid (mark <$> w) = Z.of_nat (length w).
Proof.
  induction w as [|v w IH]; [reflexivity|].
  rewrite fmap_cons, count_valid_cons, IH, length_cons.
  unfold mark, flag. destruct (Z.eqb_spec v 0) as [->|Hv]; [cbn; lia|].
  destruct (Z.eqb_spec v 0); [contradiction|lia].
Qed.

Lemma mark_mark (w : list Z) : mark <$> (mark <$> w) = mark <$> w.
Proof.
  rewrite <- list_fmap_compose. apply list_fmap_ext. intros _ v _. cbn.
  unfold mark. destruct (Z.eqb_spec v 0) as [->|Hv]; [reflexivity|].
  destruct (Z.eqb_spec v 0); [contradiction|reflexivity].
Qed.

Lemma written_twice s off n : written (written s off n) off n = 
  mkSegment (segmentId s)
            (wrap64 (utilization s +
                     (Z.of_nat (length (window (valid s) off n)) -
                      count_valid (window (valid s) off n))))
            (splice (data s) off (replicate (length (window (data s) off n)) 1))
            (splice (valid s) off (mark <$> window (valid s) off n))
            (invalidatedBytes s).
Proof.
  unfold written at 1. cbv zeta.
  cbn [valid utilization invalidatedBytes segmentId data written].
  rewrite !window_splice by (rewrite ?length_fmap, ?length_replicate; reflexivity).
  rewrite count_valid_mark, length_fmap, length_replicate, mark_mark.
  rewrite Z.sub_diag, Z.add_0_r, wrap64_idem.
  rewrite !(splice_splice _ off n)
    by (rewrite ?length_fmap, ?length_replicate; reflexivity).
  reflexivity.
Qed.

Lemma seg_shape_written s off n : seg_shape s -> seg_shape (written s off n).
Proof.
  intros [Hd Hv]. unfold written. cbv zeta. split; cbn [data valid].
  - rewrite (length_splice _ off n) by (rewrite length_replicate; reflexivity). exact Hd.
  - rewrite (length_splice _ off n) by (rewrite length_fmap; reflexivity). exact Hv.
Qed.

Lemma write_loop_closed s off sz :
  seg_shape s -> u64 (utilization s) -> 0 <= off -> 0 <= sz -> off + sz <= UINT64_MAX ->
  write_loop off sz s = written s off (Z.to_nat sz).
Proof.
  intros Hsh Hu Hoff Hsz Hsum. unfold write_loop, for_upto.
  rewrite iterate_write by assumption.
  fold (rounds off sz). rewrite rounds_exact by assumption. reflexivity.
Qed.

Lemma alter_lookup (l : list Segment) k s f :
  l !! k = Some s -> alter f k l = <[k := f s]> l.
Proof.
  intros Hs. rewrite <- (list_insert_id l k s Hs) at 1. apply alter_insert.
Qed.

(** X6.  [writeToSegment] on a range that ends within the 64-bit
    integers: the data bytes of the positions of the range that the
    segment has become 1, and those of their flags that were 0 become 1;
    with [fresh] the number of those, [utilization] grows by [fresh]; no
    flag is cleared, and nothing else changes: not [invalidatedBytes], not
    another segment, not a counter of the manager.  Writing the same range
    again changes nothing. *)
Theorem writeToSegment_effect (m : SegmentManager) (k : nat) (s : Segment) (off sz : Z) :
  well_formed m -> segments m !! k = Some s ->
  0 <= off -> 0 <= sz -> off + sz <= UINT64_MAX ->
  let m' := writeToSegment m k off sz in
  let fresh := Z.of_nat (length (flags_in s off sz)) - count_valid (flags_in s off sz) in
  0 <= fresh <= sz /\
  (exists s', segments m' !! k = Some s' /\
     (forall j, 0 <= j < SEGMENT_SIZE ->
        read (data s') j = (if in_range off sz j then 1 else read (data s) j) /\
        read (valid s') j =
          (if in_range off sz j && (read (valid s) j =? 0) then 1 else read (valid s) j)) /\
     utilization s' = wrap64 (utilization s + fresh) /\
     invalidatedBytes s' = invalidatedBytes s /\ segmentId s' = segmentId s /\
     count_valid (valid s') = count_valid (valid s) + fresh) /\
  totalWrites m' = totalWrites m /\ totalInvalidated m' = totalInvalidated m /\
  gcCount m' = gcCount m /\ totalGcCost m' = totalGcCost m /\
  (forall j, j <> k -> segments m' !! j = segments m !! j) /\
  writeToSegment m' k off sz = m'.
Proof.
  intros Hwf Hs Hoff Hsz Hsum. cbv zeta.
  destruct (well_formed_lookup m k s Hwf Hs) as (Hss & [Hu _] & _).
  pose proof (lookup_lt_Some _ _ _ Hs) as Hlt.
  pose proof (write_loop_closed s off sz (proj1 Hss) Hu Hoff Hsz Hsum) as Hloop.
  assert (Hseg : segments (writeToSegment m k off sz) =
                 <[k := written s off (Z.to_nat sz)]> (segments m)).
  { unfold writeToSegment, update_segment. cbn [segments set_segments].
    rewrite (alter_lookup _ k s _ Hs), Hloop. reflexivity. }
  pose proof (count_valid_bounds (flags_in s off sz)) as Hb.
  assert (Hlen : Z.of_nat (length (flags_in s off sz)) <= sz).
  { unfold flags_in. rewrite length_window by exact Hoff. lia. }
  split; [lia|]. split; [|split; [reflexivity|split; [reflexivity|split; [reflexivity|
    split; [reflexivity|split]]]]].
  - exists (written s off (Z.to_nat sz)). rewrite Hseg.
    split; [apply list_lookup_insert_eq, Hlt|].
    destruct Hss as [[Hd Hv] _]. split.
    + intros j Hj. unfold written. cbv zeta. cbn [data valid].
      rewrite read_splice_replicate, read_splice_fmap by lia.
      rewrite Hd, Hv, Z2Nat.id by exact Hsz. fold (in_range off sz j).
      destruct (Z.ltb_spec j SEGMENT_SIZE); [|lia]. rewrite andb_true_r.
      split; [reflexivity|]. unfold mark.
      destruct (in_range off sz j); cbn [andb]; [|reflexivity].
      destruct (read (valid s) j =? 0); reflexivity.
    + unfold written. cbv zeta. cbn [utilization invalidatedBytes segmentId valid].
      split; [reflexivity|]. split; [reflexivity|]. split; [reflexivity|].
      rewrite (count_valid_splice _ off (Z.to_nat sz)) by (rewrite length_fmap; reflexivity).
      rewrite count_valid_mark. unfold flags_in. lia.
  - intros j Hj. rewrite Hseg. apply list_lookup_insert_ne. congruence.
  - unfold writeToSegment at 1. unfold update_segment.
    rewrite Hseg.
    rewrite (alter_lookup _ k (written s off (Z.to_nat sz)))
      by (apply list_lookup_insert_eq, Hlt).
    rewrite list_insert_insert_eq.
    rewrite write_loop_closed;
      [|apply seg_shape_written, Hss|apply wrap64_range|assumption..].
    rewrite written_twice. fold (written s off (Z.to_nat sz)).
    rewrite <- Hseg. destruct (writeToSegment m k off sz); reflexivity.
Qed.

(** X6, witness. *)
Lemma writeToSegment_effect_witness :
  writeToSegment (writeToSegment two_writes 0 2 3) 0 2 3 = writeToSegment two_writes 0 2 3.
Proof.
  destruct (pool_head seg_sound two_writes (proj1 two_writes_well_formed)) as (s & Hs & _).
  apply (writeToSegment_effect two_writes 0%nat s 2 3 two_writes_well_formed Hs);
    unfold UINT64_MAX; lia.
Defined.

(** ** What a collection leaves alone *)

Lemma gc_copy_byte_frame v d i m j :
  j <> v -> j <> d -> segments (gc_copy_byte v d i m) !! j = segments m !! j.
Proof.
  intros Hv Hd. unfold gc_copy_byte.
  destruct (segments m !! v) as [s|]; [|reflexivity].
  destruct (is_valid s i); [|reflexivity].
  cbn [segments update_segment writeToSegment set_segments].
  rewrite !list_lookup_alter_ne by congruence. reflexivity.
Qed.

Lemma compact_frame v d m j :
  j <> v -> j <> d -> segments (compact v d m) !! j = segments m !! j.
Proof.
  intros Hv Hd. unfold compact. cbn [segments update_segment set_segments].
  rewrite list_lookup_alter_ne by congruence.
  apply (for_upto_invariant (gc_copy_byte v d)
           (fun m' => segments m' !! j = segments m !! j)); [|reflexivity].
  intros i a Ha. rewrite gc_copy_byte_frame by assumption. exact Ha.
Qed.

Lemma utilization_write_byte_ge i s :
  seg_sound s -> utilization s <= utilization (write_byte i s).
Proof.
  intros Hs. pose proof (seg_sound_range s Hs) as Hr. unfold write_byte.
  destruct (i <? SEGMENT_SIZE); [|lia].
  change (is_valid (set_data s (write (data s) i 1)) i) with (is_valid s i).
  destruct (is_valid s i); cbn [negb utilization set_data set_valid set_utilization]; [lia|].
  rewrite wrap64_small by (unfold UINT64_MAX, SEGMENT_SIZE in *; lia). lia.
Qed.

(** The copy loop only adds to what the destination holds. *)
Definition grow_inv (v : nat) (s0 : Segment) (i : Z) (m : SegmentManager) : Prop :=
  gc_loop_inv seg_sound v i m /\
  exists s0', segments m !! 0%nat = Some s0' /\ utilization s0 <= utilization s0'.

Lemma grow_inv_step v s0 i m :
  v <> 0%nat -> 0 <= i < SEGMENT_SIZE ->
  grow_inv v s0 i m -> grow_inv v s0 (i + 1) (gc_copy_byte v 0 i m).
Proof.
  intros Hv Hi (Hloop & s0' & Hs0' & Hle).
  split; [apply (gc_copy_byte_inv seg_sound seg_sound_shape write_byte_sound); assumption|].
  destruct Hloop as [_ Hall]. destruct (Hall 0%nat s0' Hs0') as (_ & Hsound & _).
  specialize (Hsound ltac:(congruence)).
  unfold gc_copy_byte. destruct (segments m !! v) as [sv|]; [|exists s0'; split; assumption].
  destruct (is_valid sv i); [|exists s0'; split; assumption].
  exists (write_byte i s0'). split.
  - cbn [segments update_segment writeToSegment set_segments].
    rewrite list_lookup_alter_ne by exact Hv.
    rewrite list_lookup_alter_eq, Hs0'. cbn. rewrite write_loop_one by exact Hi. reflexivity.
  - pose proof (utilization_write_byte_ge i s0' Hsound). lia.
Qed.

Lemma compact_destination_grows v s0 m :
  pool seg_sound m -> v <> 0%nat -> segments m !! 0%nat = Some s0 ->
  exists s0', segments (compact v 0 m) !! 0%nat = Some s0' /\
              utilization s0 <= utilization s0'.
Proof.
  intros Hok Hv Hs0.
  assert (H : grow_inv v s0 SEGMENT_SIZE (for_upto 0 SEGMENT_SIZE (gc_copy_byte v 0) m)).
  { apply (for_upto_indexed (gc_copy_byte v 0) (grow_inv v s0)).
    - unfold SEGMENT_SIZE. lia.
    - intros i a Hi. apply grow_inv_step; assumption.
    - split; [apply (gc_loop_inv_start seg_sound seg_sound_shape), Hok|].
      exists s0. split; [exact Hs0|lia]. }
  destruct H as (_ & s0' & Hs0' & Hle). exists s0'. split; [|exact Hle].
  unfold compact. cbn [segments update_segment set_segments].
  rewrite list_lookup_alter_ne by exact Hv. exact Hs0'.
Qed.

(** X10.  A collection changes the victim and segment 0 and no other
    segment, and it leaves [totalWrites] and [totalInvalidated] as they
    were. *)
Theorem garbageCollect_frame (m : SegmentManager) :
  well_formed m ->
  let m' := fst (garbageCollect m) in
  totalWrites m' = totalWrites m /\
  totalInvalidated m' = totalInvalidated m /\
  (select_victim m = None -> m' = m) /\
  (forall v j, select_victim m = Some v -> j <> v -> j <> 0%nat ->
     segments m' !! j = segments m !! j).
Proof.
  intros [Hok _]. cbv zeta. destruct (garbageCollect_writes m) as [Hw Hi].
  split; [exact Hw|]. split; [exact Hi|].
  destruct (garbageCollect_cases m) as [[Hgc Hv]|[[Hgc [Hv Hd]]|(v & d & Hv & Hd & Hgc)]];
    rewrite Hgc; cbn [fst].
  - split; [reflexivity|]. intros v j Hv'. congruence.
  - rewrite (findSegmentForWrite_0 m Hok) in Hd. discriminate.
  - split; [intros Hn; congruence|]. intros v' j Hv' Hj Hj0.
    rewrite segments_account_cost.
    rewrite (findSegmentForWrite_0 m Hok) in Hd. injection Hd as <-.
    rewrite Hv in Hv'. injection Hv' as <-.
    apply compact_frame; assumption.
Qed.

Lemma colliding_well_formed : well_formed colliding.
Proof.
  apply run_well_formed; [typed_ops|].
  apply initSegmentManager_well_formed, zero_memory_shape.
Qed.

(** X10, witness. *)
Lemma garbageCollect_frame_witness :
  select_victim colliding = Some 1%nat /\
  forall j, j <> 1%nat -> j <> 0%nat ->
    segments (fst (garbageCollect colliding)) !! j = segments colliding !! j.
Proof.
  assert (Hv : select_victim colliding = Some 1%nat) by (vm_compute; reflexivity).
  split; [exact Hv|]. intros j.
  apply (garbageCollect_frame colliding colliding_well_formed), Hv.
Defined.

Lemma fits_false_grows sz s s' :
  seg_sound s -> seg_sound s' -> 0 <= sz <= SEGMENT_SIZE ->
  utilization s <= utilization s' -> fits sz s = false -> fits sz s' = false.
Proof.
  intros Hs Hs' Hsz Hle Hf.
  pose proof (seg_sound_range s Hs) as Hr. pose proof (seg_sound_range s' Hs') as Hr'.
  apply not_true_is_false. intros Hf'.
  apply (fits_exact sz s') in Hf'; [|lia|lia|unfold SEGMENT_SIZE, UINT64_MAX in *; lia].
  assert (Ht : fits sz s = true).
  { apply (fits_exact sz s); [lia|lia|unfold SEGMENT_SIZE, UINT64_MAX in *; lia|lia]. }
  congruence.
Qed.

(** After a collection forced by a request that found no room, the first
    segment with room is the victim. *)
Lemma retry_finds_victim m v sz :
  well_formed m -> 0 <= sz <= SEGMENT_SIZE ->
  findSegmentForWrite m sz = None -> select_victim m = Some v ->
  findSegmentForWrite (account_cost (compact v 0 m)) sz = Some v.
Proof.
  intros [Hok _] Hsz Hnone Hv.
  rewrite findSegmentForWrite_None in Hnone.
  destruct (select_victim_Some m v Hv) as (s & Hs & _).
  destruct (victim_is_reset v 0%nat m s Hok Hs) as (s' & Hs' & Hu' & _).
  pose proof (compact_sound v 0%nat m Hok) as Hok'.
  apply findSegmentForWrite_Some. rewrite segments_account_cost.
  exists s'. split; [exact Hs'|]. split.
  - unfold fits. rewrite Hu', Z.add_0_l.
    rewrite wrap64_small by (unfold SEGMENT_SIZE, UINT64_MAX in *; lia).
    apply Z.leb_le. lia.
  - intros j x Hj Hx.
    destruct (decide (j = 0%nat)) as [->|Hj0].
    + destruct (pool_head seg_sound m Hok) as (s0 & Hs0 & Hsound0).
      destruct (compact_destination_grows v s0 m Hok ltac:(lia) Hs0) as (s0' & Hs0' & Hle).
      rewrite Hs0' in Hx. injection Hx as <-.
      apply (fits_false_grows sz s0 s0' Hsound0
               (pool_lookup seg_sound _ 0%nat s0' Hok' Hs0') Hsz Hle).
      apply Hnone, list_elem_of_lookup. exists 0%nat. exact Hs0.
    + rewrite compact_frame in Hx by lia.
      apply Hnone, list_elem_of_lookup. exists j. exact Hx.
Qed.

(** X9.  What becomes of a request that finds no room at first, for a size
    that a segment can hold: without a victim the collection changes
    nothing and the request fails; with the victim [v] the collection
    reclaims it and the request is written to [v], the first segment with
    room.  The collection never ends for want of a destination. *)
Theorem forced_collection_stores_in_victim (m : SegmentManager) (r : WriteRequest) :
  well_formed m -> 0 <= size r <= SEGMENT_SIZE ->
  findSegmentForWrite m (size r) = None ->
  match select_victim m with
  | None => processWriteRequest m r = (m, AllocationFailure NoVictim)
  | Some v =>
      snd (garbageCollect m) = VictimReclaimed (id_of m v) (gc_cost m) /\
      findSegmentForWrite (fst (garbageCollect m)) (size r) = Some v /\
      processWriteRequest m r =
        (commit_write (fst (garbageCollect m)) v r, Accepted (Some (snd (garbageCollect m))))
  end.
Proof.
  intros Hwf Hsz Hnone. unfold processWriteRequest. rewrite Hnone.
  destruct (garbageCollect_cases m) as [[Hgc Hv]|[[Hgc [Hv Hd]]|(v & d & Hv & Hd & Hgc)]].
  - rewrite Hv, Hgc, Hnone. reflexivity.
  - rewrite (findSegmentForWrite_0 m (proj1 Hwf)) in Hd. discriminate.
  - rewrite (findSegmentForWrite_0 m (proj1 Hwf)) in Hd. injection Hd as <-.
    pose proof (retry_finds_victim m v (size r) Hwf Hsz Hnone Hv) as Hretry.
    rewrite Hv, Hgc. cbn [fst snd].
    rewrite id_of_compact, Hretry.
    split; [reflexivity|]. split; reflexivity.
Qed.

(** A store without room: every segment is full, and some bytes of
    segment 3 have been overwritten. *)
Definition full_segment (inv : Z) : Segment :=
  mkSegment 0 SEGMENT_SIZE (replicate (Z.to_nat SEGMENT_SIZE) 1)
            (replicate (Z.to_nat SEGMENT_SIZE) 1) inv.

Definition full_store : SegmentManager :=
  mkManager (<[3%nat := full_segment 5]> (replicate (Z.to_nat NUM_SEGMENTS) (full_segment 0)))
            1029 5 0 0%float.

Lemma full_segment_sound inv : u64 inv -> seg_sound (full_segment inv) /\ typed_seg (full_segment inv).
Proof.
  intros Hinv. split; [split; [split; reflexivity|]|split; [|exact Hinv]].
  - cbn [utilization valid full_segment]. rewrite count_valid_replicate.
    vm_compute. split; discriminate.
  - cbn [utilization full_segment]. unfold u64, SEGMENT_SIZE, UINT64_MAX. lia.
Qed.

Lemma full_store_well_formed : well_formed full_store.
Proof.
  assert (H0 : u64 0) by (unfold u64, UINT64_MAX; lia).
  assert (H5 : u64 5) by (unfold u64, UINT64_MAX; lia).
  split; [split|split; [|split; [|split]]]; cbn [segments totalWrites totalInvalidated gcCount full_store];
    try (unfold u64, UINT64_MAX; lia).
  - reflexivity.
  - apply Forall_insert; [apply Forall_replicate|]; apply full_segment_sound; assumption.
  - apply Forall_insert; [apply Forall_replicate|]; apply full_segment_sound; assumption.
Qed.

(** X9, witness. *)
Lemma forced_collection_stores_in_victim_witness :
  select_victim full_store = Some 3%nat /\
  findSegmentForWrite (fst (garbageCollect full_store)) 1 = Some 3%nat.
Proof.
  assert (Hv : select_victim full_store = Some 3%nat) by (vm_compute; reflexivity).
  split; [exact Hv|].
  pose proof (forced_collection_stores_in_victim full_store (mkRequest 0 1)
                full_store_well_formed) as H.
  rewrite Hv in H. apply H; [cbn [size]; unfold SEGMENT_SIZE; lia|vm_compute; reflexivity].
Defined.

(** ** The data bytes and the validity flags *)

(** The data byte of a position is 1 when its flag is set and 0 when it
    is not, and a flag is 0 or 1. *)
Definition seg_mirror (s : Segment) : Prop :=
  seg_shape s /\
  forall j, 0 <= j < SEGMENT_SIZE ->
    read (data s) j = read (valid s) j /\ (read (valid s) j = 0 \/ read (valid s) j = 1).

Lemma seg_mirror_shape s : seg_mirror s -> seg_shape s.
Proof. intros [H _]. exact H. Qed.

Lemma write_byte_clamp i s : write_byte i s = write_byte (Z.max 0 i) s.
Proof.
  destruct (Z_lt_le_dec i 0) as [Hneg|Hpos].
  - unfold write_byte, is_valid, read, write.
    replace (Z.to_nat (Z.max 0 i)) with (Z.to_nat i) by lia.
    destruct (Z.ltb_spec i SEGMENT_SIZE); [|unfold SEGMENT_SIZE in *; lia].
    destruct (Z.ltb_spec (Z.max 0 i) SEGMENT_SIZE); [|unfold SEGMENT_SIZE in *; lia].
    reflexivity.
  - rewrite Z.max_r by lia. reflexivity.
Qed.

Lemma write_byte_mirror i s : seg_mirror s -> seg_mirror (write_byte i s).
Proof.
  intros Hm. rewrite write_byte_clamp.
  generalize (Z.max 0 i) (Z.le_max_l 0 i). clear i.
  intros i Hi. destruct Hm as [Hsh Hm].
  split; [apply seg_shape_write_byte, Hsh|]. destruct Hsh as [Hd Hv].
  unfold write_byte. destruct (Z.ltb_spec i SEGMENT_SIZE) as [Hlt|]; [|exact Hm].
  change (is_valid (set_data s (write (data s) i 1)) i) with (is_valid s i).
  intros j Hj. destruct (Hm j Hj) as [Heq Hbit].
  destruct (is_valid s i) eqn:Hval; cbn [negb data valid set_data set_valid set_utilization].
  - destruct (decide (j = i)) as [->|Hne].
    + rewrite read_write_same by lia. split; [|exact Hbit].
      unfold is_valid in Hval. destruct Hbit as [H0|H1]; [rewrite H0 in Hval; discriminate|].
      symmetry. exact H1.
    + rewrite read_write_other by lia. split; assumption.
  - destruct (decide (j = i)) as [->|Hne].
    + rewrite !read_write_same by lia. split; [reflexivity|right; reflexivity].
    + rewrite !read_write_other by lia. split; assumption.
Qed.

Lemma reset_victim_mirror s :
  seg_shape s -> (forall j, 0 <= j < SEGMENT_SIZE -> read (valid s) j = 0) ->
  seg_mirror (reset_victim s).
Proof.
  intros Hsh Hz. split; [apply reset_victim_shape, Hsh|].
  intros j Hj. cbn [data valid reset_victim]. unfold memset0.
  rewrite read_zero_prefix by lia. rewrite Hz by exact Hj.
  destruct (Z.ltb_spec j (Z.of_nat (Z.to_nat (SEGMENT_SIZE / 1)))) as [_|Hge].
  - split; [reflexivity|left; reflexivity].
  - change (SEGMENT_SIZE / 1) with SEGMENT_SIZE in Hge. lia.
Qed.

Lemma committed_mirror s off n :
  0 <= off -> seg_mirror s -> seg_mirror (committed s off n).
Proof.
  intros Hoff [[Hd Hv] Hm]. split.
  - split; cbn [data valid committed].
    + rewrite (length_splice _ off n) by (rewrite length_replicate; reflexivity). exact Hd.
    + rewrite (length_splice _ off n) by (rewrite length_replicate; reflexivity). exact Hv.
  - intros j Hj. cbn [data valid committed].
    rewrite !read_splice_replicate by lia. rewrite Hd, Hv.
    destruct ((off <=? j) && (j <? off + Z.of_nat n) && (j <? SEGMENT_SIZE)).
    + split; [reflexivity|right; reflexivity].
    + apply Hm, Hj.
Qed.

Lemma commit_write_mirror m k r :
  well_formed m -> 0 <= offset r -> findSegmentForWrite m (size r) = Some k ->
  pool seg_mirror m -> pool seg_mirror (commit_write m k r).
Proof.
  intros Hwf Hoff Hk [Hlen Hall].
  destruct (findSegmentForWrite_lookup m (size r) k Hk) as [s Hs].
  destruct (well_formed_lookup m k s Hwf Hs) as (Hss & Hts & Hti).
  rewrite (commit_write_effect m k r s Hs (proj1 Hss) Hts Hti Hoff).
  split; cbn [segments].
  - rewrite length_insert. exact Hlen.
  - apply Forall_insert; [exact Hall|].
    apply committed_mirror; [exact Hoff|].
    rewrite Forall_lookup in Hall. apply (Hall k s Hs).
Qed.

Lemma step_mirror m op :
  op_typed op -> well_formed m -> pool seg_mirror m -> pool seg_mirror (step m op).
Proof.
  intros Hop Hwf Hm. destruct op as [r|]; cbn [step].
  - destruct Hop as [[Hoff _] _]. unfold processWriteRequest.
    destruct (findSegmentForWrite m (size r)) as [k|] eqn:Hk;
      [apply commit_write_mirror; assumption|].
    pose proof (garbageCollect_pool seg_mirror seg_mirror_shape write_byte_mirror
                  reset_victim_mirror m Hm) as Hm1.
    pose proof (garbageCollect_well_formed m Hwf) as Hwf1.
    destruct (garbageCollect m) as [m1 g]. cbn [fst] in *.
    destruct (findSegmentForWrite m1 (size r)) as [k|] eqn:Hk1; cbn [fst];
      [apply commit_write_mirror; assumption|exact Hm1].
  - apply (garbageCollect_pool seg_mirror seg_mirror_shape write_byte_mirror
             reset_victim_mirror m Hm).
Qed.

Lemma init_segment_mirror i s :
  seg_shape s -> no_stale_flags s -> seg_mirror (init_segment i s).
Proof.
  intros Hsh Hclean. split; [apply seg_sound_shape, init_segment_sound, Hsh|].
  intros j Hj. cbn [data valid init_segment]. unfold memset0.
  rewrite !read_zero_prefix by lia.
  change (Z.of_nat (Z.to_nat (SEGMENT_SIZE / 1))) with SEGMENT_SIZE.
  destruct (Z.ltb_spec j SEGMENT_SIZE); [|lia].
  destruct (Z.ltb_spec j (Z.of_nat (Z.to_nat (SEGMENT_SIZE / SIZEOF_INT)))) as [_|Hge].
  - split; [reflexivity|left; reflexivity].
  - rewrite Hclean.
    + split; [reflexivity|left; reflexivity].
    + rewrite Z2Nat.id in Hge by (vm_compute; discriminate). lia.
Qed.

Lemma init_segments_mirror l : forall i,
  Forall seg_shape l -> Forall no_stale_flags l -> Forall seg_mirror (init_segments i l).
Proof.
  induction l as [|s l IH]; intros i Hsh Hcl; cbn [init_segments]; [constructor|].
  apply Forall_cons in Hsh as [Hs Hsh]. apply Forall_cons in Hcl as [Hc Hcl].
  constructor; [apply init_segment_mirror; assumption|apply IH; assumption].
Qed.

(** X14.  In every state of a store initialised over clean storage, the
    data byte of every position is its validity flag: 1 where the position
    is valid and 0 where it is not. *)
Theorem data_mirrors_flags (m0 m : SegmentManager) :
  clean_storage m0 -> reachable m0 m ->
  forall k s j, segments m !! k = Some s -> 0 <= j < SEGMENT_SIZE ->
    read (data s) j = read (valid s) j /\ (read (valid s) j = 0 \/ read (valid s) j = 1).
Proof.
  intros [Hsh Hclean] Hr.
  assert (H : well_formed m /\ pool seg_mirror m).
  { induction Hr as [|m op Hop _ IH].
    - split; [apply initSegmentManager_well_formed, Hsh|].
      pose proof (initSegmentManager_well_formed m0 Hsh) as [[Hlen _] _].
      split; [exact Hlen|]. apply init_segments_mirror; [apply Hsh|exact Hclean].
    - destruct IH as [Hwf Hm].
      split; [apply step_well_formed; assumption|apply step_mirror; assumption]. }
  destruct H as [_ [_ Hall]]. intros k s j Hs Hj.
  rewrite Forall_lookup in Hall. apply (Hall k s Hs), Hj.
Qed.

(** X14, witness. *)
Lemma data_mirrors_flags_witness :
  exists s, segments two_writes !! 0%nat = Some s /\
    read (data s) 3 = read (valid s) 3 /\ (read (valid s) 3 = 0 \/ read (valid s) 3 = 1).
Proof.
  destruct (pool_head seg_sound two_writes (proj1 two_writes_well_formed)) as (s & Hs & _).
  exists s. split; [exact Hs|].
  apply (data_mirrors_flags zero_memory two_writes zero_memory_clean
           ltac:(apply reachable_run; typed_ops) 0%nat s 3 Hs).
  unfold SEGMENT_SIZE. lia.
Defined.

(** ** The identifiers of the segments *)

Lemma segmentId_invalidate_loop off sz s t :
  segmentId (fst (invalidate_loop off sz (s, t))) = segmentId s.
Proof.
  apply (for_upto_invariant invalidate_byte (fun st => segmentId (fst st) = segmentId s));
    [|reflexivity].
  intros i [a x] Ha. unfold invalidate_byte.
  destruct (_ && _); [|exact Ha]. exact Ha.
Qed.

Lemma id_of_same_segments m m' k : segments m' = segments m -> id_of m' k = id_of m k.
Proof. unfold id_of. intros ->. reflexivity. Qed.

Lemma id_of_set_totalWrites m n j : id_of (set_totalWrites m n) j = id_of m j.
Proof. reflexivity. Qed.

Lemma id_of_commit_write m k r j : id_of (commit_write m k r) j = id_of m j.
Proof.
  unfold commit_write. cbv zeta.
  rewrite id_of_set_totalWrites.
  unfold writeToSegment. rewrite id_of_alter by (intros s; apply segmentId_write_loop).
  unfold id_of. rewrite invalidateOldData_segments.
  destruct (decide (k = j)) as [->|Hne].
  - rewrite list_lookup_alter_eq. destruct (segments m !! j) as [s|]; [|reflexivity].
    cbn. apply segmentId_invalidate_loop.
  - rewrite list_lookup_alter_ne by exact Hne. reflexivity.
Qed.

Lemma id_of_garbageCollect m j : id_of (fst (garbageCollect m)) j = id_of m j.
Proof.
  destruct (garbageCollect_cases m) as [[Hgc _]|[[Hgc _]|(v & d & _ & _ & Hgc)]];
    rewrite Hgc; cbn [fst]; try reflexivity.
  rewrite (id_of_same_segments (compact v d m)) by apply segments_account_cost.
  apply id_of_compact.
Qed.

Lemma id_of_step m op j : id_of (step m op) j = id_of m j.
Proof.
  destruct op as [r|]; cbn [step]; [|apply id_of_garbageCollect].
  unfold processWriteRequest.
  destruct (findSegmentForWrite m (size r)) as [k|]; [apply id_of_commit_write|].
  pose proof (id_of_garbageCollect m j) as Hgc.
  destruct (garbageCollect m) as [m1 g]. cbn [fst] in Hgc.
  destruct (findSegmentForWrite m1 (size r)) as [k|]; cbn [fst];
    [rewrite id_of_commit_write|]; exact Hgc.
Qed.

Lemma lookup_init_segments l : forall i k s,
  init_segments i l !! k = Some s -> segmentId s = i + Z.of_nat k.
Proof.
  induction l as [|x l IH]; intros i k s H; [discriminate|].
  destruct k as [|k]; cbn [init_segments] in H.
  - injection H as <-. cbn. lia.
  - apply IH in H. lia.
Qed.

Lemma reachable_ids m0 m :
  shape m0 -> reachable m0 m ->
  forall k s, segments m !! k = Some s -> segmentId s = Z.of_nat k.
Proof.
  intros Hsh Hr.
  assert (Hid : forall k, id_of m k = id_of (initSegmentManager m0) k).
  { induction Hr as [|m op _ _ IH]; intros k; [reflexivity|].
    rewrite id_of_step. apply IH. }
  pose proof (reachable_well_formed m0 m Hsh Hr) as [[Hlen _] _].
  pose proof (initSegmentManager_well_formed m0 Hsh) as [[Hlen0 _] _].
  intros k s Hs. specialize (Hid k). unfold id_of in Hid. rewrite Hs in Hid.
  pose proof (lookup_lt_Some _ _ _ Hs) as Hlt.
  destruct (lookup_lt_is_Some_2 (segments (initSegmentManager m0)) k ltac:(lia)) as [s0 Hs0].
  rewrite Hs0 in Hid. cbn in Hid. rewrite Hid.
  apply (lookup_init_segments _ 0 k s0 Hs0).
Qed.

(** X15.  In every state of the store, the identifier of a segment is its
    index in the array; so the segment that a collection reports as freed
    is the victim that its scan selected. *)
Theorem segment_ids_are_indices (m0 m : SegmentManager) :
  shape m0 -> reachable m0 m ->
  (forall k s, segments m !! k = Some s -> segmentId s = Z.of_nat k) /\
  (forall m' id c, garbageCollect m = (m', VictimReclaimed id c) ->
     select_victim m = Some (Z.to_nat id) /\ 0 <= id < NUM_SEGMENTS).
Proof.
  intros Hsh Hr. pose proof (reachable_ids m0 m Hsh Hr) as Hids.
  pose proof (reachable_well_formed m0 m Hsh Hr) as [[Hlen _] _].
  split; [exact Hids|]. intros m' id c Hgc.
  destruct (garbageCollect_cases m) as [[H _]|[[H _]|(v & d & Hv & _ & H)]];
    rewrite H in Hgc; apply pair_equal_spec in Hgc as [_ Hg];
    [discriminate Hg|discriminate Hg|].
  rewrite id_of_compact in Hg. injection Hg as <- _.
  destruct (select_victim_Some m v Hv) as (s & Hs & _).
  unfold id_of. rewrite Hs. cbn. rewrite (Hids v s Hs), Nat2Z.id.
  split; [exact Hv|]. apply lookup_lt_Some in Hs. lia.
Qed.

(** X15, witness. *)
Lemma segment_ids_are_indices_witness :
  (forall k s, segments colliding !! k = Some s -> segmentId s = Z.of_nat k) /\
  (forall m' id c, garbageCollect colliding = (m', VictimReclaimed id c) ->
     select_victim colliding = Some (Z.to_nat id) /\ 0 <= id < NUM_SEGMENTS).
Proof.
  apply (segment_ids_are_indices zero_memory colliding zero_memory_shape).
  apply reachable_run. typed_ops.
Defined.

(** ** [printSegmentDetails] *)

Definition line_of (s : Segment) : Line :=
  SegmentDetails (segmentId s) (utilization s) (invalidatedBytes s).

Lemma details_lines_filter l :
  details_lines l = line_of <$> filter (fun s => 0 < utilization s) l.
Proof.
  induction l as [|s l IH]; [reflexivity|].
  cbn [details_lines]. unfold details_line.
  destruct (Z.ltb_spec 0 (utilization s)) as [Hu|Hu].
  - rewrite filter_cons_True by exact Hu. rewrite fmap_cons, IH. reflexivity.
  - rewrite filter_cons_False by lia. rewrite IH. reflexivity.
Qed.

(** X18.  [printSegmentDetails] prints one line for each segment in use, in
    the order of the array and for no other segment; in a state of the
    store, the identifier on a line is the index of its segment and the
    utilization on it lies between 1 and [SEGMENT_SIZE]; and the number of
    lines is the number of segments that [isGarbageCollectionNeeded]
    counts. *)
Theorem printSegmentDetails_lists_segments_in_use (m0 m : SegmentManager) :
  shape m0 -> reachable m0 m ->
  printSegmentDetails m = line_of <$> filter (fun s => 0 < utilization s) (segments m) /\
  Z.of_nat (length (printSegmentDetails m)) = usedSegments m /\
  (forall line, line ∈ printSegmentDetails m <->
     exists k s, segments m !! k = Some s /\ 0 < utilization s /\
       line = SegmentDetails (Z.of_nat k) (utilization s) (invalidatedBytes s)) /\
  (forall id u inv, SegmentDetails id u inv ∈ printSegmentDetails m ->
     0 <= id < NUM_SEGMENTS /\ 1 <= u <= SEGMENT_SIZE).
Proof.
  intros Hsh Hr. unfold printSegmentDetails.
  pose proof (reachable_ids m0 m Hsh Hr) as Hids.
  pose proof (reachable_well_formed m0 m Hsh Hr) as [[Hlen Hall] _].
  assert (Hmem : forall line, line ∈ details_lines (segments m) <->
     exists k s, segments m !! k = Some s /\ 0 < utilization s /\
       line = SegmentDetails (Z.of_nat k) (utilization s) (invalidatedBytes s)).
  { intros line. rewrite details_lines_filter, list_elem_of_fmap. split.
    - intros (s & -> & Hin). apply list_elem_of_filter in Hin as [Hu Hin].
      apply list_elem_of_lookup in Hin as [k Hk].
      exists k, s. split; [exact Hk|]. split; [exact Hu|].
      unfold line_of. rewrite (Hids k s Hk). reflexivity.
    - intros (k & s & Hk & Hu & ->). exists s. split.
      + unfold line_of. rewrite (Hids k s Hk). reflexivity.
      + apply list_elem_of_filter. split; [exact Hu|].
        apply list_elem_of_lookup. exists k. exact Hk. }
  split; [apply details_lines_filter|]. split; [|split; [exact Hmem|]].
  - rewrite details_lines_filter, length_fmap. reflexivity.
  - intros id u inv Hin. apply Hmem in Hin as (k & s & Hk & Hu & [= -> -> ->]).
    rewrite Forall_lookup in Hall. pose proof (seg_sound_range s (Hall k s Hk)) as Hrange.
    apply lookup_lt_Some in Hk. lia.
Qed.

(** X18, witness. *)
Lemma printSegmentDetails_lists_segments_in_use_witness :
  Z.of_nat (length (printSegmentDetails two_writes)) = usedSegments two_writes /\
  printSegmentDetails two_writes = [SegmentDetails 0 5 3].
Proof.
  split; [|vm_compute; reflexivity].
  apply (printSegmentDetails_lists_segments_in_use zero_memory two_writes zero_memory_shape).
  apply reachable_run. typed_ops.
Defined.

(** ** [generateWorkload], [addMoreWorkloads] and [main] *)

(** The largest size of a request of the workload. *)
Definition REQUEST_MAX : Z := Z.quot SEGMENT_SIZE 10.

Lemma uniform_request_range draw i :
  (forall k, 0 <= draw k) ->
  0 <= offset (uniform_request draw i) < SEGMENT_SIZE /\
  1 <= size (uniform_request draw i) <= REQUEST_MAX.
Proof.
  intros Hd. unfold uniform_request. cbn [offset size].
  pose proof (Z.rem_bound_pos (draw (2 * i)) SEGMENT_SIZE (Hd _) ltac:(reflexivity)) as Ho.
  pose proof (Z.rem_bound_pos (draw (2 * i + 1)) (Z.quot SEGMENT_SIZE 10) (Hd _)
                ltac:(reflexivity)) as Hs.
  change (Z.quot SEGMENT_SIZE 10) with 102 in *. change REQUEST_MAX with 102.
  unfold SEGMENT_SIZE in *.
  rewrite !wrap64_small by (unfold UINT64_MAX; lia). lia.
Qed.

(** The sum of a field over the segments. *)
Definition total (f : Segment -> Z) (l : list Segment) : Z :=
  foldr (fun s acc => f s + acc) 0 l.

Definition used (l : list Segment) : Z :=
  Z.of_nat (length (filter (fun s => 0 < utilization s) l)).

(** The segments in use are filled in the order of their indices: every
    segment before one in use has no room for a request of the largest
    size. *)
Definition packed (l : list Segment) : Prop :=
  forall k s, l !! k = Some s -> 0 < utilization s ->
  forall j s', (j < k)%nat -> l !! j = Some s' -> SEGMENT_SIZE - REQUEST_MAX < utilization s'.

Lemma total_cons f s l : total f (s :: l) = f s + total f l.
Proof. reflexivity. Qed.

Lemma total_app f l l' : total f (l ++ l') = total f l + total f l'.
Proof.
  induction l as [|s l IH]; [reflexivity|].
  change ((s :: l) ++ l') with (s :: (l ++ l')).
  rewrite !total_cons, IH. lia.
Qed.

Lemma total_insert f l : forall k s s',
  l !! k = Some s -> total f (<[k := s']> l) = total f l - f s + f s'.
Proof.
  induction l as [|x l IH]; intros [|k] s s' H; try discriminate.
  - injection H as ->. change (<[0%nat := s']> (s :: l)) with (s' :: l).
    rewrite !total_cons. lia.
  - change (<[S k := s']> (x :: l)) with (x :: <[k := s']> l).
    rewrite !total_cons, (IH k s s' H). lia.
Qed.

Lemma total_lower f c l :
  Forall (fun s => c <= f s) l -> c * Z.of_nat (length l) <= total f l.
Proof.
  induction 1 as [|s l Hs _ IH]; [cbn; lia|].
  rewrite total_cons, length_cons. lia.
Qed.

Lemma used_app l l' : used (l ++ l') = used l + used l'.
Proof. unfold used. rewrite filter_app, length_app. lia. Qed.

Lemma used_le_length l : 0 <= used l <= Z.of_nat (length l).
Proof. unfold used. pose proof (length_filter (fun s => 0 < utilization s) l). lia. Qed.

Lemma packed_app_l l l' : packed (l ++ l') -> packed l.
Proof.
  intros H k s Hk Hu j s' Hj Hj'.
  refine (H k s _ Hu j s' Hj _).
  - rewrite lookup_app_l by (apply lookup_lt_Some in Hk; exact Hk). exact Hk.
  - rewrite lookup_app_l by (apply lookup_lt_Some in Hj'; exact Hj'). exact Hj'.
Qed.

(** In a packed pool all the segments in use but the last are nearly full. *)
Lemma total_packed l :
  packed l -> Forall (fun s => 0 <= utilization s) l ->
  (SEGMENT_SIZE - REQUEST_MAX + 1) * (used l - 1) <= total utilization l.
Proof.
  induction l as [|s l IH] using rev_ind; intros Hp Hpos.
  - cbn. vm_compute. discriminate.
  - apply Forall_app in Hpos as [Hpos Hs]. apply Forall_inv in Hs.
    rewrite total_app, used_app.
    change (total utilization [s]) with (utilization s + 0).
    destruct (decide (0 < utilization s)) as [Hu|Hu].
    + assert (Hall : Forall (fun s' => SEGMENT_SIZE - REQUEST_MAX + 1 <= utilization s') l).
      { apply Forall_lookup_2. intros j s' Hj.
        assert (SEGMENT_SIZE - REQUEST_MAX < utilization s'); [|lia].
        refine (Hp (length l) s _ Hu j s' _ _).
        - rewrite lookup_app_r by lia. rewrite Nat.sub_diag. reflexivity.
        - apply lookup_lt_Some in Hj. exact Hj.
        - rewrite lookup_app_l by (apply lookup_lt_Some in Hj; exact Hj). exact Hj. }
      apply total_lower in Hall.
      pose proof (used_le_length l) as Hl.
      assert (Hone : used [s] = 1).
      { unfold used. rewrite filter_cons_True by exact Hu. reflexivity. }
      rewrite Hone.
      cbv beta in Hall. change (SEGMENT_SIZE - REQUEST_MAX + 1) with 923 in *. lia.
    + assert (Hz : used [s] = 0).
      { unfold used. rewrite filter_cons_False by exact Hu. reflexivity. }
      rewrite Hz. specialize (IH (packed_app_l _ _ Hp) Hpos). lia.
Qed.

(** The state of a store on which [n] requests of the workload have been
    written and no collection has run. *)
Definition quiet (n : Z) (m : SegmentManager) : Prop :=
  well_formed m /\ packed (segments m) /\
  total utilization (segments m) <= REQUEST_MAX * n /\
  totalWrites m = n /\ gcCount m = 0 /\ totalGcCost m = 0%float /\
  totalInvalidated m = total invalidatedBytes (segments m) /\
  totalInvalidated m <= REQUEST_MAX * n.

(** The number of requests that cannot fill the segments that a
    collection needs to be in use. *)
Definition QUIET_REQUESTS : Z := 8334.

Lemma well_formed_nonneg m :
  well_formed m -> Forall (fun s => 0 <= utilization s) (segments m).
Proof.
  intros [[_ Hall] _]. eapply Forall_impl; [exact Hall|].
  intros s Hs. apply seg_sound_range in Hs. lia.
Qed.

Lemma total_nonneg f l : Forall (fun s => 0 <= f s) l -> 0 <= total f l.
Proof. induction 1 as [|x l Hx _ IH]; [cbn; lia|rewrite total_cons; lia]. Qed.

Lemma total_member f l k s :
  Forall (fun s => 0 <= f s) l -> l !! k = Some s -> f s <= total f l.
Proof.
  intros Hall. revert k. induction Hall as [|x l Hx Hl IH]; intros [|k] Hk; try discriminate.
  - injection Hk as ->. rewrite total_cons. pose proof (total_nonneg f l Hl). lia.
  - rewrite total_cons. specialize (IH k Hk). lia.
Qed.

Lemma well_formed_invalidated_nonneg m :
  well_formed m -> Forall (fun s => 0 <= invalidatedBytes s) (segments m).
Proof.
  intros [_ (_ & _ & _ & Hall)]. eapply Forall_impl; [exact Hall|].
  intros s [_ [H _]]. exact H.
Qed.

Lemma length_touched_le s r :
  0 <= offset r -> 0 <= size r -> offset r + size r <= UINT64_MAX ->
  Z.of_nat (length (touched s r)) <= size r.
Proof.
  intros Ho Hs Hsum. unfold touched.
  rewrite length_window by exact Ho. rewrite rounds_exact by assumption. lia.
Qed.

Lemma quiet_accept n m r :
  quiet n m -> 0 <= n < QUIET_REQUESTS ->
  0 <= offset r < SEGMENT_SIZE -> 1 <= size r <= REQUEST_MAX ->
  exists k, findSegmentForWrite m (size r) = Some k /\
            quiet (n + 1) (commit_write m k r).
Proof.
  intros (Hwf & Hp & Hsum & Hw & Hg & Hc & Hti & Htb) Hn Ho Hs.
  change REQUEST_MAX with 102 in *. unfold QUIET_REQUESTS in Hn.
  assert (Hfit : forall s, seg_sound s ->
            fits (size r) s = false -> SEGMENT_SIZE - 102 < utilization s).
  { intros s Hss Hf. pose proof (seg_sound_range s Hss) as Hr.
    destruct (Z_le_gt_dec (utilization s + size r) SEGMENT_SIZE) as [Hle|Hgt]; [|lia].
    apply (fits_exact (size r) s) in Hle;
      [congruence|lia|lia|unfold SEGMENT_SIZE, UINT64_MAX in *; lia]. }
  destruct (findSegmentForWrite m (size r)) as [k|] eqn:Hf.
  - exists k. split; [reflexivity|].
    apply findSegmentForWrite_Some in Hf as (s & Hk & Hfits & Hbefore).
    destruct (well_formed_lookup m k s Hwf Hk) as (Hss & Hts & Htu).
    pose proof (commit_write_well_formed m k r Hwf ltac:(lia)) as Hwf'.
    rewrite (commit_write_effect m k r s Hk (proj1 Hss) Hts Htu ltac:(lia)) in *.
    destruct (committed_fields s r Hss) as (Hu & Hinv & _ & _). cbv zeta in Hu, Hinv.
    pose proof (total_member invalidatedBytes _ k s
                  (well_formed_invalidated_nonneg m Hwf) Hk) as Hmem.
    destruct Hts as [_ [Hinv0 _]].
    pose proof (touched_bounds s r (proj1 Hss)) as [Hcv _].
    pose proof (length_touched_le s r ltac:(lia) ltac:(lia)
                  ltac:(unfold SEGMENT_SIZE, UINT64_MAX in *; lia)) as Hlen.
    set (s' := committed s (offset r) (rounds (offset r) (size r))) in *.
    split; [exact Hwf'|]. cbn [segments totalWrites gcCount totalGcCost totalInvalidated].
    assert (Hnowrap : wrap64 (totalInvalidated m + count_valid (touched s r)) =
                      totalInvalidated m + count_valid (touched s r)).
    { apply wrap64_small. destruct Htu. unfold UINT64_MAX. lia. }
    rewrite wrap64_small in Hinv by (unfold UINT64_MAX; lia).
    split; [|split; [|split; [|split; [exact Hg|split; [exact Hc|split]]]]].
    + intros k' x Hk' Hx j x' Hj Hj'.
      change (SEGMENT_SIZE - REQUEST_MAX) with (SEGMENT_SIZE - 102).
      destruct (decide (j = k)) as [->|Hjk].
      * rewrite list_lookup_insert_eq in Hj' by (apply lookup_lt_Some in Hk; exact Hk).
        injection Hj' as <-.
        rewrite list_lookup_insert_ne in Hk' by lia.
        pose proof (Hp k' x Hk' Hx k s Hj Hk) as Hold.
        change (SEGMENT_SIZE - REQUEST_MAX) with (SEGMENT_SIZE - 102) in Hold. lia.
      * rewrite list_lookup_insert_ne in Hj' by congruence.
        destruct (decide (k' = k)) as [->|Hk'k].
        -- apply Hfit; [apply (pool_lookup seg_sound m j x' (proj1 Hwf) Hj')|].
           apply (Hbefore j x' Hj Hj').
        -- rewrite list_lookup_insert_ne in Hk' by congruence.
           apply (Hp k' x Hk' Hx j x' Hj Hj').
    + rewrite (total_insert utilization _ k s s' Hk). change REQUEST_MAX with 102. lia.
    + rewrite Hw. apply wrap64_small. unfold UINT64_MAX. lia.
    + rewrite Hnowrap, (total_insert invalidatedBytes _ k s s' Hk), Hinv. lia.
    + rewrite Hnowrap. change REQUEST_MAX with 102. lia.
  - exfalso. rewrite findSegmentForWrite_None in Hf.
    assert (Hall : Forall (fun s => SEGMENT_SIZE - 102 + 1 <= utilization s) (segments m)).
    { apply Forall_forall. intros s Hin.
      assert (SEGMENT_SIZE - 102 < utilization s); [|lia].
      apply Hfit; [|apply Hf, Hin].
      destruct Hwf as [[_ Hall] _]. rewrite Forall_forall in Hall. apply Hall, Hin. }
    apply total_lower in Hall.
    destruct Hwf as [[Hlen _] _]. rewrite Hlen in Hall.
    unfold SEGMENT_SIZE, NUM_SEGMENTS in *. lia.
Qed.

Lemma quiet_no_collection n m :
  quiet n m -> 0 <= n <= QUIET_REQUESTS -> isGarbageCollectionNeeded m = false.
Proof.
  intros (Hwf & Hp & Hsum & _) Hn. unfold isGarbageCollectionNeeded.
  pose proof (usedSegments_range m) as Hu.
  destruct Hwf as [[Hlen Hall] Hty]. rewrite Hlen in Hu.
  apply not_true_is_false. rewrite (threshold_exact _ Hu).
  pose proof (total_packed (segments m) Hp
                (well_formed_nonneg m (conj (conj Hlen Hall) Hty))) as Hlow.
  change (used (segments m)) with (usedSegments m) in Hlow.
  change REQUEST_MAX with 102 in *. unfold QUIET_REQUESTS, SEGMENT_SIZE, NUM_SEGMENTS in *.
  lia.
Qed.

Lemma init_segments_empty l : forall i,
  Forall (fun s => utilization s = 0) (init_segments i l).
Proof.
  induction l as [|s l IH]; intros i; cbn [init_segments]; constructor; [reflexivity|apply IH].
Qed.

Lemma init_segments_unused l : forall i,
  Forall (fun s => invalidatedBytes s = 0) (init_segments i l).
Proof.
  induction l as [|s l IH]; intros i; cbn [init_segments]; constructor; [reflexivity|apply IH].
Qed.

Lemma total_zero f l : Forall (fun s => f s = 0) l -> total f l = 0.
Proof.
  induction 1 as [|s l Hs _ IH]; [reflexivity|]. rewrite total_cons. lia.
Qed.

Lemma quiet_init m0 : shape m0 -> quiet 0 (initSegmentManager m0).
Proof.
  intros Hsh. pose proof (init_segments_empty (segments m0) 0) as He.
  split; [apply initSegmentManager_well_formed, Hsh|].
  cbn [initSegmentManager segments totalWrites gcCount totalGcCost totalInvalidated].
  split; [|split; [|split; [|split; [|split; [|split]]]]]; try reflexivity.
  - intros k s Hk Hu. rewrite Forall_lookup in He. rewrite (He k s Hk) in Hu. lia.
  - rewrite (total_zero utilization _ He). reflexivity.
  - rewrite (total_zero invalidatedBytes _ (init_segments_unused (segments m0) 0)).
    reflexivity.
Qed.

Lemma workload_round_quiet draw i n m out :
  (forall k, 0 <= draw k) -> quiet n m -> 0 <= n < QUIET_REQUESTS ->
  exists m', workload_round draw i (m, out) = (m', out) /\ quiet (n + 1) m'.
Proof.
  intros Hd Hq Hn.
  destruct (uniform_request_range draw i Hd) as [Ho Hs].
  destruct (quiet_accept n m _ Hq Hn Ho Hs) as (k & Hp & Hq').
  exists (commit_write m k (uniform_request draw i)). split; [|exact Hq'].
  unfold workload_round. cbn [fst snd]. rewrite (processWriteRequest_accepted _ _ k Hp).
  rewrite (quiet_no_collection (n + 1) _ Hq') by (unfold QUIET_REQUESTS in *; lia).
  cbn [write_lines]. rewrite app_nil_r. reflexivity.
Qed.

Lemma generateWorkload_quiet n m numRequests draw :
  (forall k, 0 <= draw k) -> quiet n m ->
  0 <= n -> 0 <= numRequests -> n + numRequests <= QUIET_REQUESTS ->
  quiet (n + numRequests) (fst (generateWorkload m numRequests draw)) /\
  snd (generateWorkload m numRequests draw) = [].
Proof.
  intros Hd Hq Hn Hr Hsum. unfold generateWorkload.
  apply (for_upto_indexed (workload_round draw)
           (fun i st => quiet (n + i) (fst st) /\ snd st = []) 0 numRequests Hr).
  - intros i [m' out] Hi [Hq' Hout]. cbn [fst snd] in *. subst out.
    destruct (workload_round_quiet draw i (n + i) m' [] Hd Hq' ltac:(lia)) as (m2 & -> & Hq2).
    cbn [fst snd]. rewrite Z.add_assoc. split; [exact Hq2|reflexivity].
  - cbn [fst snd]. rewrite Z.add_0_r. split; [exact Hq|reflexivity].
Qed.

Lemma length_details_lines l : Z.of_nat (length (details_lines l)) = used l.
Proof.
  induction l as [|s l IH]; [reflexivity|].
  cbn [details_lines]. rewrite length_app, Nat2Z.inj_add, IH.
  change (s :: l) with ([s] ++ l). rewrite used_app. f_equal.
  unfold details_line, used.
  destruct (Z.ltb_spec 0 (utilization s)) as [Hu|Hu].
  - rewrite filter_cons_True by exact Hu. reflexivity.
  - rewrite filter_cons_False by lia. reflexivity.
Qed.

Lemma used_all l :
  Forall (fun s => 0 < utilization s) l -> used l = Z.of_nat (length l).
Proof.
  unfold used. induction 1 as [|s l Hs _ IH]; [reflexivity|].
  rewrite filter_cons_True by exact Hs. rewrite !length_cons, !Nat2Z.inj_succ, IH. reflexivity.
Qed.

(** In a packed pool the segments in use are the first [used l]. *)
Lemma packed_prefix l :
  packed l ->
  forall k s, l !! k = Some s -> 0 < utilization s <-> Z.of_nat k < used l.
Proof.
  induction l as [|x l IH] using rev_ind; intros Hp k s Hk; [discriminate|].
  rewrite used_app.
  destruct (decide (0 < utilization x)) as [Hu|Hu].
  - assert (Hall : Forall (fun s' => 0 < utilization s') l).
    { apply Forall_lookup_2. intros j s' Hj.
      assert (SEGMENT_SIZE - REQUEST_MAX < utilization s');
        [|change (SEGMENT_SIZE - REQUEST_MAX) with 922 in *; lia].
      refine (Hp (length l) x _ Hu j s' _ _).
      - rewrite lookup_app_r by lia. rewrite Nat.sub_diag. reflexivity.
      - apply lookup_lt_Some in Hj. exact Hj.
      - rewrite lookup_app_l by (apply lookup_lt_Some in Hj; exact Hj). exact Hj. }
    rewrite (used_all l Hall).
    assert (Hone : used [x] = 1).
    { unfold used. rewrite filter_cons_True by exact Hu. reflexivity. }
    rewrite Hone. pose proof (lookup_lt_Some _ _ _ Hk) as Hlt.
    rewrite length_app in Hlt. cbn [length] in Hlt.
    split; [lia|]. intros _.
    destruct (decide (k < length l)%nat) as [Hkl|Hkl].
    + rewrite lookup_app_l in Hk by exact Hkl.
      rewrite Forall_lookup in Hall. apply (Hall k s Hk).
    + rewrite lookup_app_r in Hk by lia.
      replace (k - length l)%nat with 0%nat in Hk by lia. injection Hk as <-. exact Hu.
  - assert (Hz : used [x] = 0).
    { unfold used. rewrite filter_cons_False by exact Hu. reflexivity. }
    rewrite Hz, Z.add_0_r. pose proof (used_le_length l) as Hl.
    destruct (decide (k < length l)%nat) as [Hkl|Hkl].
    + rewrite lookup_app_l in Hk by exact Hkl.
      apply (IH (packed_app_l _ _ Hp) k s Hk).
    + rewrite lookup_app_r in Hk by lia.
      pose proof (lookup_lt_Some _ _ _ Hk) as Hlt. cbn [length] in Hlt.
      replace (k - length l)%nat with 0%nat in Hk by lia. injection Hk as <-.
      split; [intros; contradiction|lia].
Qed.

Lemma addMoreWorkloads_pair m n draw :
  addMoreWorkloads m n draw =
  (fst (generateWorkload m n draw), AddingMoreWorkloads :: snd (generateWorkload m n draw)).
Proof. unfold addMoreWorkloads. destruct (generateWorkload m n draw). reflexivity. Qed.

Lemma uniform_request_typed draw i : request_typed (uniform_request draw i).
Proof. split; apply wrap64_range. Qed.

Lemma workload_round_reachable m0 draw i st :
  reachable m0 (fst st) -> reachable m0 (fst (workload_round draw i st)).
Proof.
  intros Hr. unfold workload_round.
  pose proof (reach_step m0 (fst st) (OpWrite (uniform_request draw i))
                (uniform_request_typed draw i) Hr) as H1.
  cbn [step] in H1.
  destruct (processWriteRequest (fst st) (uniform_request draw i)) as [m1 w].
  cbn [fst] in H1.
  destruct (isGarbageCollectionNeeded m1); [|exact H1].
  pose proof (reach_step m0 m1 OpCollect I H1) as H2. cbn [step] in H2.
  destruct (garbageCollect m1) as [m2 g]. exact H2.
Qed.

Lemma generateWorkload_reachable m0 m numRequests draw :
  reachable m0 m -> reachable m0 (fst (generateWorkload m numRequests draw)).
Proof.
  intros Hr. unfold generateWorkload.
  apply (for_upto_invariant (workload_round draw) (fun st => reachable m0 (fst st)));
    [|exact Hr].
  intros i st. apply workload_round_reachable.
Qed.

(** X16.  Every state that a workload leads to is a state of the store: it is
    reached by writes and collections; and a workload of no requests
    changes nothing and prints nothing. *)
Theorem workload_states_are_reachable (m0 m : SegmentManager) (numRequests : Z)
    (draw : Z -> Z) :
  reachable m0 m ->
  reachable m0 (fst (generateWorkload m numRequests draw)) /\
  (numRequests <= 0 -> generateWorkload m numRequests draw = (m, [])).
Proof.
  intros Hr. split; [apply generateWorkload_reachable, Hr|].
  intros Hn. apply for_upto_empty. lia.
Qed.

(** The values of [rand()] in the examples. *)
Definition sample_draw (k : Z) : Z := Z.abs (1103515245 * k + 12345).

Lemma sample_draw_nonneg k : 0 <= sample_draw k.
Proof. unfold sample_draw. lia. Qed.

(** X16, witness. *)
Lemma workload_states_are_reachable_witness :
  reachable zero_memory
    (fst (generateWorkload (initSegmentManager zero_memory) 10 sample_draw)) /\
  (10 <= 0 -> generateWorkload (initSegmentManager zero_memory) 10 sample_draw =
              (initSegmentManager zero_memory, [])).
Proof.
  apply (workload_states_are_reachable zero_memory _ 10 sample_draw), reach_init.
Defined.

(** X17.  A workload of at most [QUIET_REQUESTS] requests on a store just
    initialised, whatever the storage held and whatever [rand()] returns:
    every request is accepted at the first attempt, no collection runs and
    nothing is printed. *)
Theorem workload_never_collects (m0 : SegmentManager) (numRequests : Z) (draw : Z -> Z) :
  shape m0 -> (forall k, 0 <= draw k) -> 0 <= numRequests <= QUIET_REQUESTS ->
  let res := generateWorkload (initSegmentManager m0) numRequests draw in
  snd res = [] /\
  totalWrites (fst res) = numRequests /\
  gcCount (fst res) = 0 /\
  totalGcCost (fst res) = 0%float /\
  totalInvalidated (fst res) = total invalidatedBytes (segments (fst res)).
Proof.
  intros Hsh Hd Hn. cbv zeta.
  destruct (generateWorkload_quiet 0 (initSegmentManager m0) numRequests draw Hd
              (quiet_init m0 Hsh) ltac:(lia) ltac:(lia) ltac:(lia))
    as [(_ & _ & _ & Hw & Hg & Hc & Hti & _) Hout].
  rewrite Z.add_0_l in Hw.
  split; [exact Hout|]. split; [exact Hw|]. split; [exact Hg|]. split; [exact Hc|exact Hti].
Qed.

(** X17, witness. *)
Lemma workload_never_collects_witness :
  let res := generateWorkload (initSegmentManager zero_memory) 3 sample_draw in
  snd res = [] /\
  totalWrites (fst res) = 3 /\
  gcCount (fst res) = 0 /\
  totalGcCost (fst res) = 0%float /\
  totalInvalidated (fst res) = total invalidatedBytes (segments (fst res)).
Proof.
  apply (workload_never_collects zero_memory 3 sample_draw zero_memory_shape
           sample_draw_nonneg).
  unfold QUIET_REQUESTS. lia.
Defined.

(** X19.  [main], whatever the storage of [manager] held and whatever [rand()]
    returns: the 3000 requests are all accepted, no collection ever runs,
    and the output is the four headings, the second of them twice, followed
    by the details of the segments in use, which are the first [p] segments
    for some [p] of at most 332. *)
Theorem main_never_collects (m0 : SegmentManager) (draw1 draw2 : Z -> Z) :
  shape m0 -> (forall k, 0 <= draw1 k) -> (forall k, 0 <= draw2 k) ->
  let m := fst (main m0 draw1 draw2) in
  reachable m0 m /\
  snd (main m0 draw1 draw2) =
    [GeneratingWorkload; AddingMoreWorkloads; AddingMoreWorkloads;
     SegmentDetailsAfterWorkloads] ++ printSegmentDetails m /\
  totalWrites m = 3000 /\ gcCount m = 0 /\ totalGcCost m = 0%float /\
  totalInvalidated m = total invalidatedBytes (segments m) /\
  exists p, Z.of_nat (length (printSegmentDetails m)) = p /\ p <= 332 /\
    forall k s, segments m !! k = Some s -> 0 < utilization s <-> Z.of_nat k < p.
Proof.
  intros Hsh Hd1 Hd2. unfold main.
  pose proof (generateWorkload_reachable m0 _ 2000 draw1 (reach_init m0)) as Hr1.
  destruct (generateWorkload_quiet 0 (initSegmentManager m0) 2000 draw1 Hd1
              (quiet_init m0 Hsh) ltac:(lia) ltac:(lia) ltac:(unfold QUIET_REQUESTS; lia))
    as [Hq1 Hout1].
  destruct (generateWorkload (initSegmentManager m0) 2000 draw1) as [m2 out2].
  cbn [fst snd] in Hq1, Hout1, Hr1. subst out2.
  rewrite addMoreWorkloads_pair.
  pose proof (generateWorkload_reachable m0 m2 1000 draw2 Hr1) as Hr2.
  destruct (generateWorkload_quiet (0 + 2000) m2 1000 draw2 Hd2 Hq1
              ltac:(lia) ltac:(lia) ltac:(unfold QUIET_REQUESTS; lia))
    as [(Hwf & Hp & Hsum & Hw & Hg & Hc & Hti & _) Hout2].
  destruct (generateWorkload m2 1000 draw2) as [m3 out3].
  cbn [fst snd] in *. subst out3. cbv zeta.
  split; [exact Hr2|]. split; [reflexivity|]. split; [exact Hw|]. split; [exact Hg|]. split; [exact Hc|].
  split; [exact Hti|].
  exists (used (segments m3)). split; [apply length_details_lines|].
  split; [|apply packed_prefix, Hp].
  pose proof (total_packed (segments m3) Hp (well_formed_nonneg m3 Hwf)) as Hlow.
  change REQUEST_MAX with 102 in *. unfold SEGMENT_SIZE in *. lia.
Qed.

(** X19, witness. *)
Lemma main_never_collects_witness :
  totalWrites (fst (main zero_memory sample_draw sample_draw)) = 3000 /\
  gcCount (fst (main zero_memory sample_draw sample_draw)) = 0.
Proof.
  destruct (main_never_collects zero_memory sample_draw sample_draw zero_memory_shape
              sample_draw_nonneg sample_draw_nonneg) as (_ & _ & Hw & Hg & _).
  split; [exact Hw|exact Hg].
Defined.

(** ** The variant [segment_adv2.c] *)

(** The manager of the variant, seen as a manager that has not collected:
    the segments and the two counters are the same. *)
Definition lift (m : Adv2.SegmentManager) : SegmentManager :=
  mkManager (Adv2.segments m) (Adv2.totalWrites m) (Adv2.totalInvalidated m) 0 0%float.

Lemma lift_init m0 : lift (Adv2.initSegmentManager m0) = initSegmentManager (lift m0).
Proof. reflexivity. Qed.

(** On a request that finds room, the variant does what
    [processWriteRequest] of [segment_adv4.c] does. *)
Lemma adv2_accepted m r k :
  Adv2.findSegmentForWrite m (size r) = Some k ->
  snd (Adv2.processWriteRequest m r) = [] /\
  lift (fst (Adv2.processWriteRequest m r)) = commit_write (lift m) k r.
Proof.
  intros Hk. unfold Adv2.processWriteRequest. rewrite Hk. cbv zeta. cbn [fst snd].
  split; [reflexivity|].
  unfold commit_write, writeToSegment, update_segment, invalidateOldData,
    Adv2.writeToSegment, Adv2.invalidateOldData, lift.
  cbn [segments Adv2.segments totalInvalidated Adv2.totalInvalidated].
  destruct (Adv2.segments m !! k) as [s|]; [|reflexivity].
  destruct (invalidate_loop (offset r) (size r) (s, Adv2.totalInvalidated m)) as [s' t].
  reflexivity.
Qed.

Definition known (distribution : string) : Prop :=
  distribution = "uniform"%string \/ distribution = "hotspot"%string \/
  distribution = "sequential"%string.

Lemma workload_size_range (draw : Z -> Z) k :
  0 <= draw k ->
  1 <= wrap64 (Z.rem (draw k) (Z.quot SEGMENT_SIZE 10) + 1) <= REQUEST_MAX.
Proof.
  intros Hd.
  pose proof (Z.rem_bound_pos (draw k) (Z.quot SEGMENT_SIZE 10) Hd ltac:(reflexivity)) as Hs.
  change (Z.quot SEGMENT_SIZE 10) with 102 in *. change REQUEST_MAX with 102.
  rewrite wrap64_small by (unfold UINT64_MAX; lia). lia.
Qed.

Lemma workload_offset_range (draw : Z -> Z) k bound :
  0 <= draw k -> 0 < bound <= SEGMENT_SIZE ->
  0 <= wrap64 (Z.rem (draw k) bound) < bound.
Proof.
  intros Hd Hb. pose proof (Z.rem_bound_pos (draw k) bound Hd ltac:(lia)) as Ho.
  rewrite wrap64_small by (unfold SEGMENT_SIZE, UINT64_MAX in *; lia). exact Ho.
Qed.

(** The offsets of the distribution ["sequential"]: the product stays
    below [SEGMENT_SIZE], so that the remainder changes nothing. *)
Lemma sequential_offset numRequests i :
  0 <= i < numRequests ->
  wrap64 (Z.rem (i * Z.quot SEGMENT_SIZE numRequests) SEGMENT_SIZE) =
    i * Z.quot SEGMENT_SIZE numRequests /\
  0 <= i * Z.quot SEGMENT_SIZE numRequests < SEGMENT_SIZE /\
  (SEGMENT_SIZE < numRequests -> Z.quot SEGMENT_SIZE numRequests = 0).
Proof.
  intros Hi.
  assert (Hq : 0 <= Z.quot SEGMENT_SIZE numRequests /\
               i * Z.quot SEGMENT_SIZE numRequests < SEGMENT_SIZE /\
               (SEGMENT_SIZE < numRequests -> Z.quot SEGMENT_SIZE numRequests = 0)).
  { rewrite Z.quot_div_nonneg by (unfold SEGMENT_SIZE; lia).
    pose proof (Z.div_pos SEGMENT_SIZE numRequests ltac:(unfold SEGMENT_SIZE; lia)
                  ltac:(lia)) as Hpos.
    pose proof (Z.mul_div_le SEGMENT_SIZE numRequests ltac:(lia)) as Hle.
    split; [exact Hpos|].
    split; [|intros Hbig; apply Z.div_small; unfold SEGMENT_SIZE in *; lia].
    destruct (Z.eq_dec (SEGMENT_SIZE / numRequests) 0) as [->|Hne];
      [unfold SEGMENT_SIZE; lia|nia]. }
  destruct Hq as (Hq0 & Hq1 & Hq2).
  rewrite Z.rem_small by nia.
  rewrite wrap64_small by (unfold SEGMENT_SIZE, UINT64_MAX in *; nia).
  split; [reflexivity|]. split; [nia|exact Hq2].
Qed.

Lemma next_request_range distribution numRequests i draw c :
  known distribution -> (forall k, 0 <= draw k) -> 0 <= i < numRequests ->
  exists r c', Adv2.next_request distribution numRequests i draw c = Some (r, c') /\
    0 <= offset r < SEGMENT_SIZE /\ 1 <= size r <= REQUEST_MAX.
Proof.
  intros Hk Hd Hi. unfold Adv2.next_request.
  destruct Hk as [-> | [-> | ->]]; cbn [String.eqb Ascii.eqb Bool.eqb andb];
    eexists; eexists; (split; [reflexivity|]); cbn [offset size];
    (split; [|apply workload_size_range, Hd]).
  - apply workload_offset_range; [apply Hd|unfold SEGMENT_SIZE; lia].
  - pose proof (workload_offset_range draw c (Z.quot SEGMENT_SIZE 4) (Hd _)
                  ltac:(vm_compute; split; [reflexivity|discriminate])) as Ho.
    change (Z.quot SEGMENT_SIZE 4) with 256 in *. unfold SEGMENT_SIZE. lia.
  - destruct (sequential_offset numRequests i Hi) as (-> & Hr & _). exact Hr.
Qed.

(** X20.  The requests of the three distributions, where [rand()] returns
    no negative value: the offset lies in the segment, below a quarter of
    it for ["hotspot"], and at [i * (SEGMENT_SIZE / numRequests)] for
    ["sequential"], which is 0 throughout when there are more requests than
    positions; the size lies between 1 and 102. *)
Theorem adv2_requests_in_range (distribution : string) (numRequests i : Z)
    (draw : Z -> Z) (c : Z) :
  known distribution -> (forall k, 0 <= draw k) -> 0 <= i < numRequests ->
  exists r c', Adv2.next_request distribution numRequests i draw c = Some (r, c') /\
    0 <= offset r < SEGMENT_SIZE /\ 1 <= size r <= REQUEST_MAX /\
    (distribution = "hotspot"%string -> offset r < 256) /\
    (distribution = "sequential"%string ->
       offset r = i * (SEGMENT_SIZE `quot` numRequests) /\
       (SEGMENT_SIZE < numRequests -> offset r = 0)).
Proof.
  intros Hk Hd Hi. unfold Adv2.next_request.
  destruct Hk as [-> | [-> | ->]]; cbn [String.eqb Ascii.eqb Bool.eqb andb];
    eexists; eexists; (split; [reflexivity|]); cbn [offset size].
  - split; [apply workload_offset_range; [apply Hd|unfold SEGMENT_SIZE; lia]|].
    split; [apply workload_size_range, Hd|]. split; intros [=].
  - pose proof (workload_offset_range draw c (Z.quot SEGMENT_SIZE 4) (Hd _)
                  ltac:(vm_compute; split; [reflexivity|discriminate])) as Ho.
    change (Z.quot SEGMENT_SIZE 4) with 256 in *.
    split; [unfold SEGMENT_SIZE; lia|]. split; [apply workload_size_range, Hd|].
    split; [intros _; lia|intros [=]].
  - destruct (sequential_offset numRequests i Hi) as (-> & Hr & Hbig).
    split; [exact Hr|]. split; [apply workload_size_range, Hd|].
    split; [intros [=]|]. intros _. split; [reflexivity|].
    intros Hn. rewrite (Hbig Hn). lia.
Qed.

(** X20, witness. *)
Lemma adv2_requests_in_range_witness :
  exists r c', Adv2.next_request "sequential" 100 7 sample_draw 3 = Some (r, c') /\
    0 <= offset r < SEGMENT_SIZE /\ 1 <= size r <= REQUEST_MAX /\
    ("sequential"%string = "hotspot"%string -> offset r < 256) /\
    ("sequential"%string = "sequential"%string ->
       offset r = 7 * (SEGMENT_SIZE `quot` 100) /\
       (SEGMENT_SIZE < 100 -> offset r = 0)).
Proof.
  apply (adv2_requests_in_range "sequential" 100 7 sample_draw 3);
    [right; right; reflexivity|exact sample_draw_nonneg|lia].
Defined.

Lemma next_request_unknown distribution numRequests i draw c :
  ~ known distribution -> Adv2.next_request distribution numRequests i draw c = None.
Proof.
  intros Hk. unfold Adv2.next_request, known in *.
  destruct (String.eqb_spec distribution "uniform") as [->|_]; [tauto|].
  destruct (String.eqb_spec distribution "hotspot") as [->|_]; [tauto|].
  destruct (String.eqb_spec distribution "sequential") as [->|_]; [tauto|].
  reflexivity.
Qed.

(** X21.  With a distribution that is none of the three, [generateWorkload]
    writes nothing: it prints one line and returns in the first round, and
    when it is asked for no request it does not even print. *)
Theorem adv2_unknown_distribution (m : Adv2.SegmentManager) (numRequests : Z)
    (distribution : string) (draw : Z -> Z) :
  ~ known distribution ->
  Adv2.generateWorkload m numRequests distribution draw =
    (m, if 0 <? numRequests then [Adv2.UnknownDistribution] else []).
Proof.
  intros Hk. unfold Adv2.generateWorkload.
  destruct (Z.ltb_spec 0 numRequests) as [Hpos|Hneg].
  - destruct (Z.to_nat numRequests) as [|n] eqn:Hn; [lia|].
    cbn [Adv2.workload_loop]. rewrite next_request_unknown by exact Hk. reflexivity.
  - replace (Z.to_nat numRequests) with 0%nat by lia. reflexivity.
Qed.

(** Storage of the variant that holds only zero bytes. *)
Definition adv2_zero_memory : Adv2.SegmentManager :=
  Adv2.mkManager (replicate (Z.to_nat NUM_SEGMENTS) zero_segment) 0 0.

Lemma adv2_zero_memory_shape : shape (lift adv2_zero_memory).
Proof. exact zero_memory_shape. Qed.

(** X21, witness. *)
Lemma adv2_unknown_distribution_witness :
  Adv2.generateWorkload adv2_zero_memory 100 "zipf" sample_draw =
    (adv2_zero_memory, [Adv2.UnknownDistribution]).
Proof.
  apply (adv2_unknown_distribution adv2_zero_memory 100 "zipf" sample_draw).
  intros [H|[H|H]]; discriminate H.
Defined.

Lemma adv2_loop_quiet distribution numRequests draw (n : nat) :
  known distribution -> (forall k, 0 <= draw k) ->
  forall i c m out n0,
    0 <= i -> i + Z.of_nat n <= numRequests ->
    0 <= n0 -> n0 + Z.of_nat n <= QUIET_REQUESTS -> quiet n0 (lift m) ->
    snd (Adv2.workload_loop n distribution numRequests i draw c m out) = out /\
    quiet (n0 + Z.of_nat n)
          (lift (fst (Adv2.workload_loop n distribution numRequests i draw c m out))).
Proof.
  intros Hk Hd. induction n as [|n IH]; intros i c m out n0 Hi Hin Hn0 Hq0 Hq.
  - cbn [Adv2.workload_loop fst snd]. rewrite Z.add_0_r. split; [reflexivity|exact Hq].
  - cbn [Adv2.workload_loop].
    destruct (next_request_range distribution numRequests i draw c Hk Hd ltac:(lia))
      as (r & c' & -> & Ho & Hs).
    destruct (quiet_accept n0 (lift m) r Hq ltac:(lia) Ho Hs) as (k & Hfind & Hq').
    destruct (adv2_accepted m r k Hfind) as [Hout Hlift].
    destruct (Adv2.processWriteRequest m r) as [m1 o]. cbn [fst snd] in Hout, Hlift.
    subst o. rewrite app_nil_r. rewrite <- Hlift in Hq'.
    destruct (IH (i + 1) c' m1 out (n0 + 1) ltac:(lia) ltac:(lia) ltac:(lia) ltac:(lia) Hq')
      as [Hsnd Hfst].
    split; [exact Hsnd|]. replace (n0 + Z.of_nat (S n)) with (n0 + 1 + Z.of_nat n) by lia.
    exact Hfst.
Qed.

Lemma summary_fold l : forall a b,
  Forall (fun s => 0 <= utilization s <= SEGMENT_SIZE) l ->
  0 <= a -> 0 <= b ->
  a + SEGMENT_SIZE * Z.of_nat (length l) <= UINT64_MAX ->
  b + Z.of_nat (length l) <= UINT64_MAX ->
  foldl (fun st s => Adv2.summary_step s st) (a, b) l =
  (a + total utilization l, b + used l).
Proof.
  induction l as [|s l IH]; intros a b Hall Ha Hb Hna Hnb.
  - cbn [foldl]. change (total utilization []) with 0. change (used []) with 0.
    rewrite !Z.add_0_r. reflexivity.
  - apply Forall_cons in Hall as [Hs Hall].
    rewrite length_cons, Nat2Z.inj_succ in Hna, Hnb.
    cbn [foldl]. unfold Adv2.summary_step at 2. cbn [fst snd].
    rewrite total_cons. change (s :: l) with ([s] ++ l). rewrite used_app.
    unfold used at 1.
    destruct (Z.ltb_spec 0 (utilization s)) as [Hu|Hu].
    + rewrite filter_cons_True by exact Hu.
      rewrite !wrap64_small by (unfold SEGMENT_SIZE in *; lia).
      rewrite IH by (assumption || unfold SEGMENT_SIZE in *; lia).
      rewrite filter_nil. cbn [length]. f_equal; lia.
    + rewrite filter_cons_False by lia.
      rewrite IH by (assumption || unfold SEGMENT_SIZE in *; lia).
      rewrite filter_nil. cbn [length]. f_equal; lia.
Qed.

Lemma total_le_used l :
  Forall (fun s => 0 <= utilization s <= SEGMENT_SIZE) l ->
  0 <= total utilization l <= SEGMENT_SIZE * used l.
Proof.
  induction 1 as [|s l Hs _ IH];
    [change (total utilization []) with 0; change (used []) with 0;
     unfold SEGMENT_SIZE; lia|].
  rewrite total_cons. change (s :: l) with ([s] ++ l). rewrite used_app.
  unfold used at 1. destruct (decide (0 < utilization s)) as [Hu|Hu].
  - rewrite filter_cons_True by exact Hu. rewrite filter_nil. cbn [length]. lia.
  - rewrite filter_cons_False by exact Hu. rewrite filter_nil. cbn [length]. lia.
Qed.

Lemma sound_ranges m :
  pool seg_sound m -> Forall (fun s => 0 <= utilization s <= SEGMENT_SIZE) (segments m).
Proof.
  intros [_ Hall]. eapply Forall_impl; [exact Hall|]. intros s. apply seg_sound_range.
Qed.

Lemma printWorkloadSummary_closed m distribution :
  pool seg_sound (lift m) ->
  Adv2.printWorkloadSummary m distribution =
    [Adv2.SummaryHeading distribution; Adv2.SummaryWrites (Adv2.totalWrites m);
     Adv2.SummaryInvalidated (Adv2.totalInvalidated m);
     Adv2.SummaryUtilization (total utilization (Adv2.segments m));
     Adv2.SummarySegmentsUsed (used (Adv2.segments m))].
Proof.
  intros Hok. pose proof (sound_ranges _ Hok) as Hr. destruct Hok as [Hlen _].
  cbn [segments lift] in Hr, Hlen. unfold Adv2.printWorkloadSummary.
  rewrite (summary_fold _ 0 0 Hr); [reflexivity|lia|lia|..];
    rewrite Hlen; unfold SEGMENT_SIZE, NUM_SEGMENTS, UINT64_MAX; lia.
Qed.

(** X22.  [printWorkloadSummary] on a store whose segments are sound: the
    total utilization that it prints is the sum of [utilization] over the
    segments, the number of segments used is the number of those with
    [utilization > 0], and no addition of the loop wraps; the total is at
    most [SEGMENT_SIZE] times that number. *)
Theorem adv2_summary_totals (m : Adv2.SegmentManager) (distribution : string) :
  pool seg_sound (lift m) ->
  Adv2.printWorkloadSummary m distribution =
    [Adv2.SummaryHeading distribution; Adv2.SummaryWrites (Adv2.totalWrites m);
     Adv2.SummaryInvalidated (Adv2.totalInvalidated m);
     Adv2.SummaryUtilization (total utilization (Adv2.segments m));
     Adv2.SummarySegmentsUsed (used (Adv2.segments m))] /\
  0 <= total utilization (Adv2.segments m) <= SEGMENT_SIZE * used (Adv2.segments m) /\
  0 <= used (Adv2.segments m) <= NUM_SEGMENTS.
Proof.
  intros Hok. split; [apply printWorkloadSummary_closed, Hok|].
  split; [apply total_le_used, (sound_ranges _ Hok)|].
  pose proof (used_le_length (Adv2.segments m)) as Hu. destruct Hok as [Hlen _].
  cbn [segments lift] in Hlen. lia.
Qed.

Lemma adv2_workload_quiet m0 numRequests distribution draw :
  shape (lift m0) -> known distribution -> (forall k, 0 <= draw k) ->
  0 <= numRequests <= QUIET_REQUESTS ->
  let res := Adv2.generateWorkload (Adv2.initSegmentManager m0) numRequests distribution draw in
  snd res = [] /\ quiet numRequests (lift (fst res)).
Proof.
  intros Hsh Hk Hd Hn. cbv zeta. unfold Adv2.generateWorkload.
  destruct (adv2_loop_quiet distribution numRequests draw (Z.to_nat numRequests) Hk Hd
              0 0 (Adv2.initSegmentManager m0) [] 0 ltac:(lia) ltac:(lia) ltac:(lia)
              ltac:(lia) (quiet_init (lift m0) Hsh)) as [Hout Hq].
  split; [exact Hout|]. rewrite Z.add_0_l, Z2Nat.id in Hq by lia. exact Hq.
Qed.

(** The store of the variant after a workload of 100 requests of the
    distribution ["uniform"] on zeroed storage. *)
Definition adv2_store_in_use : Adv2.SegmentManager :=
  fst (Adv2.generateWorkload (Adv2.initSegmentManager adv2_zero_memory) 100 "uniform"
         sample_draw).

Lemma adv2_store_in_use_sound : pool seg_sound (lift adv2_store_in_use).
Proof.
  destruct (adv2_workload_quiet adv2_zero_memory 100 "uniform" sample_draw
              adv2_zero_memory_shape ltac:(left; reflexivity) sample_draw_nonneg
              ltac:(unfold QUIET_REQUESTS; lia)) as [_ [[H _] _]].
  exact H.
Qed.

(** X22, witness: on that store three segments are in use; they hold
    2886 bytes, and 1940 bytes have been invalidated. *)
Lemma adv2_summary_totals_witness :
  total utilization (Adv2.segments adv2_store_in_use) = 2886 /\
  used (Adv2.segments adv2_store_in_use) = 3 /\
  Adv2.printWorkloadSummary adv2_store_in_use "uniform" =
    [Adv2.SummaryHeading "uniform"; Adv2.SummaryWrites 100;
     Adv2.SummaryInvalidated 1940; Adv2.SummaryUtilization 2886;
     Adv2.SummarySegmentsUsed 3] /\
  0 <= total utilization (Adv2.segments adv2_store_in_use)
    <= SEGMENT_SIZE * used (Adv2.segments adv2_store_in_use) /\
  0 <= used (Adv2.segments adv2_store_in_use) <= NUM_SEGMENTS.
Proof.
  destruct (adv2_summary_totals adv2_store_in_use "uniform" adv2_store_in_use_sound)
    as (Hprint & Hsum & Hused).
  assert (Ht : total utilization (Adv2.segments adv2_store_in_use) = 2886)
    by (vm_compute; reflexivity).
  assert (Hu : used (Adv2.segments adv2_store_in_use) = 3) by (vm_compute; reflexivity).
  assert (Hw : Adv2.totalWrites adv2_store_in_use = 100) by (vm_compute; reflexivity).
  assert (Hi : Adv2.totalInvalidated adv2_store_in_use = 1940) by (vm_compute; reflexivity).
  split; [exact Ht|]. split; [exact Hu|].
  split; [rewrite Hprint, Ht, Hu, Hw, Hi; reflexivity|].
  split; [exact Hsum|exact Hused].
Defined.

(** X23.  A workload of at most [QUIET_REQUESTS] requests of one of the three
    distributions on a store just initialised, whatever the storage held
    and whatever [rand()] returns: every request finds room, so that
    nothing is printed and [totalWrites] is the number of requests, and
    [totalInvalidated] is the sum of [invalidatedBytes] over the
    segments. *)
Theorem adv2_workload_all_accepted (m0 : Adv2.SegmentManager) (numRequests : Z)
    (distribution : string) (draw : Z -> Z) :
  shape (lift m0) -> known distribution -> (forall k, 0 <= draw k) ->
  0 <= numRequests <= QUIET_REQUESTS ->
  let res := Adv2.generateWorkload (Adv2.initSegmentManager m0) numRequests distribution draw in
  snd res = [] /\
  Adv2.totalWrites (fst res) = numRequests /\
  Adv2.totalInvalidated (fst res) = total invalidatedBytes (Adv2.segments (fst res)) /\
  total utilization (Adv2.segments (fst res)) <= REQUEST_MAX * numRequests /\
  well_formed (lift (fst res)).
Proof.
  intros Hsh Hk Hd Hn.
  destruct (adv2_workload_quiet m0 numRequests distribution draw Hsh Hk Hd Hn)
    as [Hout (Hwf & _ & Hsum & Hw & _ & _ & Hti & _)].
  cbv zeta. split; [exact Hout|]. split; [exact Hw|]. split; [exact Hti|].
  split; [exact Hsum|exact Hwf].
Qed.

(** X23, witness. *)
Lemma adv2_workload_all_accepted_witness :
  let res := Adv2.generateWorkload (Adv2.initSegmentManager adv2_zero_memory) 100
               "hotspot" sample_draw in
  snd res = [] /\
  Adv2.totalWrites (fst res) = 100 /\
  Adv2.totalInvalidated (fst res) = total invalidatedBytes (Adv2.segments (fst res)) /\
  total utilization (Adv2.segments (fst res)) <= REQUEST_MAX * 100 /\
  well_formed (lift (fst res)).
Proof.
  apply (adv2_workload_all_accepted adv2_zero_memory 100 "hotspot" sample_draw
           adv2_zero_memory_shape);
    [right; left; reflexivity|exact sample_draw_nonneg|unfold QUIET_REQUESTS; lia].
Defined.

(** What one part of [main] prints: the heading of the workload, no
    error, and the summary of 100 writes. *)
Definition phase_output (distribution : string) (out : list Adv2.Line) : Prop :=
  exists ti tu su,
    out = [Adv2.Generating distribution; Adv2.SummaryHeading distribution;
           Adv2.SummaryWrites 100; Adv2.SummaryInvalidated ti;
           Adv2.SummaryUtilization tu; Adv2.SummarySegmentsUsed su] /\
    0 <= ti <= 10200 /\ 0 <= tu <= 10200 /\ 0 <= su <= 12.

Lemma adv2_phase m0 distribution draw :
  shape (lift m0) -> known distribution -> (forall k, 0 <= draw k) ->
  shape (lift (fst (Adv2.phase m0 distribution draw))) /\
  phase_output distribution (snd (Adv2.phase m0 distribution draw)).
Proof.
  intros Hsh Hk Hd. unfold Adv2.phase. cbv zeta.
  destruct (adv2_workload_quiet m0 100 distribution draw Hsh Hk Hd
              ltac:(unfold QUIET_REQUESTS; lia))
    as [Hout (Hwf & Hp & Hsum & Hw & _ & _ & Hti & Htb)].
  destruct (Adv2.generateWorkload (Adv2.initSegmentManager m0) 100 distribution draw)
    as [m out].
  cbn [fst snd] in *. subst out. split; [apply well_formed_shape, Hwf|].
  rewrite (printWorkloadSummary_closed m distribution (proj1 Hwf)).
  cbn [segments totalWrites totalInvalidated lift] in *.
  exists (Adv2.totalInvalidated m), (total utilization (Adv2.segments m)),
         (used (Adv2.segments m)).
  split; [cbn [app]; rewrite Hw; reflexivity|].
  pose proof (total_packed _ Hp (well_formed_nonneg _ Hwf)) as Hlow.
  pose proof (total_le_used _ (sound_ranges _ (proj1 Hwf))) as Hup.
  pose proof (used_le_length (Adv2.segments m)) as Hu.
  destruct Hwf as [_ (_ & [Hti0 _] & _)].
  cbn [segments totalInvalidated lift] in *.
  change REQUEST_MAX with 102 in *. unfold SEGMENT_SIZE in *. lia.
Qed.

(** X24.  [main] of the variant, whatever the storage of [manager] held and
    whatever [rand()] returns: each of the three workloads is written
    without an error, each summary reports 100 writes, at most 10200
    invalidated bytes, at most 10200 bytes of utilization and at most 12
    segments used, although the second and the third run on storage that
    [initSegmentManager] has cleared only in part. *)
Theorem adv2_main_summaries (m0 : Adv2.SegmentManager) (draw1 draw2 draw3 : Z -> Z) :
  shape (lift m0) ->
  (forall k, 0 <= draw1 k) -> (forall k, 0 <= draw2 k) -> (forall k, 0 <= draw3 k) ->
  exists out1 out2 out3,
    snd (Adv2.main m0 draw1 draw2 draw3) = out1 ++ out2 ++ out3 /\
    phase_output "uniform" out1 /\ phase_output "hotspot" out2 /\
    phase_output "sequential" out3.
Proof.
  intros Hsh Hd1 Hd2 Hd3. unfold Adv2.main.
  destruct (adv2_phase m0 "uniform" draw1 Hsh ltac:(left; reflexivity) Hd1) as [Hsh1 Ho1].
  destruct (Adv2.phase m0 "uniform" draw1) as [m1 out1]. cbn [fst snd] in *.
  destruct (adv2_phase m1 "hotspot" draw2 Hsh1 ltac:(right; left; reflexivity) Hd2)
    as [Hsh2 Ho2].
  destruct (Adv2.phase m1 "hotspot" draw2) as [m2 out2]. cbn [fst snd] in *.
  destruct (adv2_phase m2 "sequential" draw3 Hsh2 ltac:(right; right; reflexivity) Hd3)
    as [_ Ho3].
  destruct (Adv2.phase m2 "sequential" draw3) as [m3 out3]. cbn [fst snd] in *.
  exists out1, out2, out3. split; [reflexivity|]. split; [exact Ho1|]. split; assumption.
Qed.

(** X24, witness. *)
Lemma adv2_main_summaries_witness :
  exists out1 out2 out3,
    snd (Adv2.main adv2_zero_memory sample_draw sample_draw sample_draw) =
      out1 ++ out2 ++ out3 /\
    phase_output "uniform" out1 /\ phase_output "hotspot" out2 /\
    phase_output "sequential" out3.
Proof.
  apply (adv2_main_summaries adv2_zero_memory sample_draw sample_draw sample_draw
           adv2_zero_memory_shape sample_draw_nonneg sample_draw_nonneg sample_draw_nonneg).
Defined.
